(** * PassVault: a shallow embedding of [src/main.cpp]

    The development follows the structure of the program: the
    [SecurityManager] (key derivation, XOR stream and hexadecimal codec),
    the [PasswordAnalyzer], and the [PassVault] store with its lock state,
    CRUD operations, persistence and health report.

    Data model (LP64, x86-64, "C" locale):
    - [std::string] is a sequence of bytes: [list ascii];
    - [unsigned long] is 64 bits wide, arithmetic on it wraps modulo 2^64;
    - [long] and [time_t] are 64-bit signed integers, carried as [Z];
    - plain [char] is signed, so a byte above 127 is a negative [int];
    - [int] counters (scores, report fields) are carried as [Z]: they are
      bounded by the number of entries and never reach the [int] range;
    - [difftime] is a subtraction of two [time_t] values, carried out in
      [Z] (exact for every pair of timestamps below 2^53 seconds);
    - [time(0)] and [rand()] read the environment: the embedding threads a
      [World] holding both oracles and the backing file. *)

From Stdlib Require Import ZArith List Ascii Bool Lia.
From stdpp Require Import gmap strings list.

Local Open Scope Z_scope.

(** ** Byte strings *)

Abbreviation bytes := (list ascii).

Definition str (s : String.string) : bytes := String.list_ascii_of_string s.

(** [(unsigned char)c] as an [int]. *)
Definition byte_val (c : ascii) : Z := Z.of_N (N_of_ascii c).

(** [c] of type [char] promoted to [int]. *)
Definition char_val (c : ascii) : Z :=
  if 128 <=? byte_val c then byte_val c - 256 else byte_val c.

(** Conversion of an integer to [char]. *)
Definition to_char (z : Z) : ascii := ascii_of_N (Z.to_N (z mod 256)).

(** ** Outcomes of calls that may not return normally *)

Inductive fault : Type :=
  | NullDeref          (* call through a null [SecurityManager*] *)
  | DivByZero          (* [i % 0] *)
  | InvalidArgument    (* [std::invalid_argument] from [stol] *)
  | OutOfRange         (* [std::out_of_range] from [stol] *)
  | OutOfFuel.         (* never produced by a run of the program *)

Inductive result (A : Type) : Type :=
  | Ok (a : A)
  | Fault (f : fault).
Arguments Ok {A} a.
Arguments Fault {A} f.

Definition rbind {A B} (r : result A) (k : A -> result B) : result B :=
  match r with
  | Ok a => k a
  | Fault f => Fault f
  end.

(** ** <cctype> in the "C" locale *)

Definition in_range (lo hi : Z) (c : ascii) : bool :=
  (lo <=? byte_val c) && (byte_val c <=? hi).

Definition isupper (c : ascii) : bool := in_range 65 90 c.
Definition islower (c : ascii) : bool := in_range 97 122 c.
Definition isdigit (c : ascii) : bool := in_range 48 57 c.
Definition ispunct (c : ascii) : bool :=
  in_range 33 47 c || in_range 58 64 c || in_range 91 96 c || in_range 123 126 c.
Definition isspace (c : ascii) : bool :=
  in_range 9 13 c || in_range 32 32 c.
Definition tolower (c : ascii) : ascii :=
  if isupper c then to_char (byte_val c + 32) else c.

(** ** Decimal rendering and parsing *)

Definition digit_char (d : Z) : ascii := to_char (48 + d).
Definition digit_val (c : ascii) : Z := byte_val c - 48.

(** Most significant digit first; [fuel] bounds the number of digits. *)
Fixpoint dec_digits (fuel : nat) (n : Z) (acc : bytes) : bytes :=
  match fuel with
  | O => acc
  | S f =>
      let acc' := digit_char (n mod 10) :: acc in
      if n <? 10 then acc' else dec_digits f (n / 10) acc'
  end.

(** [std::to_string] on an unsigned value. *)
Definition to_string_unsigned (n : Z) : bytes :=
  dec_digits (S (Z.to_nat (Z.log2 n))) n [].

(** [std::to_string] and [operator<<] on a signed value. *)
Definition to_string (n : Z) : bytes :=
  if n <? 0 then "-"%char :: to_string_unsigned (- n) else to_string_unsigned n.

Fixpoint skip_spaces (s : bytes) : bytes :=
  match s with
  | c :: s' => if isspace c then skip_spaces s' else s
  | [] => []
  end.

(** Optional sign: [true] for a leading minus. *)
Definition read_sign (s : bytes) : bool * bytes :=
  match s with
  | c :: s' =>
      if Ascii.eqb c "-" then (true, s')
      else if Ascii.eqb c "+" then (false, s')
      else (false, s)
  | [] => (false, [])
  end.

Fixpoint parse_dec (s : bytes) (acc : Z) : Z :=
  match s with
  | c :: s' => if isdigit c then parse_dec s' (acc * 10 + digit_val c) else acc
  | [] => acc
  end.

Definition LONG_MAX : Z := 2 ^ 63 - 1.
Definition LONG_MIN : Z := - 2 ^ 63.

Definition in_long (z : Z) : bool := (LONG_MIN <=? z) && (z <=? LONG_MAX).

(** [std::stol(s)]: base 10, throwing when nothing converts or on overflow. *)
Definition stol (s : bytes) : result Z :=
  let '(neg, s') := read_sign (skip_spaces s) in
  match s' with
  | c :: _ =>
      if isdigit c then
        let v := parse_dec s' 0 in
        let v := if neg then - v else v in
        if in_long v then Ok v else Fault OutOfRange
      else Fault InvalidArgument
  | [] => Fault InvalidArgument
  end.

(** ** SecurityManager *)

Module SecurityManager.

Record t : Type := { key : bytes }.

Definition hex_digit (d : Z) : ascii :=
  nth (Z.to_nat d) (str "0123456789abcdef") "0"%char.

(** [ss << hex << setfill('0')] then [setw(2) << (int)c] for every
    [unsigned char c]: a value in 0..255 has one or two hexadecimal
    digits and is padded to two. *)
Definition toHex (data : bytes) : bytes :=
  flat_map (fun c => [hex_digit (byte_val c / 16); hex_digit (byte_val c mod 16)]) data.

Definition hex_val (c : ascii) : option Z :=
  if isdigit c then Some (byte_val c - 48)
  else if in_range 97 102 c then Some (byte_val c - 87)
  else if in_range 65 70 c then Some (byte_val c - 55)
  else None.

Fixpoint parse_hex (s : bytes) (acc : Z) : Z :=
  match s with
  | c :: s' =>
      match hex_val c with
      | Some d => parse_hex s' (acc * 16 + d)
      | None => acc
      end
  | [] => acc
  end.

(** Optional [0x] / [0X] prefix of [strtol] in base 16; when no digit
    follows the prefix the parse is that of the lone [0]. *)
Definition skip_0x (s : bytes) : bytes :=
  match s with
  | z :: x :: s' =>
      if Ascii.eqb z "0" && (Ascii.eqb x "x" || Ascii.eqb x "X") then s' else s
  | _ => s
  end.

Definition clamp_long (z : Z) : Z := Z.max LONG_MIN (Z.min LONG_MAX z).

(** [strtol(s, nullptr, 16)]: 0 when nothing converts. *)
Definition strtol16 (s : bytes) : Z :=
  let '(neg, s') := read_sign (skip_spaces s) in
  let v := parse_hex (skip_0x s') 0 in
  clamp_long (if neg then - v else v).

(** The loop advances by two; [substr(i, 2)] is shorter at an odd tail. *)
Fixpoint fromHex (hexData : bytes) : bytes :=
  match hexData with
  | [] => []
  | [a] => [to_char (strtol16 [a])]
  | a :: b :: rest => to_char (strtol16 [a; b]) :: fromHex rest
  end.

(** [data[i] ^ key[i % key.length()]], both operands promoted to [int]. *)
Definition xor_at (key : bytes) (i : nat) (c : ascii) : ascii :=
  to_char (Z.lxor (char_val c) (char_val (nth (i mod length key)%nat key "000"%char))).

Definition xor_loop (data key : bytes) : result bytes :=
  match data, key with
  | _ :: _, [] => Fault DivByZero
  | _, _ => Ok (imap (xor_at key) data)
  end.

Definition xorEncrypt (data key : bytes) : result bytes :=
  rbind (xor_loop data key) (fun r => Ok (toHex r)).

Definition xorDecrypt (hexData key : bytes) : result bytes :=
  xor_loop (fromHex hexData) key.

(** [hash = ((hash << 5) + hash) + c] on a 64-bit [unsigned long]. *)
Definition hash_step (hash : Z) (c : ascii) : Z :=
  (Z.shiftl hash 5 + hash + char_val c) mod 2 ^ 64.

Definition hashPassword (password : bytes) : bytes :=
  to_string_unsigned (fold_left hash_step password 5381).

(** The constructor. *)
Definition make (masterPassword : bytes) : t :=
  {| key := hashPassword masterPassword |}.

Definition encrypt (sm : t) (data : bytes) : result bytes :=
  xorEncrypt data (key sm).

Definition decrypt (sm : t) (encryptedData : bytes) : result bytes :=
  xorDecrypt encryptedData (key sm).

End SecurityManager.


(** The alphabet of the persisted ciphertext: [0-9a-f]. *)
Definition is_lower_hex (c : ascii) : bool := isdigit c || in_range 97 102 c.

(** ** PasswordAnalyzer *)

Module PasswordAnalyzer.

(** [entropy] is the floating-point product [length * log2(charsetSize)];
    the embedding keeps its integer argument [charsetSize]. *)
Record PasswordStrength : Type := {
  score : Z;
  strength : bytes;
  feedback : list bytes;
  charsetSize : Z
}.

Record classes : Type := {
  hasUpper : bool;
  hasLower : bool;
  hasDigit : bool;
  hasSpecial : bool
}.

(** One iteration of [for(char c : password)]. *)
Definition scan_char (f : classes) (c : ascii) : classes :=
  {| hasUpper := if isupper c then true else hasUpper f;
     hasLower := if islower c then true else hasLower f;
     hasDigit := if isdigit c then true else hasDigit f;
     hasSpecial := if ispunct c then true else hasSpecial f |}.

Definition scan (password : bytes) : classes :=
  fold_left scan_char password
    {| hasUpper := false; hasLower := false; hasDigit := false; hasSpecial := false |}.

Definition add_if (b : bool) (n : Z) (acc : Z) : Z := if b then acc + n else acc.

Definition push_if {A} (b : bool) (x : A) (l : list A) : list A :=
  if b then l ++ [x] else l.

Definition analyzePassword (password : bytes) : PasswordStrength :=
  let length := Z.of_nat (length password) in
  let f := scan password in
  let score :=
    add_if (hasSpecial f) 10
      (add_if (hasDigit f) 10
        (add_if (hasLower f) 15
          (add_if (hasUpper f) 15
            (add_if (16 <=? length) 15
              (add_if (12 <=? length) 15
                (add_if (8 <=? length) 20 0)))))) in
  let charsetSize :=
    add_if (hasSpecial f) 32
      (add_if (hasDigit f) 10
        (add_if (hasLower f) 26
          (add_if (hasUpper f) 26 0))) in
  let strength :=
    if score <? 40 then str "Weak"
    else if score <? 60 then str "Fair"
    else if score <? 75 then str "Good"
    else if score <? 90 then str "Strong"
    else str "Very Strong" in
  let feedback :=
    push_if (negb (hasSpecial f)) (str "• Add special characters (!@#$%)")
      (push_if (negb (hasDigit f)) (str "• Add numbers")
        (push_if (negb (hasLower f)) (str "• Add lowercase letters")
          (push_if (negb (hasUpper f)) (str "• Add uppercase letters")
            (push_if (length <? 12) (str "• Consider using 12+ characters")
              (push_if (length <? 8) (str "• Use at least 8 characters") []))))) in
  let feedback :=
    match feedback with
    | [] => [str "✓ Excellent password!"]
    | _ => feedback
    end in
  {| score := score; strength := strength; feedback := feedback;
     charsetSize := charsetSize |}.

End PasswordAnalyzer.

(** ** PasswordEntry *)

Record PasswordEntry : Type := {
  id : bytes;
  website : bytes;
  username : bytes;
  password : bytes;
  category : bytes;
  notes : bytes;
  createdAt : Z;
  lastModified : Z
}.

(** ** Input streams: [std::getline] on [ifstream] and [stringstream] *)

Record istream : Type := {
  buf : bytes;          (* characters not yet extracted *)
  eofbit : bool;
  failbit : bool
}.

Definition open_stream (content : bytes) : istream :=
  {| buf := content; eofbit := false; failbit := false |}.

(** Characters up to the first [delim], and what follows it, if any. *)
Fixpoint split_delim (delim : ascii) (s : bytes) : bytes * option bytes :=
  match s with
  | [] => ([], None)
  | c :: s' =>
      if Ascii.eqb c delim then ([], Some s')
      else let '(l, r) := split_delim delim s' in (c :: l, r)
  end.

(** [getline(strm, temp, delim)]: when the stream is not good the sentry
    fails, [temp] keeps its value and [failbit] is set; otherwise [temp]
    is erased and filled up to the delimiter, which is extracted and
    dropped; reaching the end sets [eofbit], and [failbit] too when no
    character was extracted. *)
Definition getline (strm : istream) (temp : bytes) (delim : ascii) : istream * bytes :=
  if eofbit strm || failbit strm then
    ({| buf := buf strm; eofbit := eofbit strm; failbit := true |}, temp)
  else
    match split_delim delim (buf strm) with
    | (l, Some r) => ({| buf := r; eofbit := false; failbit := false |}, l)
    | (l, None) =>
        ({| buf := []; eofbit := true;
            failbit := match l with [] => true | _ => false end |}, l)
    end.

(** [std::string::find(needle) != npos]; the position when found. *)
Definition starts_with (needle hay : bytes) : bool :=
  bool_decide (take (length needle) hay = needle).

Fixpoint find (hay needle : bytes) : option nat :=
  if starts_with needle hay then Some O
  else match hay with
       | [] => None
       | _ :: hay' => S <$> find hay' needle
       end.

(** ** PassVault *)

Module PassVault.

Record t : Type := {
  vaultFile : bytes;
  security : option SecurityManager.t;     (* [nullptr] is [None] *)
  entries : list PasswordEntry;
  masterPassword : bytes;
  isLocked : bool;
  lastActivity : Z;
  autoLockMinutes : Z
}.

(** The environment of a run.  [clock] and [rng] list the values that
    successive calls of [time(0)] and [rand()] return; [disk] is the
    content of the vault file when it can be opened for reading, and
    [writable] tells whether it can be opened for writing.  A file that
    was written can be read back. *)
Record World : Type := {
  clock : nat -> Z;
  ticks : nat;
  rng : nat -> Z;
  draws : nat;
  disk : option bytes;
  writable : bool
}.

Record State : Type := { vault : t; world : World }.

(** *** The monad of vault operations *)

Definition M (A : Type) : Type := State -> result (A * State).

Definition ret {A} (a : A) : M A := fun s => Ok (a, s).

Definition bind {A B} (m : M A) (k : A -> M B) : M B := fun s =>
  match m s with
  | Ok (a, s') => k a s'
  | Fault f => Fault f
  end.

Declare Scope vault_scope.
Delimit Scope vault_scope with vault.
Notation "x ← y ; z" := (bind y (fun x => z))
  (at level 20, y at level 100, z at level 200, only parsing) : vault_scope.
Notation "x ;; z" := (bind x (fun _ => z))
  (at level 100, z at level 200, only parsing, right associativity) : vault_scope.
Local Open Scope vault_scope.

Definition get_vault : M t := fun s => Ok (vault s, s).
Definition get_world : M World := fun s => Ok (world s, s).
Definition update_vault (f : t -> t) : M unit :=
  fun s => Ok (tt, {| vault := f (vault s); world := world s |}).
Definition update_world (f : World -> World) : M unit :=
  fun s => Ok (tt, {| vault := vault s; world := f (world s) |}).
Definition lift {A} (r : result A) : M A :=
  fun s => match r with Ok a => Ok (a, s) | Fault f => Fault f end.

Definition set_security (x : option SecurityManager.t) (v : t) : t :=
  {| vaultFile := vaultFile v; security := x; entries := entries v;
     masterPassword := masterPassword v; isLocked := isLocked v;
     lastActivity := lastActivity v; autoLockMinutes := autoLockMinutes v |}.
Definition set_entries (x : list PasswordEntry) (v : t) : t :=
  {| vaultFile := vaultFile v; security := security v; entries := x;
     masterPassword := masterPassword v; isLocked := isLocked v;
     lastActivity := lastActivity v; autoLockMinutes := autoLockMinutes v |}.
Definition set_masterPassword (x : bytes) (v : t) : t :=
  {| vaultFile := vaultFile v; security := security v; entries := entries v;
     masterPassword := x; isLocked := isLocked v;
     lastActivity := lastActivity v; autoLockMinutes := autoLockMinutes v |}.
Definition set_isLocked (x : bool) (v : t) : t :=
  {| vaultFile := vaultFile v; security := security v; entries := entries v;
     masterPassword := masterPassword v; isLocked := x;
     lastActivity := lastActivity v; autoLockMinutes := autoLockMinutes v |}.
Definition set_lastActivity (x : Z) (v : t) : t :=
  {| vaultFile := vaultFile v; security := security v; entries := entries v;
     masterPassword := masterPassword v; isLocked := isLocked v;
     lastActivity := x; autoLockMinutes := autoLockMinutes v |}.

Definition set_ticks (x : nat) (w : World) : World :=
  {| clock := clock w; ticks := x; rng := rng w; draws := draws w;
     disk := disk w; writable := writable w |}.
Definition set_draws (x : nat) (w : World) : World :=
  {| clock := clock w; ticks := ticks w; rng := rng w; draws := x;
     disk := disk w; writable := writable w |}.
Definition set_disk (x : option bytes) (w : World) : World :=
  {| clock := clock w; ticks := ticks w; rng := rng w; draws := draws w;
     disk := x; writable := writable w |}.

(** [time(0)] *)
Definition time0 : M Z :=
  w ← get_world;
  update_world (set_ticks (S (ticks w)));;
  ret (clock w (ticks w)).

(** [rand()] *)
Definition rand : M Z :=
  w ← get_world;
  update_world (set_draws (S (draws w)));;
  ret (rng w (draws w)).

(** *** Private members *)

Definition generateId : M bytes :=
  now ← time0;
  r ← rand;
  ret (to_string now ++ to_string (Z.rem r 10000)).

Definition updateActivity : M unit :=
  now ← time0;
  update_vault (set_lastActivity now).

Definition checkAutoLock : M bool :=
  v ← get_vault;
  if 0 <? autoLockMinutes v then
    now ← time0;
    if autoLockMinutes v * 60 <? now - lastActivity v then
      update_vault (set_isLocked true);;
      ret true
    else ret false
  else ret false.

(** The guard [checkAutoLock() || isLocked]. *)
Definition locked_now : M bool :=
  b ← checkAutoLock;
  if b then ret true
  else v ← get_vault; ret (isLocked v).

(** *** Construction and the lock state *)

Definition make (filename : bytes) : World -> State := fun w =>
  {| vault := {| vaultFile := filename; security := None; entries := [];
                 masterPassword := []; isLocked := true;
                 lastActivity := clock w (ticks w); autoLockMinutes := 10 |};
     world := set_ticks (S (ticks w)) w |}.

Definition initialize (masterPass : bytes) : M bool :=
  update_vault (set_masterPassword masterPass);;
  update_vault (set_security (Some (SecurityManager.make masterPass)));;
  update_vault (set_isLocked false);;
  updateActivity;;
  ret true.

Definition lock : M unit :=
  update_vault (set_isLocked true).

Definition unlock (masterPass : bytes) : M bool :=
  v ← get_vault;
  if bool_decide (masterPass = masterPassword v) then
    update_vault (set_isLocked false);;
    updateActivity;;
    ret true
  else ret false.

(** *** Persistence *)

Definition encrypt_with (sec : option SecurityManager.t) (data : bytes) : result bytes :=
  match sec with
  | Some sm => SecurityManager.encrypt sm data
  | None => Fault NullDeref
  end.

Definition decrypt_with (sec : option SecurityManager.t) (data : bytes) : result bytes :=
  match sec with
  | Some sm => SecurityManager.decrypt sm data
  | None => Fault NullDeref
  end.

Definition bar : bytes := ["|"%char].
Definition newline : ascii := "010"%char.

(** One iteration of the loop of [saveToFile]. *)
Definition write_entry (sec : option SecurityManager.t) (e : PasswordEntry) : result bytes :=
  rbind (encrypt_with sec (id e)) (fun f1 =>
  rbind (encrypt_with sec (website e)) (fun f2 =>
  rbind (encrypt_with sec (username e)) (fun f3 =>
  rbind (encrypt_with sec (password e)) (fun f4 =>
  rbind (encrypt_with sec (category e)) (fun f5 =>
  rbind (encrypt_with sec (notes e)) (fun f6 =>
  Ok (f1 ++ bar ++ f2 ++ bar ++ f3 ++ bar ++ f4 ++ bar ++ f5 ++ bar ++ f6 ++ bar
      ++ to_string (createdAt e) ++ bar ++ to_string (lastModified e)
      ++ [newline]))))))).

Fixpoint write_entries (sec : option SecurityManager.t) (es : list PasswordEntry)
  : result bytes :=
  match es with
  | [] => Ok []
  | e :: es' =>
      rbind (write_entry sec e) (fun l =>
      rbind (write_entries sec es') (fun r => Ok (l ++ r)))
  end.

(** Opening the [ofstream] truncates the file; the snapshot replaces it. *)
Definition saveToFile : M bool :=
  w ← get_world;
  if writable w then
    v ← get_vault;
    data ← lift (write_entries (security v) (entries v));
    update_world (set_disk (Some data));;
    ret true
  else ret false.

(** The body of the [while] loop of [loadFromFile] on one line. *)
Definition parse_line (sec : option SecurityManager.t) (line : bytes)
  : result PasswordEntry :=
  let ss := open_stream line in
  let '(ss, temp) := getline ss [] "|" in
  rbind (decrypt_with sec temp) (fun f1 =>
  let '(ss, temp) := getline ss temp "|" in
  rbind (decrypt_with sec temp) (fun f2 =>
  let '(ss, temp) := getline ss temp "|" in
  rbind (decrypt_with sec temp) (fun f3 =>
  let '(ss, temp) := getline ss temp "|" in
  rbind (decrypt_with sec temp) (fun f4 =>
  let '(ss, temp) := getline ss temp "|" in
  rbind (decrypt_with sec temp) (fun f5 =>
  let '(ss, temp) := getline ss temp "|" in
  rbind (decrypt_with sec temp) (fun f6 =>
  let '(ss, temp) := getline ss temp "|" in
  rbind (stol temp) (fun t1 =>
  let '(ss, temp) := getline ss temp "|" in
  rbind (stol temp) (fun t2 =>
  Ok {| id := f1; website := f2; username := f3; password := f4;
        category := f5; notes := f6; createdAt := t1; lastModified := t2 |})))))))).

(** [while(getline(file, line))]: every turn extracts at least one
    character or ends the loop, so [fuel] above the length of the file
    plus one is never exhausted. *)
Fixpoint read_lines (fuel : nat) (sec : option SecurityManager.t)
    (file : istream) (line : bytes) (acc : list PasswordEntry)
  : result (list PasswordEntry) :=
  match fuel with
  | O => Fault OutOfFuel
  | S fuel' =>
      let '(file', line') := getline file line newline in
      if failbit file' then Ok acc
      else rbind (parse_line sec line') (fun e =>
           read_lines fuel' sec file' line' (acc ++ [e]))
  end.

(** Each [PasswordEntry entry;] of the loop reads the clock twice in its
    constructor before the fields are overwritten. *)
Definition loadFromFile : M bool :=
  w ← get_world;
  match disk w with
  | None => ret false
  | Some content =>
      update_vault (set_entries []);;
      v ← get_vault;
      es ← lift (read_lines (length content + 2) (security v)
                   (open_stream content) [] []);
      update_world (set_ticks (ticks w + 2 * length es));;
      update_vault (set_entries es);;
      ret true
  end.

(** *** Operations on entries *)

Definition has_id (eid : bytes) (e : PasswordEntry) : bool :=
  bool_decide (id e = eid).

Definition addEntry (entry : PasswordEntry) : M bool :=
  locked ← locked_now;
  if locked then ret false
  else
    updateActivity;;
    newId ← generateId;
    created ← time0;
    modified ← time0;
    let newEntry :=
      {| id := newId; website := website entry; username := username entry;
         password := password entry; category := category entry;
         notes := notes entry; createdAt := created; lastModified := modified |} in
    v ← get_vault;
    update_vault (set_entries (entries v ++ [newEntry]));;
    saveToFile.

(** The first entry carrying [eid] is overwritten in place. *)
Fixpoint update_first (eid : bytes) (entry : PasswordEntry) (now : Z)
    (es : list PasswordEntry) : list PasswordEntry :=
  match es with
  | [] => []
  | e :: es' =>
      if has_id eid e then
        {| id := id e; website := website entry; username := username entry;
           password := password entry; category := category entry;
           notes := notes entry; createdAt := createdAt e; lastModified := now |}
        :: es'
      else e :: update_first eid entry now es'
  end.

Definition updateEntry (eid : bytes) (entry : PasswordEntry) : M bool :=
  locked ← locked_now;
  if locked then ret false
  else
    updateActivity;;
    v ← get_vault;
    if existsb (has_id eid) (entries v) then
      now ← time0;
      update_vault (set_entries (update_first eid entry now (entries v)));;
      saveToFile
    else ret false.

(** [remove_if] followed by [erase] keeps the other entries in order. *)
Definition deleteEntry (eid : bytes) : M bool :=
  locked ← locked_now;
  if locked then ret false
  else
    updateActivity;;
    v ← get_vault;
    if existsb (has_id eid) (entries v) then
      update_vault (set_entries (List.filter (fun e => negb (has_id eid e)) (entries v)));;
      saveToFile
    else ret false.

Definition lower (s : bytes) : bytes := map tolower s.

Definition found (hay needle : bytes) : bool :=
  match find hay needle with Some _ => true | None => false end.

(** The test of the loop of [searchEntries]; [lowerQuery] is already
    lower-cased by the caller. *)
Definition matches (lowerQuery : bytes) (entry : PasswordEntry) : bool :=
  found (lower (website entry)) lowerQuery
  || found (lower (username entry)) lowerQuery
  || found (category entry) lowerQuery.

Definition searchEntries (query : bytes) : M (list PasswordEntry) :=
  locked ← locked_now;
  if locked then ret []
  else
    updateActivity;;
    v ← get_vault;
    let lowerQuery := lower query in
    ret (List.filter (matches lowerQuery) (entries v)).

Definition getAllEntries : M (list PasswordEntry) :=
  locked ← locked_now;
  if locked then ret []
  else
    updateActivity;;
    v ← get_vault;
    ret (entries v).

(** The returned pointer is [nullptr] when [None]. *)
Definition getEntry (eid : bytes) : M (option PasswordEntry) :=
  locked ← locked_now;
  if locked then ret None
  else
    updateActivity;;
    v ← get_vault;
    ret (List.find (has_id eid) (entries v)).

(** *** Health report *)

(** [m[k] += n] on a [std::map<string, int>]; a missing key starts at 0. *)
Definition add_to (k : bytes) (n : Z) (m : gmap bytes Z) : gmap bytes Z :=
  <[k := default 0 (m !! k) + n]> m.

(** The body of the first loop: [report] and [passwordCount]. *)
Definition health_step (now : Z) (acc : gmap bytes Z * gmap bytes Z)
    (entry : PasswordEntry) : gmap bytes Z * gmap bytes Z :=
  let '(report, passwordCount) := acc in
  let strength := PasswordAnalyzer.analyzePassword (password entry) in
  let report :=
    if PasswordAnalyzer.score strength <? 60 then add_to (str "weak") 1 report
    else report in
  let passwordCount := add_to (password entry) 1 passwordCount in
  (* monthsOld = difftime(now, lastModified) / (30 * 24 * 60 * 60) > 6 *)
  let report :=
    if 6 * (30 * 24 * 60 * 60) <? now - lastModified entry
    then add_to (str "old") 1 report
    else report in
  (report, passwordCount).

(** The body of the second loop, over [passwordCount]. *)
Definition reused_step (p : bytes) (n : Z) (report : gmap bytes Z) : gmap bytes Z :=
  if 1 <? n then add_to (str "reused") n report else report.

Definition getHealthReport : M (gmap bytes Z) :=
  v ← get_vault;
  let report : gmap bytes Z :=
    <[str "old" := 0]> (<[str "reused" := 0]> (<[str "weak" := 0]>
      (<[str "total" := Z.of_nat (length (entries v))]> ∅))) in
  now ← time0;
  let '(report, passwordCount) :=
    fold_left (health_step now) (entries v) (report, ∅) in
  ret (map_fold reused_step report passwordCount).

(** *** Sequences of calls *)

Inductive call : Type :=
  | Initialize (masterPass : bytes)
  | Lock
  | Unlock (masterPass : bytes)
  | AddEntry (entry : PasswordEntry)
  | UpdateEntry (eid : bytes) (entry : PasswordEntry)
  | DeleteEntry (eid : bytes)
  | SearchEntries (query : bytes)
  | GetAllEntries
  | GetEntry (eid : bytes)
  | SaveToFile
  | LoadFromFile
  | GetHealthReport.

Definition ignore {A} (m : M A) : M unit := _ ← m; ret tt.

Definition perform (c : call) : M unit :=
  match c with
  | Initialize p => ignore (initialize p)
  | Lock => lock
  | Unlock p => ignore (unlock p)
  | AddEntry e => ignore (addEntry e)
  | UpdateEntry i e => ignore (updateEntry i e)
  | DeleteEntry i => ignore (deleteEntry i)
  | SearchEntries q => ignore (searchEntries q)
  | GetAllEntries => ignore getAllEntries
  | GetEntry i => ignore (getEntry i)
  | SaveToFile => ignore saveToFile
  | LoadFromFile => ignore loadFromFile
  | GetHealthReport => ignore getHealthReport
  end.

Fixpoint run (cs : list call) : M unit :=
  match cs with
  | [] => ret tt
  | c :: cs' => perform c;; run cs'
  end.

Definition is_initialize (c : call) : bool :=
  match c with Initialize _ => true | _ => false end.

End PassVault.

(** ** Sample environments and entries *)

Module Sample.
Import PassVault.

(** A clock that stands still within one second, and a generator whose
    successive values agree modulo 10000. *)
Definition still_world : World :=
  {| clock := fun _ => 1700000000; ticks := O;
     rng := fun n => Z.of_nat n * 10000 + 42; draws := O;
     disk := None; writable := true |}.

(** A clock that advances by one hour at every reading. *)
Definition hourly_world : World :=
  {| clock := fun n => Z.of_nat n * 3600 + 1700000000; ticks := O;
     rng := fun n => Z.of_nat n * 10000 + 42; draws := O;
     disk := None; writable := true |}.

Definition draft (site user pw cat : String.string) : PasswordEntry :=
  {| id := []; website := str site; username := str user; password := str pw;
     category := str cat; notes := []; createdAt := 0; lastModified := 0 |}.

Definition github : PasswordEntry := draft "GitHub.com" "alice" "abc123" "Work".
Definition bank : PasswordEntry := draft "bank.example" "alice" "abc123" "money".
Definition mail : PasswordEntry := draft "mail.example" "bob" "Tr0ub4dor&9!XyZ" "mail".

Definition stored (n : Z) (e : PasswordEntry) : PasswordEntry :=
  {| id := to_string n; website := website e; username := username e;
     password := password e; category := category e; notes := notes e;
     createdAt := 1700000000; lastModified := 1700000000 |}.

(** An unlocked vault holding three entries, its file not yet written. *)
Definition open_state (w : World) : State :=
  {| vault := {| vaultFile := str "passvault.dat";
                 security := Some (SecurityManager.make (str "hunter22"));
                 entries := [stored 1 github; stored 2 bank; stored 3 mail];
                 masterPassword := str "hunter22"; isLocked := false;
                 lastActivity := 1700000000; autoLockMinutes := 10 |};
     world := w |}.

Definition locked_state (w : World) : State :=
  {| vault := set_isLocked true (vault (open_state w)); world := w |}.

End Sample.

(** ** Vocabulary of the statements *)

(** [needle] occurs in [hay] as a contiguous block. *)
Definition contains (hay needle : bytes) : Prop :=
  exists pre post, hay = pre ++ needle ++ post.

(** The state a sequence of calls ends in. *)
Definition after (cs : list PassVault.call) (s : PassVault.State) : PassVault.State :=
  match PassVault.run cs s with
  | Ok (_, s') => s'
  | Fault _ => s
  end.

(** The timestamps of an entry are values of the 64-bit [time_t]. *)
Definition time_t_entry (e : PasswordEntry) : Prop :=
  in_long (createdAt e) = true /\ in_long (lastModified e) = true.

(** Occurrences of a password among the entries. *)
Definition occurrences (pw : bytes) (es : list PasswordEntry) : Z :=
  Z.of_nat (length (List.filter (fun e => bool_decide (password e = pw)) es)).

(** The sum of [f] over a list. *)
Definition sum_over {A} (f : A -> Z) (l : list A) : Z :=
  foldr (fun x acc => f x + acc) 0 l.

(** A call respects a relation on states when every run that returns
    relates the state it started from to the state it ends in. *)
Definition respects (R : PassVault.State -> PassVault.State -> Prop) {A}
    (m : PassVault.M A) : Prop :=
  forall s a s', m s = Ok (a, s') -> R s s'.

Definition same_passphrase (s s' : PassVault.State) : Prop :=
  PassVault.masterPassword (PassVault.vault s')
  = PassVault.masterPassword (PassVault.vault s).

(** The number a string of decimal digits denotes, continuing from [a]. *)
Definition dec_value (ds : bytes) (a : Z) : Z :=
  fold_left (fun a c => a * 10 + digit_val c) ds a.

(** The part of [health_step] that maintains [passwordCount]. *)
Definition count_step (m : gmap bytes Z) (e : PasswordEntry) : gmap bytes Z :=
  PassVault.add_to (password e) 1 m.

(** What one pair of [passwordCount] adds to [reused]. *)
Definition reused_share (pn : bytes * Z) : Z := if 1 <? pn.2 then pn.2 else 0.

(** A character that is neither of the two separators of the file. *)
Definition plain (c : ascii) : Prop :=
  Ascii.eqb c "|" = false /\ Ascii.eqb c PassVault.newline = false.

Definition no_newline (c : ascii) : Prop := Ascii.eqb c PassVault.newline = false.


(** ** PasswordGenerator *)

Module PasswordGenerator.

Definition upper_pool : bytes := str "ABCDEFGHIJKLMNOPQRSTUVWXYZ".
Definition lower_pool : bytes := str "abcdefghijklmnopqrstuvwxyz".
Definition digit_pool : bytes := str "0123456789".
Definition special_pool : bytes := str "!@#$%^&*()_+-=[]{}|;:,.<>?".

(** The working alphabet, with its fallback when no class is selected. *)
Definition charset (useUpper useLower useDigits useSpecial : bool) : bytes :=
  let charset : bytes := [] in
  let charset := if useUpper then charset ++ upper_pool else charset in
  let charset := if useLower then charset ++ lower_pool else charset in
  let charset := if useDigits then charset ++ digit_pool else charset in
  let charset := if useSpecial then charset ++ special_pool else charset in
  match charset with
  | [] => lower_pool
  | _ => charset
  end.

(** [dis i] is the value the [i]-th call [dis(gen)] returns; the
    distribution is built on [0 .. charset.length() - 1].  The loop
    [for(int i = 0; i < length; i++)] does not run for [length <= 0]. *)
Definition generate (dis : nat -> Z) (length : Z)
    (useUpper useLower useDigits useSpecial : bool) : bytes :=
  let charset := charset useUpper useLower useDigits useSpecial in
  map (fun i => nth (Z.to_nat (dis i)) charset "000"%char) (seq 0 (Z.to_nat length)).

(** The draws respect the bounds the distribution was built with. *)
Definition in_bounds (dis : nat -> Z) (charset : bytes) : Prop :=
  forall i, 0 <= dis i <= Z.of_nat (length charset) - 1.

End PasswordGenerator.

(** ** UIHelper and the dashboard of [main] *)

Module UIHelper.

Definition full_cell : bytes := str "█".
Definition empty_cell : bytes := str "░".

(** What [printProgressBar] sends to [cout]; [/] on [int] truncates. *)
Definition printProgressBar (percentage : Z) : bytes :=
  let bars := Z.quot percentage 5 in
  str "["
  ++ flat_map (fun i => if Z.of_nat i <? bars then full_cell else empty_cell) (seq 0 20)
  ++ str "] " ++ to_string percentage ++ str "%".

End UIHelper.

Module Dashboard.

(** [health["k"]] on the returned map: a missing key reads as 0. *)
Definition field (k : String.string) (health : gmap bytes Z) : Z :=
  default 0 (health !! str k).

(** [healthScore] of menu option 5. *)
Definition healthScore (health : gmap bytes Z) : Z :=
  let healthScore := 100 in
  if 0 <? field "total" health then
    let healthScore := healthScore - Z.quot (field "weak" health * 30) (field "total" health) in
    let healthScore := healthScore - Z.quot (field "reused" health * 30) (field "total" health) in
    let healthScore := healthScore - Z.quot (field "old" health * 20) (field "total" health) in
    healthScore
  else healthScore.

Definition recommendation (healthScore : Z) : bytes :=
  if healthScore <? 70 then
    str "💡 Recommendation: Update weak and reused passwords immediately!"
  else if healthScore <? 90 then
    str "💡 Recommendation: Consider updating old passwords."
  else str "✓ Your password security looks great!".

(** The length handed to [generate] by menu option 4. *)
Definition clamp_length (length : Z) : Z := Z.max 8 (Z.min 32 length).

End Dashboard.

(** ** Further vocabulary *)

(** The state right after [updateActivity]. *)
Definition touched (s : PassVault.State) : PassVault.State :=
  {| PassVault.vault :=
       PassVault.set_lastActivity
         (PassVault.clock (PassVault.world s) (PassVault.ticks (PassVault.world s)))
         (PassVault.vault s);
     PassVault.world :=
       PassVault.set_ticks (S (PassVault.ticks (PassVault.world s))) (PassVault.world s) |}.

(** The backing file holds the snapshot of the entries in memory. *)
Definition in_sync (s : PassVault.State) : Prop :=
  exists data,
    PassVault.disk (PassVault.world s) = Some data
    /\ PassVault.write_entries (PassVault.security (PassVault.vault s))
         (PassVault.entries (PassVault.vault s)) = Ok data.

(** Entries the report counts as weak, and as old at time [now]. *)
Definition weak_count (es : list PasswordEntry) : Z :=
  Z.of_nat (length (List.filter
    (fun e => PasswordAnalyzer.score (PasswordAnalyzer.analyzePassword (password e)) <? 60)
    es)).

Definition old_count (now : Z) (es : list PasswordEntry) : Z :=
  Z.of_nat (length (List.filter
    (fun e => 6 * (30 * 24 * 60 * 60) <? now - lastModified e) es)).

(** Some character of a class the analyzer rewards. *)
Definition classified (c : ascii) : bool :=
  isupper c || islower c || isdigit c || ispunct c.

(** Calls that can clear the Locked state or replace the entries while
    Locked. *)
Definition keeps_lock (c : PassVault.call) : bool :=
  match c with
  | PassVault.Initialize _ | PassVault.Unlock _ | PassVault.LoadFromFile => false
  | _ => true
  end.

Definition is_load (c : PassVault.call) : bool :=
  match c with PassVault.LoadFromFile => true | _ => false end.

(** Number of occurrences of a character. *)
Definition count_char (c : ascii) (s : bytes) : nat :=
  length (List.filter (Ascii.eqb c) s).

(** The vault holds a [SecurityManager] built by its constructor. *)
Definition key_ready (s : PassVault.State) : Prop :=
  exists mp,
    PassVault.security (PassVault.vault s) = Some (SecurityManager.make mp).

(** The entry [updateEntry] writes over [e]. *)
Definition overwritten (draft : PasswordEntry) (now : Z) (e : PasswordEntry)
  : PasswordEntry :=
  {| id := id e; website := website draft; username := username draft;
     password := password draft; category := category draft; notes := notes draft;
     createdAt := createdAt e; lastModified := now |}.

(** A call that, on a vault holding a key, returns normally and leaves
    the vault holding a key. *)
Definition safe {A} (m : PassVault.M A) : Prop :=
  forall s, key_ready s -> exists a s', m s = Ok (a, s') /\ key_ready s'.

(** What no member function assigns after construction. *)
Definition same_settings (s s' : PassVault.State) : Prop :=
  PassVault.autoLockMinutes (PassVault.vault s')
    = PassVault.autoLockMinutes (PassVault.vault s)
  /\ PassVault.vaultFile (PassVault.vault s') = PassVault.vaultFile (PassVault.vault s).

(** Entries whose password is one of [pws]. *)
Definition with_password_in (pws : list bytes) (es : list PasswordEntry) : Z :=
  Z.of_nat (length (List.filter (fun e => bool_decide (password e ∈ pws)) es)).

(** The characters [saveToFile] can write. *)
Definition file_char (c : ascii) : bool :=
  is_lower_hex c || Ascii.eqb c "|" || Ascii.eqb c "-" || Ascii.eqb c PassVault.newline.
(** * Properties *)

Example hash_empty : SecurityManager.hashPassword [] = str "5381".
Proof. reflexivity. Qed.

Example hash_a : SecurityManager.hashPassword (str "a") = str "177670".
Proof. vm_compute. reflexivity. Qed.

Example enc_example :
  SecurityManager.encrypt (SecurityManager.make (str "secret")) (str "hi")
  = Ok (str "5e50").
Proof. vm_compute. reflexivity. Qed.

(** ** Facts about bytes *)

Lemma byte_val_range c : 0 <= byte_val c < 256.
Proof.
  unfold byte_val. pose proof (N_ascii_bounded c) as H. lia.
Qed.

Lemma to_char_byte_val c : to_char (byte_val c) = c.
Proof.
  unfold to_char. pose proof (byte_val_range c) as H.
  rewrite Z.mod_small by lia. unfold byte_val.
  rewrite N2Z.id. apply ascii_N_embedding.
Qed.

Lemma byte_val_to_char z : byte_val (to_char z) = z mod 256.
Proof.
  unfold to_char, byte_val.
  pose proof (Z.mod_pos_bound z 256 ltac:(lia)) as H.
  rewrite N_ascii_embedding by lia. lia.
Qed.

Lemma char_val_mod c : char_val c mod 256 = byte_val c.
Proof.
  unfold char_val. pose proof (byte_val_range c) as H.
  destruct (128 <=? byte_val c).
  - replace (byte_val c - 256) with (byte_val c + (-1) * 256) by lia.
    rewrite Z.mod_add by lia. apply Z.mod_small; lia.
  - apply Z.mod_small; lia.
Qed.

Lemma to_char_mod z z' : z mod 256 = z' mod 256 -> to_char z = to_char z'.
Proof. unfold to_char. intros ->. reflexivity. Qed.

Lemma lxor_mod_256 x y :
  Z.lxor x y mod 256 = Z.lxor (x mod 256) (y mod 256).
Proof.
  change 256 with (2 ^ 8). apply Z.bits_inj'. intros n Hn.
  rewrite Z.lxor_spec, !Z.testbit_mod_pow2, Z.lxor_spec by lia.
  destruct (n <? 8); reflexivity.
Qed.

(** ** The codec *)

Section Codec.
Import SecurityManager.

Lemma xor_at_involutive k i c : xor_at k i (xor_at k i c) = c.
Proof.
  unfold xor_at.
  set (kc := char_val (nth (i mod length k)%nat k "000"%char)).
  rewrite <- (to_char_byte_val c) at 2.
  apply to_char_mod.
  rewrite lxor_mod_256, char_val_mod, byte_val_to_char.
  rewrite <- lxor_mod_256, Z.lxor_assoc, Z.lxor_nilpotent, Z.lxor_0_r.
  rewrite char_val_mod. symmetry. apply Z.mod_small, byte_val_range.
Qed.

Lemma imap_involutive {A} (f : nat -> A -> A) (l : list A) :
  (forall i x, f i (f i x) = x) -> imap f (imap f l) = l.
Proof.
  revert f. induction l as [|x l IH]; intros f Hf; simpl; [reflexivity|].
  rewrite Hf. f_equal. apply IH. intros i y. apply Hf.
Qed.

Lemma hex_pair_decodes c :
  to_char (strtol16 [hex_digit (byte_val c / 16); hex_digit (byte_val c mod 16)]) = c.
Proof.
  destruct c as [[] [] [] [] [] [] [] []]; vm_compute; reflexivity.
Qed.

Lemma fromHex_toHex data : fromHex (toHex data) = data.
Proof.
  induction data as [|c data IH]; [reflexivity|].
  change (toHex (c :: data))
    with (hex_digit (byte_val c / 16) :: hex_digit (byte_val c mod 16) :: toHex data).
  cbn [fromHex]. rewrite hex_pair_decodes, IH. reflexivity.
Qed.

Lemma hex_pair_alphabet c :
  is_lower_hex (hex_digit (byte_val c / 16)) = true
  /\ is_lower_hex (hex_digit (byte_val c mod 16)) = true.
Proof.
  destruct c as [[] [] [] [] [] [] [] []]; vm_compute; split; reflexivity.
Qed.

Lemma toHex_alphabet data : Forall (fun c => is_lower_hex c = true) (toHex data).
Proof.
  induction data as [|c data IH]; [constructor|].
  destruct (hex_pair_alphabet c) as [H1 H2].
  change (toHex (c :: data))
    with (hex_digit (byte_val c / 16) :: hex_digit (byte_val c mod 16) :: toHex data).
  repeat constructor; assumption.
Qed.

Lemma toHex_length data : length (toHex data) = (2 * length data)%nat.
Proof.
  induction data as [|c data IH]; [reflexivity|].
  change (toHex (c :: data))
    with (hex_digit (byte_val c / 16) :: hex_digit (byte_val c mod 16) :: toHex data).
  cbn [length]. rewrite IH. lia.
Qed.

Lemma dec_digits_grows fuel n acc : (length acc <= length (dec_digits fuel n acc))%nat.
Proof.
  revert n acc. induction fuel as [|f IH]; intros n acc; simpl; [lia|].
  destruct (n <? 10); simpl; [lia|].
  etransitivity; [|apply IH]. simpl. lia.
Qed.

Lemma to_string_unsigned_nonempty n : to_string_unsigned n <> [].
Proof.
  unfold to_string_unsigned. cbn [dec_digits].
  destruct (n <? 10); [discriminate|].
  intros H. pose proof (dec_digits_grows (Z.to_nat (Z.log2 n)) (n / 10)
    [digit_char (n mod 10)]) as Hl.
  rewrite H in Hl. simpl in Hl. lia.
Qed.

Lemma hashPassword_nonempty password : hashPassword password <> [].
Proof. apply to_string_unsigned_nonempty. Qed.

Lemma xor_loop_nonempty_key data k :
  k <> [] -> xor_loop data k = Ok (imap (xor_at k) data).
Proof. intros Hk. destruct data, k; try reflexivity. congruence. Qed.

Lemma xorEncrypt_ok data k :
  k <> [] -> xorEncrypt data k = Ok (toHex (imap (xor_at k) data)).
Proof. intros Hk. unfold xorEncrypt. rewrite xor_loop_nonempty_key by assumption. reflexivity. Qed.

Lemma xorDecrypt_xorEncrypt data k :
  k <> [] -> xorDecrypt (toHex (imap (xor_at k) data)) k = Ok data.
Proof.
  intros Hk. unfold xorDecrypt. rewrite fromHex_toHex.
  rewrite xor_loop_nonempty_key by assumption.
  rewrite imap_involutive by apply xor_at_involutive. reflexivity.
Qed.

Lemma encrypt_make mp data :
  encrypt (make mp) data = Ok (toHex (imap (xor_at (hashPassword mp)) data)).
Proof. apply xorEncrypt_ok, hashPassword_nonempty. Qed.

Lemma decrypt_encrypt_make mp data :
  decrypt (make mp) (toHex (imap (xor_at (hashPassword mp)) data)) = Ok data.
Proof. apply xorDecrypt_xorEncrypt, hashPassword_nonempty. Qed.

End Codec.

(** C1. For every key derived from a passphrase by [hashPassword] and every
    plaintext, [encrypt] returns a string that [decrypt] maps back to the
    plaintext; that string consists of the digits [0-9a-f] only and is
    exactly twice as long as the plaintext, hence of even length. *)
Theorem C1_encrypt_decrypt_roundtrip (masterPassword text : bytes) :
  let sm := SecurityManager.make masterPassword in
  exists hexs,
    SecurityManager.encrypt sm text = Ok hexs
    /\ SecurityManager.decrypt sm hexs = Ok text
    /\ Forall (fun c => is_lower_hex c = true) hexs
    /\ length hexs = (2 * length text)%nat
    /\ Nat.Even (length hexs).
Proof.
  intros sm. subst sm.
  eexists. split; [apply encrypt_make|].
  split; [apply decrypt_encrypt_make|].
  split; [apply toHex_alphabet|].
  rewrite toHex_length, length_imap.
  split; [reflexivity|]. exists (length text). lia.
Qed.

(** ** The strength analyzer *)

Section Analyzer.
Import PasswordAnalyzer.

Lemma scan_from (f : classes) (p : bytes) :
  fold_left scan_char p f =
  {| hasUpper := hasUpper f || existsb isupper p;
     hasLower := hasLower f || existsb islower p;
     hasDigit := hasDigit f || existsb isdigit p;
     hasSpecial := hasSpecial f || existsb ispunct p |}.
Proof.
  revert f. induction p as [|c p IH]; intros f; simpl.
  - destruct f; simpl. rewrite !orb_false_r. reflexivity.
  - rewrite IH. unfold scan_char; simpl.
    destruct (isupper c), (islower c), (isdigit c), (ispunct c); simpl;
      rewrite ?orb_true_r; reflexivity.
Qed.

Lemma scan_classes p :
  scan p = {| hasUpper := existsb isupper p; hasLower := existsb islower p;
              hasDigit := existsb isdigit p; hasSpecial := existsb ispunct p |}.
Proof. unfold scan. rewrite scan_from. reflexivity. Qed.

End Analyzer.

(** C9. The score of [analyzePassword] is the sum of 20, 15 and 15 for
    the lengths 8, 12 and 16 reached, 15 for an uppercase letter, 15 for a
    lowercase letter, 10 for a digit and 10 for a punctuation character;
    the strength is Weak below 40, Fair below 60, Good below 75, Strong
    below 90 and Very Strong from 90 on; eight letters [a] score 35, Weak. *)
Theorem C9_analyzePassword_score (pw : bytes) :
  let r := PasswordAnalyzer.analyzePassword pw in
  let len := Z.of_nat (length pw) in
  let pts (b : bool) (n : Z) := if b then n else 0 in
  PasswordAnalyzer.score r =
    pts (8 <=? len) 20 + pts (12 <=? len) 15 + pts (16 <=? len) 15
    + pts (existsb isupper pw) 15 + pts (existsb islower pw) 15
    + pts (existsb isdigit pw) 10 + pts (existsb ispunct pw) 10
  /\ PasswordAnalyzer.strength r =
       (if PasswordAnalyzer.score r <? 40 then str "Weak"
        else if PasswordAnalyzer.score r <? 60 then str "Fair"
        else if PasswordAnalyzer.score r <? 75 then str "Good"
        else if PasswordAnalyzer.score r <? 90 then str "Strong"
        else str "Very Strong")
  /\ PasswordAnalyzer.score (PasswordAnalyzer.analyzePassword (str "aaaaaaaa")) = 35
  /\ PasswordAnalyzer.strength (PasswordAnalyzer.analyzePassword (str "aaaaaaaa"))
       = str "Weak".
Proof.
  intros r len pts. split; [|split; [reflexivity|split; reflexivity]].
  subst r. unfold PasswordAnalyzer.analyzePassword.
  rewrite scan_classes. cbn [PasswordAnalyzer.score PasswordAnalyzer.hasUpper
    PasswordAnalyzer.hasLower PasswordAnalyzer.hasDigit PasswordAnalyzer.hasSpecial].
  fold len. unfold PasswordAnalyzer.add_if, pts.
  destruct (8 <=? len), (12 <=? len), (16 <=? len), (existsb isupper pw),
    (existsb islower pw), (existsb isdigit pw), (existsb ispunct pw); reflexivity.
Qed.

(** ** The vault: what a call leaves alone *)

Section Frame.
Import PassVault.
Local Open Scope vault_scope.

Variable R : State -> State -> Prop.
Hypothesis R_refl : forall s, R s s.
Hypothesis R_trans : forall s1 s2 s3, R s1 s2 -> R s2 s3 -> R s1 s3.

Lemma respects_ret {A} (a : A) : respects R (ret a).
Proof. intros s a' s' [= _ <-]. apply R_refl. Qed.

Lemma respects_bind {A B} (m : M A) (k : A -> M B) :
  respects R m -> (forall a, respects R (k a)) -> respects R (bind m k).
Proof.
  intros Hm Hk s b s'. unfold bind.
  destruct (m s) as [[a s1]|] eqn:E; [|discriminate].
  intros H. eapply R_trans; [eapply Hm, E|eapply Hk, H].
Qed.

Lemma respects_get_vault : respects R get_vault.
Proof. intros s a s' [= _ <-]. apply R_refl. Qed.

Lemma respects_get_world : respects R get_world.
Proof. intros s a s' [= _ <-]. apply R_refl. Qed.

Lemma respects_lift {A} (r : result A) : respects R (lift r).
Proof. intros s a s'. unfold lift. destruct r; [|discriminate]. intros [= _ <-]. apply R_refl. Qed.

Lemma respects_ignore {A} (m : M A) : respects R m -> respects R (ignore m).
Proof. intros H. apply respects_bind; [exact H|]. intros _. apply respects_ret. Qed.

End Frame.

(** ** The master passphrase is only set by [initialize] *)

Section Passphrase.
Import PassVault.
Local Open Scope vault_scope.

Lemma sp_refl s : same_passphrase s s.
Proof. reflexivity. Qed.

Lemma sp_trans s1 s2 s3 :
  same_passphrase s1 s2 -> same_passphrase s2 s3 -> same_passphrase s1 s3.
Proof. unfold same_passphrase. congruence. Qed.

Lemma sp_update_world f : respects same_passphrase (update_world f).
Proof. intros s a s' [= _ <-]. reflexivity. Qed.

Lemma sp_set_isLocked b : respects same_passphrase (update_vault (set_isLocked b)).
Proof. intros s a s' [= _ <-]. reflexivity. Qed.

Lemma sp_set_lastActivity z : respects same_passphrase (update_vault (set_lastActivity z)).
Proof. intros s a s' [= _ <-]. reflexivity. Qed.

Lemma sp_set_entries es : respects same_passphrase (update_vault (set_entries es)).
Proof. intros s a s' [= _ <-]. reflexivity. Qed.

Ltac sp :=
  repeat first
    [ apply (respects_ret same_passphrase sp_refl)
    | apply (respects_get_vault same_passphrase sp_refl)
    | apply (respects_get_world same_passphrase sp_refl)
    | apply (respects_lift same_passphrase sp_refl)
    | apply sp_update_world
    | apply sp_set_isLocked
    | apply sp_set_lastActivity
    | apply sp_set_entries
    | assumption
    | apply (respects_bind same_passphrase sp_trans); [|intros ?]
    | apply (respects_ignore same_passphrase sp_refl sp_trans)
    | match goal with
      | |- respects _ (if ?b then _ else _) => destruct b
      | |- respects _ (match ?x with Some _ => _ | None => _ end) => destruct x
      | |- respects _ (let '(_, _) := ?x in _) => destruct x
      end ].

Lemma sp_time0 : respects same_passphrase time0.
Proof. unfold time0. sp. Qed.

Lemma sp_rand : respects same_passphrase rand.
Proof. unfold rand. sp. Qed.

Lemma sp_updateActivity : respects same_passphrase updateActivity.
Proof. pose proof sp_time0. unfold updateActivity. sp. Qed.

Lemma sp_locked_now : respects same_passphrase locked_now.
Proof. pose proof sp_time0. unfold locked_now, checkAutoLock. sp. Qed.

Lemma sp_saveToFile : respects same_passphrase saveToFile.
Proof. unfold saveToFile. sp. Qed.

Lemma sp_loadFromFile : respects same_passphrase loadFromFile.
Proof. unfold loadFromFile. sp. Qed.

Lemma sp_perform c : is_initialize c = false -> respects same_passphrase (perform c).
Proof.
  pose proof sp_time0. pose proof sp_rand. pose proof sp_updateActivity.
  pose proof sp_locked_now. pose proof sp_saveToFile. pose proof sp_loadFromFile.
  intros Hc. destruct c; try discriminate; cbn [perform];
    unfold lock, unlock, addEntry, updateEntry, deleteEntry, searchEntries,
      getAllEntries, getEntry, getHealthReport, generateId; sp.
Qed.

Lemma sp_run cs :
  forallb (fun c => negb (is_initialize c)) cs = true ->
  respects same_passphrase (run cs).
Proof.
  induction cs as [|c cs IH]; cbn [run forallb]; intros H.
  - apply (respects_ret same_passphrase sp_refl).
  - apply andb_true_iff in H as [Hc Hcs]. apply negb_true_iff in Hc.
    apply (respects_bind same_passphrase sp_trans); [apply sp_perform, Hc|].
    intros _. apply IH, Hcs.
Qed.

Lemma initialize_sets_passphrase mp s :
  exists s', initialize mp s = Ok (true, s')
    /\ masterPassword (vault s') = mp /\ isLocked (vault s') = false.
Proof. eexists. split; [reflexivity|]. split; reflexivity. Qed.

Lemma unlock_right p s :
  p = masterPassword (vault s) ->
  exists s', unlock p s = Ok (true, s') /\ isLocked (vault s') = false.
Proof.
  intros ->. unfold unlock, bind, get_vault.
  rewrite bool_decide_eq_true_2 by reflexivity.
  eexists. split; reflexivity.
Qed.

Lemma unlock_wrong p s :
  p <> masterPassword (vault s) -> unlock p s = Ok (false, s).
Proof.
  intros Hp. unfold unlock, bind, get_vault.
  rewrite bool_decide_eq_false_2 by assumption. reflexivity.
Qed.

End Passphrase.

(** C4. After [initialize(mp)] and any further calls other than
    [initialize], [unlock(p)] on the Locked vault returns true and leaves
    the vault Unlocked exactly when [p] is [mp]; for every other [p] it
    returns false and the whole state is unchanged. *)
Theorem C4_unlock_iff_master_passphrase
    (mp p : bytes) (cs : list PassVault.call) (s0 s : PassVault.State) :
  forallb (fun c => negb (PassVault.is_initialize c)) cs = true ->
  PassVault.run (PassVault.Initialize mp :: cs) s0 = Ok (tt, s) ->
  PassVault.isLocked (PassVault.vault s) = true ->
  (p = mp ->
     exists s', PassVault.unlock p s = Ok (true, s')
       /\ PassVault.isLocked (PassVault.vault s') = false)
  /\ (p <> mp -> PassVault.unlock p s = Ok (false, s))
  /\ (forall s', PassVault.unlock p s = Ok (true, s') -> p = mp).
Proof.
  intros Hcs Hrun _.
  assert (Hmp : PassVault.masterPassword (PassVault.vault s) = mp).
  { cbn [PassVault.run] in Hrun. unfold PassVault.bind at 1 in Hrun.
    destruct (initialize_sets_passphrase mp s0) as (s1 & Hinit & Hmp1 & _).
    cbn [PassVault.perform] in Hrun. unfold PassVault.ignore, PassVault.bind at 1 in Hrun.
    rewrite Hinit in Hrun. cbn in Hrun.
    apply (sp_run cs Hcs) in Hrun. unfold same_passphrase in Hrun. congruence. }
  split; [|split].
  - intros ->. apply unlock_right. congruence.
  - intros Hp. apply unlock_wrong. congruence.
  - intros s' Hu. destruct (decide (p = mp)) as [|Hne]; [assumption|].
    rewrite unlock_wrong in Hu by congruence. discriminate.
Qed.

Lemma C4_unlock_iff_master_passphrase_witness :
  let mp := str "hunter22" in
  let cs := [PassVault.AddEntry Sample.github; PassVault.Lock] in
  let s0 := PassVault.make (str "passvault.dat") Sample.still_world in
  let s := after (PassVault.Initialize mp :: cs) s0 in
  forallb (fun c => negb (PassVault.is_initialize c)) cs = true
  /\ PassVault.run (PassVault.Initialize mp :: cs) s0 = Ok (tt, s)
  /\ PassVault.isLocked (PassVault.vault s) = true
  /\ (exists s', PassVault.unlock mp s = Ok (true, s')
        /\ PassVault.isLocked (PassVault.vault s') = false)
  /\ PassVault.unlock (str "hunter2") s = Ok (false, s).
Proof.
  intros mp cs s0 s.
  assert (H1 : forallb (fun c => negb (PassVault.is_initialize c)) cs = true)
    by reflexivity.
  assert (H2 : PassVault.run (PassVault.Initialize mp :: cs) s0 = Ok (tt, s))
    by (vm_compute; reflexivity).
  assert (H3 : PassVault.isLocked (PassVault.vault s) = true)
    by (vm_compute; reflexivity).
  split; [exact H1|]. split; [exact H2|]. split; [exact H3|].
  split.
  - exact (proj1 (C4_unlock_iff_master_passphrase mp mp cs s0 s H1 H2 H3) eq_refl).
  - refine (proj1 (proj2 (C4_unlock_iff_master_passphrase mp (str "hunter2") cs s0 s
      H1 H2 H3)) _).
    vm_compute. discriminate.
Defined.

(** ** The lock state *)

(** C10. A vault that was constructed and never initialised holds no key
    and the empty passphrase: [unlock("")] returns true and leaves it
    Unlocked. *)
Theorem C10_fresh_vault_unlocks_with_empty_passphrase
    (filename : bytes) (w : PassVault.World) :
  let s := PassVault.make filename w in
  PassVault.isLocked (PassVault.vault s) = true
  /\ PassVault.security (PassVault.vault s) = None
  /\ exists s', PassVault.unlock [] s = Ok (true, s')
       /\ PassVault.isLocked (PassVault.vault s') = false
       /\ PassVault.security (PassVault.vault s') = None.
Proof.
  intros s. split; [reflexivity|]. split; [reflexivity|].
  eexists. split; [reflexivity|]. split; reflexivity.
Qed.

(** C5 (as the code has it). [lock()] sets the state to Locked and changes
    nothing else: the [SecurityManager] holding the derived key and the
    stored master passphrase stay in the session state while Locked. *)
Theorem C5_lock_keeps_key_material (s : PassVault.State) :
  PassVault.lock s =
    Ok (tt, {| PassVault.vault := PassVault.set_isLocked true (PassVault.vault s);
               PassVault.world := PassVault.world s |})
  /\ PassVault.security (PassVault.set_isLocked true (PassVault.vault s))
       = PassVault.security (PassVault.vault s)
  /\ PassVault.masterPassword (PassVault.set_isLocked true (PassVault.vault s))
       = PassVault.masterPassword (PassVault.vault s)
  /\ PassVault.isLocked (PassVault.set_isLocked true (PassVault.vault s)) = true.
Proof. repeat split. Qed.

(** C5, refuted as stated: after [initialize] and [lock] the vault is
    Locked and still holds the key and the passphrase. *)
Lemma C5_locked_vault_holds_key :
  let s := after [PassVault.Initialize (str "hunter22"); PassVault.Lock]
             (PassVault.make (str "passvault.dat") Sample.still_world) in
  PassVault.isLocked (PassVault.vault s) = true
  /\ PassVault.security (PassVault.vault s)
       = Some {| SecurityManager.key := str "7572472640792351" |}
  /\ PassVault.masterPassword (PassVault.vault s) = str "hunter22".
Proof. vm_compute. repeat split. Qed.

(** ** The auto-lock guard *)

Section Guard.
Import PassVault.
Local Open Scope vault_scope.

Lemma checkAutoLock_total s : exists b s1, checkAutoLock s = Ok (b, s1).
Proof.
  unfold checkAutoLock, bind, get_vault, time0, get_world, update_world,
    update_vault, ret; cbn.
  destruct (0 <? autoLockMinutes (vault s)); cbn; [|eauto].
  destruct (_ <? _); cbn; eauto.
Qed.

Lemma checkAutoLock_frame s b s1 :
  checkAutoLock s = Ok (b, s1) ->
  entries (vault s1) = entries (vault s) /\ disk (world s1) = disk (world s).
Proof.
  unfold checkAutoLock, bind, get_vault, time0, get_world, update_world,
    update_vault, ret; cbn.
  destruct (0 <? autoLockMinutes (vault s)); cbn.
  - destruct (_ <? _); cbn; intros [= _ <-]; split; reflexivity.
  - intros [= _ <-]; split; reflexivity.
Qed.

Lemma bind_ok {A B} (m : M A) (k : A -> M B) s a s1 :
  m s = Ok (a, s1) -> bind m k s = k a s1.
Proof. intros H. unfold bind. rewrite H. reflexivity. Qed.

Lemma locked_now_true s b s1 :
  checkAutoLock s = Ok (b, s1) -> isLocked (vault s1) = true ->
  locked_now s = Ok (true, s1).
Proof.
  intros Hc Hl. unfold locked_now, bind. rewrite Hc.
  destruct b; [reflexivity|]. unfold get_vault, ret. rewrite Hl. reflexivity.
Qed.

Lemma locked_now_false s b s1 :
  checkAutoLock s = Ok (b, s1) -> isLocked (vault s1) = false ->
  locked_now s = Ok (false, s1).
Proof.
  intros Hc Hl. unfold locked_now, bind. rewrite Hc.
  destruct b.
  - exfalso. revert Hc Hl.
    unfold checkAutoLock, bind, get_vault, time0, get_world, update_world,
      update_vault, ret; cbn.
    destruct (0 <? autoLockMinutes (vault s)); cbn; [|discriminate].
    destruct (_ <? _); cbn; [|discriminate].
    intros [= <-]. discriminate.
  - unfold get_vault, ret. rewrite Hl. reflexivity.
Qed.

End Guard.

(** C3 (as the code has it). [addEntry], [updateEntry], [deleteEntry],
    [searchEntries], [getAllEntries] and [getEntry] begin with the lazy
    auto-lock check; when the vault is Locked after that check, also by
    that very check, they return false, the empty list or no entry, and
    neither the entry set nor the backing file is touched. *)
Theorem C3_locked_vault_refuses
    (s s1 : PassVault.State) (b : bool)
    (entry : PasswordEntry) (eid query : bytes) :
  PassVault.checkAutoLock s = Ok (b, s1) ->
  PassVault.isLocked (PassVault.vault s1) = true ->
  PassVault.addEntry entry s = Ok (false, s1)
  /\ PassVault.updateEntry eid entry s = Ok (false, s1)
  /\ PassVault.deleteEntry eid s = Ok (false, s1)
  /\ PassVault.searchEntries query s = Ok ([], s1)
  /\ PassVault.getAllEntries s = Ok ([], s1)
  /\ PassVault.getEntry eid s = Ok (None, s1)
  /\ PassVault.entries (PassVault.vault s1) = PassVault.entries (PassVault.vault s)
  /\ PassVault.disk (PassVault.world s1) = PassVault.disk (PassVault.world s).
Proof.
  intros Hc Hl. pose proof (locked_now_true s b s1 Hc Hl) as Hg.
  unfold PassVault.addEntry, PassVault.updateEntry, PassVault.deleteEntry,
    PassVault.searchEntries, PassVault.getAllEntries, PassVault.getEntry.
  rewrite !(bind_ok PassVault.locked_now _ s true s1 Hg).
  repeat (split; [reflexivity|]). apply (checkAutoLock_frame s b s1 Hc).
Qed.

Lemma C3_locked_vault_refuses_witness :
  let s := Sample.open_state (PassVault.set_ticks 1 Sample.hourly_world) in
  let s1 := {| PassVault.vault := PassVault.set_isLocked true (PassVault.vault s);
               PassVault.world := PassVault.set_ticks 2 (PassVault.world s) |} in
  PassVault.isLocked (PassVault.vault s) = false
  /\ PassVault.checkAutoLock s = Ok (true, s1)
  /\ PassVault.isLocked (PassVault.vault s1) = true
  /\ PassVault.addEntry Sample.github s = Ok (false, s1)
  /\ PassVault.entries (PassVault.vault s1) = PassVault.entries (PassVault.vault s).
Proof.
  intros s s1.
  assert (H1 : PassVault.checkAutoLock s = Ok (true, s1)) by reflexivity.
  assert (H2 : PassVault.isLocked (PassVault.vault s1) = true) by reflexivity.
  pose proof (C3_locked_vault_refuses s s1 true Sample.github [] [] H1 H2) as H.
  split; [reflexivity|]. split; [exact H1|]. split; [exact H2|].
  split; [exact (proj1 H)|]. exact (proj1 (proj2 (proj2 (proj2 (proj2 (proj2 (proj2 H))))))).
Defined.

(** C3, refuted as stated: [saveToFile] and [loadFromFile] make no check.
    On a Locked vault the first rewrites the backing file and the second
    replaces the entry set. *)
Lemma C3_save_and_load_ignore_the_lock :
  let s := Sample.locked_state Sample.still_world in
  let emptied := {| PassVault.vault := PassVault.vault s;
                    PassVault.world := PassVault.set_disk (Some []) (PassVault.world s) |} in
  (exists s1, PassVault.checkAutoLock s = Ok (false, s1)
     /\ PassVault.isLocked (PassVault.vault s1) = true)
  /\ (exists s', PassVault.saveToFile s = Ok (true, s')
        /\ PassVault.disk (PassVault.world s') <> PassVault.disk (PassVault.world s))
  /\ (exists s', PassVault.loadFromFile emptied = Ok (true, s')
        /\ PassVault.isLocked (PassVault.vault emptied) = true
        /\ PassVault.entries (PassVault.vault s') = []
        /\ length (PassVault.entries (PassVault.vault emptied)) = 3%nat).
Proof.
  intros s emptied. split; [|split].
  - eexists. split; reflexivity.
  - eexists. split; [vm_compute; reflexivity|]. vm_compute. discriminate.
  - eexists. split; [vm_compute; reflexivity|]. repeat split.
Qed.

(** ** Identifiers *)

(** C6, evaluated where it fails: two [addEntry] calls within one second,
    with [rand()] values that agree modulo 10000, both succeed and store
    two entries under the same id. *)
Theorem C6_addEntry_twice_same_id :
  let s0 := PassVault.make (str "passvault.dat") Sample.still_world in
  exists s e1 e2,
    PassVault.run [PassVault.Initialize (str "hunter22");
                   PassVault.AddEntry Sample.github;
                   PassVault.AddEntry Sample.bank] s0 = Ok (tt, s)
    /\ PassVault.entries (PassVault.vault s) = [e1; e2]
    /\ id e1 = str "170000000042"
    /\ id e2 = str "170000000042"
    /\ website e1 <> website e2.
Proof.
  intros s0. eexists _, _, _.
  split; [vm_compute; reflexivity|].
  split; [reflexivity|]. split; [reflexivity|]. split; [reflexivity|].
  vm_compute. discriminate.
Qed.

(** ** Searching *)

Section Search.
Import PassVault.
Local Open Scope vault_scope.

Lemma starts_with_spec needle hay :
  starts_with needle hay = true <-> exists post, hay = needle ++ post.
Proof.
  unfold starts_with. rewrite bool_decide_eq_true. split.
  - intros H. exists (drop (length needle) hay).
    rewrite <- H at 1. symmetry. apply take_drop.
  - intros [post ->]. apply take_app_length.
Qed.

Lemma found_spec hay needle : found hay needle = true <-> contains hay needle.
Proof.
  unfold found, contains. induction hay as [|c hay IH]; cbn [find].
  - destruct (starts_with needle []) eqn:E.
    + apply starts_with_spec in E as [post E]. split; [|reflexivity].
      intros _. exists [], post. exact E.
    + split; [discriminate|]. intros (pre & post & H).
      symmetry in H. apply app_eq_nil in H as [-> H].
      apply app_eq_nil in H as [-> ->]. discriminate E.
  - destruct (starts_with needle (c :: hay)) eqn:E.
    + apply starts_with_spec in E as [post E]. split; [|reflexivity].
      intros _. exists [], post. exact E.
    + destruct (find hay needle) as [n|] eqn:F; cbn.
      * split; [|reflexivity]. intros _.
        destruct (proj1 IH eq_refl) as (pre & post & ->).
        exists (c :: pre), post. reflexivity.
      * split; [discriminate|]. intros (pre & post & H).
        destruct pre as [|c' pre]; cbn in H.
        -- assert (starts_with needle (c :: hay) = true) as E'
             by (apply starts_with_spec; eauto).
           congruence.
        -- injection H as _ ->.
           assert (false = true) as X by (apply IH; eauto). discriminate X.
Qed.

Lemma matches_spec q e :
  matches q e = true <->
  contains (lower (website e)) q \/ contains (lower (username e)) q
  \/ contains (category e) q.
Proof.
  unfold matches. rewrite !orb_true_iff, !found_spec. tauto.
Qed.

Lemma matches_empty e : matches [] e = true.
Proof. apply matches_spec. left. exists [], (lower (website e)). reflexivity. Qed.

Lemma filter_all {A} (f : A -> bool) (l : list A) :
  (forall x, f x = true) -> List.filter f l = l.
Proof.
  intros H. induction l as [|x l IH]; [reflexivity|].
  cbn. rewrite H, IH. reflexivity.
Qed.

Lemma searchEntries_unlocked s s1 query :
  locked_now s = Ok (false, s1) ->
  searchEntries query s =
    Ok (List.filter (matches (lower query)) (entries (vault s1)),
        {| vault := set_lastActivity (clock (world s1) (ticks (world s1))) (vault s1);
           world := set_ticks (S (ticks (world s1))) (world s1) |}).
Proof.
  intros Hg. unfold searchEntries. rewrite (bind_ok locked_now _ s false s1 Hg).
  reflexivity.
Qed.

End Search.

(** What [searchEntries] computes on a vault that is Unlocked after the
    auto-lock check: the entries, in storage order, that [matches] accepts
    for the lower-cased query. *)
Lemma searchEntries_returns_matches
    (s s1 : PassVault.State) (b : bool) (query : bytes) :
  PassVault.checkAutoLock s = Ok (b, s1) ->
  PassVault.isLocked (PassVault.vault s1) = false ->
  let q := PassVault.lower query in
  let es := PassVault.entries (PassVault.vault s) in
  (exists s', PassVault.searchEntries query s = Ok (List.filter (PassVault.matches q) es, s'))
  /\ (forall e, PassVault.matches q e = true <->
        contains (PassVault.lower (website e)) q
        \/ contains (PassVault.lower (username e)) q
        \/ contains (category e) q)
  /\ (query = [] -> List.filter (PassVault.matches q) es = es).
Proof.
  intros Hc Hl q es.
  pose proof (locked_now_false s b s1 Hc Hl) as Hg.
  destruct (checkAutoLock_frame s b s1 Hc) as [He _].
  split; [|split].
  - eexists. rewrite (searchEntries_unlocked s s1 query Hg).
    subst es. rewrite He. reflexivity.
  - intros e. apply matches_spec.
  - intros ->. apply filter_all. intros e. apply matches_empty.
Qed.

(** C7, evaluated where it fails.  The vault is Unlocked and stores an
    entry with website [GitHub.com] and category [Work].  The query
    [GitHub] finds it through the website, which is compared in lower
    case on both sides; the query [Work], which the category contains
    letter for letter, returns nothing, and so does the query [work],
    which the category contains when case is ignored: the category is
    left as stored and compared with the lower-cased query. *)
Theorem C7_searchEntries_misses_category_match :
  let s := Sample.open_state Sample.still_world in
  let e := Sample.stored 1 Sample.github in
  PassVault.isLocked (PassVault.vault s) = false
  /\ In e (PassVault.entries (PassVault.vault s))
  /\ website e = str "GitHub.com"
  /\ category e = str "Work"
  /\ contains (category e) (str "Work")
  /\ contains (PassVault.lower (category e)) (PassVault.lower (str "work"))
  /\ (exists s', PassVault.searchEntries (str "GitHub") s = Ok ([e], s'))
  /\ (exists s', PassVault.searchEntries (str "Work") s = Ok ([], s'))
  /\ (exists s', PassVault.searchEntries (str "work") s = Ok ([], s')).
Proof.
  intros s e. split; [reflexivity|]. split; [left; reflexivity|].
  split; [reflexivity|]. split; [reflexivity|].
  split; [exists [], []; reflexivity|].
  split; [exists [], []; reflexivity|].
  split; [|split]; eexists; vm_compute; reflexivity.
Qed.

(** ** The health report *)

Section Health.
Import PassVault.
Local Open Scope vault_scope.

Lemma health_fold_counts (now : Z) (es : list PasswordEntry) (r pc : gmap bytes Z) :
  snd (fold_left (health_step now) es (r, pc)) = fold_left count_step es pc.
Proof.
  revert r pc. induction es as [|e es IH]; intros r pc; [reflexivity|].
  cbn [fold_left]. unfold health_step at 2. apply IH.
Qed.

Lemma add_to_other (k k' : bytes) (n : Z) (m : gmap bytes Z) :
  k <> k' -> add_to k n m !! k' = m !! k'.
Proof. intros H. unfold add_to. apply lookup_insert_ne, H. Qed.

Lemma add_to_same (k : bytes) (n : Z) (m : gmap bytes Z) :
  add_to k n m !! k = Some (default 0 (m !! k) + n).
Proof. unfold add_to. apply lookup_insert_eq. Qed.

Lemma health_fold_reused (now : Z) (es : list PasswordEntry) (r pc : gmap bytes Z) :
  fst (fold_left (health_step now) es (r, pc)) !! str "reused" = r !! str "reused".
Proof.
  revert r pc. induction es as [|e es IH]; intros r pc; [reflexivity|].
  cbn [fold_left]. unfold health_step at 2. rewrite IH.
  destruct (_ <? _), (_ <? _); rewrite ?add_to_other; try reflexivity;
    try (intros X; vm_compute in X; discriminate X).
Qed.

Lemma occurrences_cons pw e es :
  occurrences pw (e :: es) =
  (if bool_decide (password e = pw) then 1 else 0) + occurrences pw es.
Proof.
  unfold occurrences. cbn [List.filter].
  destruct (bool_decide (password e = pw)); cbn [length]; lia.
Qed.

Lemma occurrences_nonneg pw es : 0 <= occurrences pw es.
Proof. unfold occurrences. lia. Qed.

Lemma occurrences_pos pw es :
  0 < occurrences pw es <-> pw ∈ map password es.
Proof.
  induction es as [|e es IH].
  - split.
    + unfold occurrences. cbn [List.filter length]. lia.
    + intros H. inversion H.
  - rewrite occurrences_cons. cbn [map]. rewrite elem_of_cons.
    pose proof (occurrences_nonneg pw es).
    destruct (bool_decide (password e = pw)) eqn:E.
    + apply bool_decide_eq_true in E. split; [auto|lia].
    + apply bool_decide_eq_false in E. rewrite Z.add_0_l, IH.
      split; [auto|]. intros [X|X]; [congruence|assumption].
Qed.

Lemma count_fold_lookup (es : list PasswordEntry) (m : gmap bytes Z) (pw : bytes) :
  fold_left count_step es m !! pw =
  if occurrences pw es =? 0 then m !! pw
  else Some (default 0 (m !! pw) + occurrences pw es).
Proof.
  revert m. induction es as [|e es IH]; intros m; [reflexivity|].
  cbn [fold_left]. rewrite IH, occurrences_cons. unfold count_step.
  pose proof (occurrences_nonneg pw es) as Hn.
  destruct (bool_decide (password e = pw)) eqn:E.
  - apply bool_decide_eq_true in E. subst pw. rewrite add_to_same.
    destruct (occurrences (password e) es =? 0) eqn:Z0.
    + apply Z.eqb_eq in Z0. rewrite Z0. reflexivity.
    + apply Z.eqb_neq in Z0.
      destruct (1 + occurrences (password e) es =? 0) eqn:Z1;
        [apply Z.eqb_eq in Z1; lia|].
      cbn [default from_option]. unfold Datatypes.id. apply (f_equal Some). lia.
  - apply bool_decide_eq_false in E. rewrite add_to_other by assumption.
    rewrite Z.add_0_l. reflexivity.
Qed.

Lemma count_lookup es pw n :
  fold_left count_step es ∅ !! pw = Some n <->
  pw ∈ map password es /\ n = occurrences pw es.
Proof.
  rewrite count_fold_lookup, lookup_empty. cbn [default].
  rewrite <- occurrences_pos. pose proof (occurrences_nonneg pw es).
  destruct (occurrences pw es =? 0) eqn:E.
  - apply Z.eqb_eq in E. split; [discriminate|lia].
  - apply Z.eqb_neq in E. rewrite Z.add_0_l. split.
    + intros [= <-]. lia.
    + intros [_ ->]. reflexivity.
Qed.

Lemma reused_foldr (l : list (bytes * Z)) (r : gmap bytes Z) :
  foldr (uncurry reused_step) r l !! str "reused" =
  Some (default 0 (r !! str "reused") + sum_over reused_share l)
  \/ (sum_over reused_share l = 0
      /\ foldr (uncurry reused_step) r l !! str "reused" = r !! str "reused").
Proof.
  induction l as [|[p n] l IH]; cbn [foldr sum_over uncurry].
  - right. split; reflexivity.
  - fold (sum_over reused_share l).
    change (reused_share (p, n)) with (if 1 <? n then n else 0).
    set (rest := foldr (uncurry reused_step) r l) in *.
    change (reused_step p n rest)
      with (if 1 <? n then add_to (str "reused") n rest else rest).
    destruct (1 <? n).
    + left. rewrite add_to_same. destruct IH as [-> | [-> ->]];
        cbn [default from_option]; unfold Datatypes.id; apply (f_equal Some); lia.
    + rewrite Z.add_0_l. exact IH.
Qed.

Lemma sum_over_perm {A} (f : A -> Z) (l k : list A) :
  l ≡ₚ k -> sum_over f l = sum_over f k.
Proof.
  induction 1 as [|x l k _ IH|x y l|l k m _ IH1 _ IH2]; cbn.
  - reflexivity.
  - fold (sum_over f l) (sum_over f k). lia.
  - fold (sum_over f l). lia.
  - congruence.
Qed.

Lemma sum_over_shares (occ : bytes -> Z) (l : list bytes) :
  sum_over reused_share (map (fun p => (p, occ p)) l) =
  sum_over occ (List.filter (fun p => 1 <? occ p) l).
Proof.
  induction l as [|p l IH]; [reflexivity|].
  cbn [map sum_over foldr List.filter].
  fold (sum_over reused_share (map (fun p => (p, occ p)) l)). rewrite IH.
  unfold reused_share at 1. cbn [snd].
  destruct (1 <? occ p); reflexivity.
Qed.

Lemma counts_listed es :
  map_to_list (fold_left count_step es ∅) ≡ₚ
  map (fun p => (p, occurrences p es)) (remove_dups (map password es)).
Proof.
  apply NoDup_Permutation.
  - apply NoDup_map_to_list.
  - assert (Inj (=) (=) (fun p : bytes => (p, occurrences p es))) as Hinj
      by (intros p1 p2 [= ->]; reflexivity).
    apply (NoDup_fmap_2 (fun p : bytes => (p, occurrences p es))), NoDup_remove_dups.
  - intros [p n]. rewrite elem_of_map_to_list, count_lookup.
    change (map (fun p0 => (p0, occurrences p0 es)))
      with (fmap (M:=list) (fun p0 => (p0, occurrences p0 es))).
    rewrite list_elem_of_fmap. setoid_rewrite elem_of_remove_dups. split.
    + intros [Hin ->]. exists p. split; [reflexivity|assumption].
    + intros (p' & [= -> ->] & Hin). split; [assumption|reflexivity].
Qed.

Lemma getHealthReport_reused s :
  exists report s',
    getHealthReport s = Ok (report, s')
    /\ report !! str "reused" =
       Some (sum_over (fun pw => occurrences pw (entries (vault s)))
               (List.filter (fun pw => 1 <? occurrences pw (entries (vault s)))
                  (remove_dups (map password (entries (vault s)))))).
Proof.
  set (es := entries (vault s)).
  unfold getHealthReport, bind, get_vault, time0, get_world, update_world, ret.
  cbn -[str]. fold es.
  set (now := clock (world s) (ticks (world s))).
  match goal with
  | |- context [fold_left (health_step now) es (?r, _)] => set (r0 := r)
  end.
  pose proof (health_fold_counts now es r0 ∅) as Hpc.
  pose proof (health_fold_reused now es r0 ∅) as Hr.
  destruct (fold_left (health_step now) es (r0, ∅)) as [r pc].
  cbn [fst snd] in Hpc, Hr. subst pc.
  eexists _, _. split; [reflexivity|].
  rewrite map_fold_foldr.
  assert (Hr0 : r !! str "reused" = Some 0).
  { rewrite Hr. subst r0. rewrite lookup_insert_ne, lookup_insert_eq; [reflexivity|].
    intros X; vm_compute in X; discriminate X. }
  rewrite <- sum_over_shares, <- (sum_over_perm _ _ _ (counts_listed es)).
  destruct (reused_foldr (map_to_list (fold_left count_step es ∅)) r)
    as [-> | [-> ->]]; rewrite Hr0; reflexivity.
Qed.

End Health.

(** C8. The [reused] field of [getHealthReport] is the sum, over the
    distinct passwords that occur more than once among the entries, of
    their numbers of occurrences; three entries with the passwords
    [abc123], [abc123] and [Tr0ub4dor&9!XyZ] give [reused = 2]. *)
Theorem C8_getHealthReport_reused (s : PassVault.State) (w : PassVault.World) :
  let es := PassVault.entries (PassVault.vault s) in
  (exists report s',
     PassVault.getHealthReport s = Ok (report, s')
     /\ report !! str "reused" =
        Some (sum_over (fun pw => occurrences pw es)
                (List.filter (fun pw => 1 <? occurrences pw es)
                   (remove_dups (map password es)))))
  /\ map password (PassVault.entries (PassVault.vault (Sample.open_state w)))
       = [str "abc123"; str "abc123"; str "Tr0ub4dor&9!XyZ"]
  /\ (exists report s',
        PassVault.getHealthReport (Sample.open_state w) = Ok (report, s')
        /\ report !! str "reused" = Some 2).
Proof.
  intros es. split; [apply getHealthReport_reused|]. split; [reflexivity|].
  destruct (getHealthReport_reused (Sample.open_state w)) as (r & s' & H1 & H2).
  exists r, s'. split; [exact H1|]. rewrite H2. vm_compute. reflexivity.
Qed.

(** ** Decimal rendering read back *)

Section Decimal.

Lemma digit_char_isdigit d : 0 <= d < 10 -> isdigit (digit_char d) = true.
Proof.
  intros H. unfold isdigit, in_range, digit_char.
  rewrite byte_val_to_char, Z.mod_small by lia.
  apply andb_true_iff. split; apply Z.leb_le; lia.
Qed.

Lemma digit_val_digit_char d : 0 <= d < 10 -> digit_val (digit_char d) = d.
Proof.
  intros H. unfold digit_val, digit_char.
  rewrite byte_val_to_char, Z.mod_small by lia. lia.
Qed.

Lemma dec_digits_S fuel n acc :
  dec_digits (S fuel) n acc =
  if n <? 10 then digit_char (n mod 10) :: acc
  else dec_digits fuel (n / 10) (digit_char (n mod 10) :: acc).
Proof. reflexivity. Qed.

Lemma dec_digits_spec fuel n acc :
  0 <= n < 2 ^ Z.of_nat (S fuel) ->
  exists ds, dec_digits (S fuel) n acc = ds ++ acc
    /\ ds <> []
    /\ Forall (fun c => isdigit c = true) ds
    /\ forall a, dec_value ds a = a * 10 ^ Z.of_nat (length ds) + n.
Proof.
  revert n acc. induction fuel as [|fuel IH]; intros n acc Hn.
  - change (2 ^ Z.of_nat 1) with 2 in Hn. cbn [dec_digits].
    rewrite (proj2 (Z.ltb_lt n 10)) by lia.
    exists [digit_char (n mod 10)]. rewrite Z.mod_small by lia.
    split; [reflexivity|]. split; [discriminate|].
    split; [constructor; [apply digit_char_isdigit; lia|constructor]|].
    intros a. cbn. rewrite digit_val_digit_char by lia. lia.
  - rewrite dec_digits_S. destruct (n <? 10) eqn:E.
    + apply Z.ltb_lt in E. exists [digit_char (n mod 10)].
      rewrite Z.mod_small by lia.
      split; [reflexivity|]. split; [discriminate|].
      split; [constructor; [apply digit_char_isdigit; lia|constructor]|].
      intros a. cbn. rewrite digit_val_digit_char by lia. lia.
    + apply Z.ltb_ge in E.
      assert (Hdiv : 0 <= n / 10 < 2 ^ Z.of_nat (S fuel)).
      { split; [apply Z.div_pos; lia|].
        apply Z.div_lt_upper_bound; [lia|].
        rewrite (Nat2Z.inj_succ (S fuel)), Z.pow_succ_r in Hn by lia. lia. }
      destruct (IH (n / 10) (digit_char (n mod 10) :: acc) Hdiv)
        as (ds & Heq & _ & Hds & Hval).
      exists (ds ++ [digit_char (n mod 10)]).
      pose proof (Z.mod_pos_bound n 10 ltac:(lia)) as Hm.
      split; [rewrite Heq, <- app_assoc; reflexivity|].
      split; [intros X; apply app_eq_nil in X as [_ X]; discriminate X|].
      split.
      * apply Forall_app. split; [exact Hds|].
        constructor; [apply digit_char_isdigit; lia|constructor].
      * intros a. unfold dec_value in *. rewrite fold_left_app, Hval. cbn [fold_left].
        rewrite digit_val_digit_char by lia.
        rewrite length_app. cbn [length].
        rewrite Nat2Z.inj_add, Z.pow_add_r by lia.
        change (10 ^ Z.of_nat 1) with 10.
        pose proof (Z.div_mod n 10 ltac:(lia)). lia.
Qed.

Lemma to_string_unsigned_spec n :
  0 <= n ->
  exists ds, to_string_unsigned n = ds
    /\ ds <> []
    /\ Forall (fun c => isdigit c = true) ds
    /\ dec_value ds 0 = n.
Proof.
  intros Hn. unfold to_string_unsigned.
  destruct (dec_digits_spec (Z.to_nat (Z.log2 n)) n []) as (ds & Heq & Hne & Hds & Hval).
  - split; [assumption|]. rewrite Nat2Z.inj_succ, Z2Nat.id by apply Z.log2_nonneg.
    destruct (Z.eq_dec n 0) as [->|Hz]; [reflexivity|].
    apply Z.log2_spec. lia.
  - exists ds. rewrite Heq, app_nil_r. repeat split; try assumption.
    rewrite Hval. lia.
Qed.

Lemma parse_dec_digits ds a :
  Forall (fun c => isdigit c = true) ds -> parse_dec ds a = dec_value ds a.
Proof.
  intros H. revert a. induction H as [|c ds Hc _ IH]; intros a; [reflexivity|].
  cbn [parse_dec]. rewrite Hc. apply IH.
Qed.

Lemma digit_not_space_or_sign c :
  isdigit c = true ->
  isspace c = false /\ Ascii.eqb c "-" = false /\ Ascii.eqb c "+" = false.
Proof.
  destruct c as [[] [] [] [] [] [] [] []]; vm_compute; intros H;
    first [discriminate H | repeat split].
Qed.

Lemma stol_digits ds :
  ds <> [] -> Forall (fun c => isdigit c = true) ds ->
  in_long (dec_value ds 0) = true ->
  stol ds = Ok (dec_value ds 0).
Proof.
  intros Hne Hds Hr. destruct ds as [|c ds]; [congruence|].
  pose proof (Forall_inv Hds) as Hc.
  destruct (digit_not_space_or_sign c Hc) as (Hs & Hm & Hp).
  unfold stol. cbn [skip_spaces]. rewrite Hs. unfold read_sign. rewrite Hm, Hp, Hc.
  rewrite parse_dec_digits by assumption. rewrite Hr. reflexivity.
Qed.

Lemma stol_minus_digits ds :
  ds <> [] -> Forall (fun c => isdigit c = true) ds ->
  in_long (- dec_value ds 0) = true ->
  stol ("-"%char :: ds) = Ok (- dec_value ds 0).
Proof.
  intros Hne Hds Hr. destruct ds as [|c ds]; [congruence|].
  pose proof (Forall_inv Hds) as Hc.
  unfold stol. cbn [skip_spaces].
  change (isspace "-") with false. cbn [read_sign].
  change (Ascii.eqb "-" "-") with true. cbv iota. rewrite Hc.
  rewrite parse_dec_digits by assumption. rewrite Hr. reflexivity.
Qed.

Lemma stol_to_string z : in_long z = true -> stol (to_string z) = Ok z.
Proof.
  intros Hz. unfold to_string. destruct (z <? 0) eqn:E.
  - apply Z.ltb_lt in E.
    destruct (to_string_unsigned_spec (- z)) as (ds & -> & Hne & Hds & Hval); [lia|].
    rewrite stol_minus_digits by (rewrite ?Hval, ?Z.opp_involutive; assumption).
    rewrite Hval. f_equal. lia.
  - apply Z.ltb_ge in E.
    destruct (to_string_unsigned_spec z) as (ds & -> & Hne & Hds & Hval); [lia|].
    rewrite stol_digits by (rewrite ?Hval; assumption).
    rewrite Hval. reflexivity.
Qed.

End Decimal.

Example stol_rejects_garbage : stol (str "12ab") = Ok 12 /\ stol (str "x") = Fault InvalidArgument.
Proof. split; reflexivity. Qed.

(** ** Persistence: what [saveToFile] writes, [loadFromFile] reads back *)

Section Persistence.
Import PassVault.
Local Open Scope vault_scope.

Lemma hex_plain c : is_lower_hex c = true -> plain c.
Proof.
  destruct c as [[] [] [] [] [] [] [] []]; vm_compute; intros H;
    first [discriminate H | split; reflexivity].
Qed.

Lemma digit_plain c : isdigit c = true -> plain c.
Proof.
  destruct c as [[] [] [] [] [] [] [] []]; vm_compute; intros H;
    first [discriminate H | split; reflexivity].
Qed.

Lemma to_string_plain z : Forall plain (to_string z).
Proof.
  unfold to_string. destruct (z <? 0) eqn:E.
  - apply Z.ltb_lt in E.
    destruct (to_string_unsigned_spec (- z)) as (ds & -> & _ & Hds & _); [lia|].
    constructor; [split; reflexivity|].
    eapply Forall_impl; [exact Hds|]. intros c. apply digit_plain.
  - apply Z.ltb_ge in E.
    destruct (to_string_unsigned_spec z) as (ds & -> & _ & Hds & _); [lia|].
    eapply Forall_impl; [exact Hds|]. intros c. apply digit_plain.
Qed.

Lemma split_delim_found d xs rest :
  Forall (fun c => Ascii.eqb c d = false) xs ->
  split_delim d (xs ++ d :: rest) = (xs, Some rest).
Proof.
  induction 1 as [|c xs Hc _ IH]; cbn [split_delim app].
  - rewrite Ascii.eqb_refl. reflexivity.
  - rewrite Hc, IH. reflexivity.
Qed.

Lemma split_delim_end d xs :
  Forall (fun c => Ascii.eqb c d = false) xs -> split_delim d xs = (xs, None).
Proof.
  induction 1 as [|c xs Hc _ IH]; cbn [split_delim]; [reflexivity|].
  rewrite Hc, IH. reflexivity.
Qed.

Lemma getline_field xs rest temp :
  Forall plain xs ->
  getline (open_stream (xs ++ "|"%char :: rest)) temp "|" = (open_stream rest, xs).
Proof.
  intros H. unfold getline, open_stream. cbn [eofbit failbit buf orb].
  rewrite split_delim_found; [reflexivity|].
  eapply Forall_impl; [exact H|]. intros c [Hc _]. exact Hc.
Qed.

Lemma getline_last xs temp :
  Forall plain xs ->
  snd (getline (open_stream xs) temp "|") = xs.
Proof.
  intros H. unfold getline, open_stream. cbn [eofbit failbit buf orb].
  rewrite split_delim_end; [reflexivity|].
  eapply Forall_impl; [exact H|]. intros c [Hc _]. exact Hc.
Qed.

Lemma plain_no_newline xs : Forall plain xs -> Forall no_newline xs.
Proof. intros H. eapply Forall_impl; [exact H|]. intros c [_ Hc]. exact Hc. Qed.

Lemma getline_record xs rest temp :
  Forall no_newline xs ->
  getline (open_stream (xs ++ newline :: rest)) temp newline = (open_stream rest, xs).
Proof.
  intros H. unfold getline, open_stream. cbn [eofbit failbit buf orb].
  rewrite split_delim_found; [reflexivity|]. exact H.
Qed.

(** Whatever the key, a field that [encrypt] accepted is given back by
    [decrypt], and its ciphertext is made of hexadecimal digits. *)
Lemma encrypt_with_inverse sec data h :
  encrypt_with sec data = Ok h ->
  decrypt_with sec h = Ok data /\ Forall plain h.
Proof.
  destruct sec as [[k]|]; [|discriminate].
  unfold encrypt_with, decrypt_with, SecurityManager.encrypt, SecurityManager.decrypt,
    SecurityManager.xorEncrypt, SecurityManager.xorDecrypt. cbn [SecurityManager.key].
  destruct (SecurityManager.xor_loop data k) as [r|] eqn:E; [|discriminate].
  cbn [rbind]. intros [= <-]. split.
  - rewrite fromHex_toHex. destruct k as [|kc k].
    + destruct data; [|discriminate E]. injection E as <-. reflexivity.
    + rewrite xor_loop_nonempty_key in E by discriminate. injection E as <-.
      rewrite xor_loop_nonempty_key by discriminate.
      rewrite imap_involutive by apply xor_at_involutive. reflexivity.
  - eapply Forall_impl; [apply toHex_alphabet|]. intros c. apply hex_plain.
Qed.

Lemma write_entry_read_back sec e l :
  time_t_entry e ->
  write_entry sec e = Ok l ->
  exists body, l = body ++ [newline]
    /\ Forall no_newline body
    /\ parse_line sec body = Ok e.
Proof.
  intros [Hc Hm]. unfold write_entry.
  destruct (encrypt_with sec (id e)) as [f1|] eqn:E1; [|discriminate].
  destruct (encrypt_with sec (website e)) as [f2|] eqn:E2; [|discriminate].
  destruct (encrypt_with sec (username e)) as [f3|] eqn:E3; [|discriminate].
  destruct (encrypt_with sec (password e)) as [f4|] eqn:E4; [|discriminate].
  destruct (encrypt_with sec (category e)) as [f5|] eqn:E5; [|discriminate].
  destruct (encrypt_with sec (notes e)) as [f6|] eqn:E6; [|discriminate].
  apply encrypt_with_inverse in E1 as [D1 P1], E2 as [D2 P2], E3 as [D3 P3],
    E4 as [D4 P4], E5 as [D5 P5], E6 as [D6 P6].
  pose proof (to_string_plain (createdAt e)) as P7.
  pose proof (to_string_plain (lastModified e)) as P8.
  cbn [rbind bar app]. intros [= <-].
  exists (f1 ++ "|"%char :: f2 ++ "|"%char :: f3 ++ "|"%char :: f4 ++ "|"%char
          :: f5 ++ "|"%char :: f6 ++ "|"%char :: to_string (createdAt e)
          ++ "|"%char :: to_string (lastModified e)).
  split; [|split].
  - repeat (rewrite <- app_assoc; cbn [app]). reflexivity.
  - repeat first [apply Forall_app; split | apply Forall_cons; split
                 | apply plain_no_newline; assumption | reflexivity].
  - unfold parse_line.
    rewrite getline_field by assumption. cbv iota beta. rewrite D1. cbn [rbind].
    rewrite getline_field by assumption. cbv iota beta. rewrite D2. cbn [rbind].
    rewrite getline_field by assumption. cbv iota beta. rewrite D3. cbn [rbind].
    rewrite getline_field by assumption. cbv iota beta. rewrite D4. cbn [rbind].
    rewrite getline_field by assumption. cbv iota beta. rewrite D5. cbn [rbind].
    rewrite getline_field by assumption. cbv iota beta. rewrite D6. cbn [rbind].
    rewrite getline_field by assumption. cbv iota beta.
    rewrite stol_to_string by assumption. cbn [rbind].
    pose proof (getline_last (to_string (lastModified e)) (to_string (createdAt e)) P8)
      as Hlast.
    destruct (getline _ _ _) as [ss temp]. cbn [snd] in Hlast. subst temp.
    rewrite stol_to_string by assumption. cbn [rbind].
    destruct e; reflexivity.
Qed.

Lemma write_entries_length sec es data :
  write_entries sec es = Ok data -> (length es <= length data)%nat.
Proof.
  revert data. induction es as [|e es IH]; intros data; cbn [write_entries].
  - intros [= <-]. reflexivity.
  - destruct (write_entry sec e) as [l|] eqn:El; [|discriminate].
    destruct (write_entries sec es) as [r|] eqn:Er; [|discriminate].
    cbn [rbind]. intros [= <-]. specialize (IH r eq_refl).
    assert (length l <> 0)%nat.
    { unfold write_entry in El.
      repeat (destruct (encrypt_with _ _); [|discriminate]).
      cbn [rbind] in El. injection El as <-.
      rewrite !length_app. cbn [length]. lia. }
    rewrite length_app. cbn [length]. lia.
Qed.

Lemma read_lines_written sec es :
  Forall time_t_entry es ->
  forall data line acc fuel,
    write_entries sec es = Ok data ->
    (length es < fuel)%nat ->
    read_lines fuel sec (open_stream data) line acc = Ok (acc ++ es).
Proof.
  induction 1 as [|e es He _ IH]; intros data line acc fuel Hw Hf.
  - injection Hw as <-. destruct fuel as [|fuel]; [cbn in Hf; lia|].
    cbn. rewrite app_nil_r. reflexivity.
  - cbn [write_entries] in Hw.
    destruct (write_entry sec e) as [l|] eqn:El; [|discriminate].
    destruct (write_entries sec es) as [r|] eqn:Er; [|discriminate].
    cbn [rbind] in Hw. injection Hw as <-.
    destruct (write_entry_read_back sec e l He El) as (body & -> & Hb & Hp).
    destruct fuel as [|fuel]; [cbn in Hf; lia|].
    cbn [read_lines]. rewrite <- app_assoc. cbn [app].
    rewrite getline_record by assumption. cbn [failbit open_stream].
    rewrite Hp. cbn [rbind].
    fold (open_stream r). rewrite (IH r body (acc ++ [e]) fuel eq_refl).
    + rewrite <- app_assoc. reflexivity.
    + cbn [length] in Hf. lia.
Qed.

Lemma saveToFile_true s s1 :
  saveToFile s = Ok (true, s1) ->
  exists data,
    write_entries (security (vault s)) (entries (vault s)) = Ok data
    /\ disk (world s1) = Some data.
Proof.
  unfold saveToFile, bind, get_world, get_vault, lift, update_world, ret.
  destruct (writable (world s)); [|discriminate].
  destruct (write_entries _ _) as [data|]; [|discriminate].
  intros [= <-]. exists data. split; reflexivity.
Qed.

Lemma loadFromFile_written sL es data :
  Forall time_t_entry es ->
  write_entries (security (vault sL)) es = Ok data ->
  disk (world sL) = Some data ->
  exists s2, loadFromFile sL = Ok (true, s2) /\ entries (vault s2) = es.
Proof.
  intros Hes Hw Hd.
  unfold loadFromFile, bind, get_world, get_vault, lift, update_world, update_vault, ret.
  rewrite Hd. cbn [vault world set_entries security].
  rewrite (read_lines_written _ es Hes data [] []) by
    (try assumption; pose proof (write_entries_length _ _ _ Hw); lia).
  eexists. split; reflexivity.
Qed.

(** The fuel of [loadFromFile] is never exhausted, whatever the file holds. *)

Lemma rbind_fuel {A B} (r : result A) (k : A -> result B) :
  r <> Fault OutOfFuel -> (forall a, k a <> Fault OutOfFuel) ->
  rbind r k <> Fault OutOfFuel.
Proof.
  intros Hr Hk. destruct r as [a|f]; [apply Hk|].
  cbn [rbind]. intros [= ->]. apply Hr. reflexivity.
Qed.

Lemma decrypt_with_fuel sec h : decrypt_with sec h <> Fault OutOfFuel.
Proof.
  destruct sec as [[k]|]; [|discriminate].
  unfold decrypt_with, SecurityManager.decrypt, SecurityManager.xorDecrypt,
    SecurityManager.xor_loop.
  destruct (SecurityManager.fromHex h), (SecurityManager.key _); discriminate.
Qed.

Lemma stol_fuel s : stol s <> Fault OutOfFuel.
Proof.
  unfold stol. destruct (read_sign (skip_spaces s)) as [neg [|c s']]; [discriminate|].
  destruct (isdigit c); [|discriminate].
  destruct (in_long _); discriminate.
Qed.

Lemma parse_line_fuel sec line : parse_line sec line <> Fault OutOfFuel.
Proof.
  unfold parse_line.
  repeat first
    [ apply rbind_fuel; [first [apply decrypt_with_fuel | apply stol_fuel]|intros ?]
    | match goal with
      | |- (let '(_, _) := ?x in _) <> _ => destruct x
      end ].
  discriminate.
Qed.

Lemma split_delim_shorter d s l r :
  split_delim d s = (l, Some r) -> (length r < length s)%nat.
Proof.
  revert l. induction s as [|c s IH]; intros l; cbn [split_delim]; [discriminate|].
  destruct (Ascii.eqb c d).
  - intros [= _ <-]. cbn [length]. lia.
  - destruct (split_delim d s) as [l' [r'|]]; [|discriminate].
    intros [= _ <-]. specialize (IH l' eq_refl). cbn [length]. lia.
Qed.

Lemma read_lines_fuel fuel sec file line acc :
  (if eofbit file || failbit file then 1 <= fuel
   else length (buf file) + 2 <= fuel)%nat ->
  read_lines fuel sec file line acc <> Fault OutOfFuel.
Proof.
  revert file line acc. induction fuel as [|fuel IH]; intros file line acc Hf.
  - destruct (eofbit file || failbit file); lia.
  - cbn [read_lines]. unfold getline.
    destruct (eofbit file || failbit file); [discriminate|].
    destruct (split_delim newline (buf file)) as [l [r|]] eqn:E; cbn [failbit].
    + apply rbind_fuel; [apply parse_line_fuel|]. intros e. apply IH.
      cbn [eofbit failbit buf orb]. apply split_delim_shorter in E. lia.
    + destruct l; [discriminate|].
      apply rbind_fuel; [apply parse_line_fuel|]. intros e. apply IH.
      cbn [eofbit failbit buf orb]. lia.
Qed.

Lemma loadFromFile_fuel s : loadFromFile s <> Fault OutOfFuel.
Proof.
  unfold loadFromFile, bind, get_world, get_vault, lift, update_world, update_vault, ret.
  destruct (disk (world s)) as [content|]; [|discriminate].
  cbn [vault world set_entries security].
  pose proof (read_lines_fuel (length content + 2) (security (vault s))
    (open_stream content) [] []) as H.
  destruct (read_lines _ _ _ _ _) as [es|f]; [discriminate|].
  intros [= ->]. apply H; [|reflexivity].
  cbn [open_stream eofbit failbit buf orb]. lia.
Qed.

End Persistence.

(** C2. When [saveToFile] returns true, [loadFromFile] run with the same
    key on the file it wrote returns true and rebuilds the entry set that
    was saved: as many entries, in the same order, equal field by field. *)
Theorem C2_save_then_load_restores_entries (s s1 sL : PassVault.State) :
  Forall time_t_entry (PassVault.entries (PassVault.vault s)) ->
  PassVault.saveToFile s = Ok (true, s1) ->
  PassVault.security (PassVault.vault sL) = PassVault.security (PassVault.vault s) ->
  PassVault.disk (PassVault.world sL) = PassVault.disk (PassVault.world s1) ->
  exists s2,
    PassVault.loadFromFile sL = Ok (true, s2)
    /\ PassVault.entries (PassVault.vault s2) = PassVault.entries (PassVault.vault s).
Proof.
  intros Hes Hsave Hsec Hdisk.
  destruct (saveToFile_true s s1 Hsave) as (data & Hw & Hd).
  apply (loadFromFile_written sL _ data Hes).
  - rewrite Hsec. exact Hw.
  - rewrite Hdisk. exact Hd.
Qed.

Lemma C2_save_then_load_restores_entries_witness :
  let s := Sample.open_state Sample.still_world in
  let s1 := after [PassVault.SaveToFile] s in
  let sL := {| PassVault.vault := PassVault.set_entries [] (PassVault.vault s);
               PassVault.world := PassVault.world s1 |} in
  Forall time_t_entry (PassVault.entries (PassVault.vault s))
  /\ PassVault.saveToFile s = Ok (true, s1)
  /\ PassVault.security (PassVault.vault sL) = PassVault.security (PassVault.vault s)
  /\ PassVault.disk (PassVault.world sL) = PassVault.disk (PassVault.world s1)
  /\ exists s2,
       PassVault.loadFromFile sL = Ok (true, s2)
       /\ PassVault.entries (PassVault.vault s2) = PassVault.entries (PassVault.vault s).
Proof.
  intros s s1 sL.
  assert (H1 : Forall time_t_entry (PassVault.entries (PassVault.vault s)))
    by (repeat constructor).
  assert (H2 : PassVault.saveToFile s = Ok (true, s1)) by (vm_compute; reflexivity).
  assert (H3 : PassVault.security (PassVault.vault sL)
               = PassVault.security (PassVault.vault s)) by reflexivity.
  assert (H4 : PassVault.disk (PassVault.world sL) = PassVault.disk (PassVault.world s1))
    by reflexivity.
  split; [exact H1|]. split; [exact H2|]. split; [exact H3|]. split; [exact H4|].
  exact (C2_save_then_load_restores_entries s s1 sL H1 H2 H3 H4).
Defined.

(** ** Sample runs *)

Example search_is_case_insensitive_on_website :
  exists s', PassVault.searchEntries (str "github") (Sample.open_state Sample.still_world)
    = Ok ([Sample.stored 1 Sample.github], s').
Proof. eexists. vm_compute. reflexivity. Qed.

Example search_upper_query_finds_lower_category :
  exists s', PassVault.searchEntries (str "MONEY") (Sample.open_state Sample.still_world)
    = Ok ([Sample.stored 2 Sample.bank], s').
Proof. eexists. vm_compute. reflexivity. Qed.

Example auto_lock_after_idle_hour :
  let s := Sample.open_state (PassVault.set_ticks 1 Sample.hourly_world) in
  exists s', PassVault.getAllEntries s = Ok ([], s')
    /\ PassVault.isLocked (PassVault.vault s') = true.
Proof. eexists. split; vm_compute; reflexivity. Qed.

Example delete_removes_every_entry_with_the_id :
  let s0 := PassVault.make (str "passvault.dat") Sample.still_world in
  let s := after [PassVault.Initialize (str "hunter22");
                  PassVault.AddEntry Sample.github;
                  PassVault.AddEntry Sample.bank;
                  PassVault.DeleteEntry (str "170000000042")] s0 in
  PassVault.entries (PassVault.vault s) = [].
Proof. vm_compute. reflexivity. Qed.


(** * Further properties of the code *)

(** ** The codec beyond the round trip *)

Section CodecMore.
Import SecurityManager.

Lemma lower_hex_is_digit c :
  is_lower_hex c = true ->
  exists d, (0 <=? d) && (d <? 16) = true /\ c = hex_digit d.
Proof.
  intros H. exists (match hex_val c with Some d => d | None => 0 end).
  revert H. destruct c as [[] [] [] [] [] [] [] []]; vm_compute; intros H;
    first [discriminate H | split; reflexivity].
Qed.

Lemma hex_pair_encodes a b :
  is_lower_hex a = true -> is_lower_hex b = true ->
  toHex [to_char (strtol16 [a; b])] = [a; b].
Proof.
  intros Ha Hb.
  destruct (lower_hex_is_digit a Ha) as (d1 & B1 & ->).
  destruct (lower_hex_is_digit b Hb) as (d2 & B2 & ->).
  apply andb_true_iff in B1 as [L1 U1], B2 as [L2 U2].
  apply Z.leb_le in L1, L2. apply Z.ltb_lt in U1, U2.
  set (c := to_char (16 * d1 + d2)).
  assert (Hc : byte_val c = 16 * d1 + d2).
  { unfold c. rewrite byte_val_to_char. apply Z.mod_small. lia. }
  assert (Hq : byte_val c / 16 = d1).
  { rewrite Hc. symmetry. apply (Z.div_unique _ 16 d1 d2); lia. }
  assert (Hr : byte_val c mod 16 = d2).
  { rewrite Hc. symmetry. apply (Z.mod_unique _ 16 d1 d2); lia. }
  pose proof (hex_pair_decodes c) as Hd. rewrite Hq, Hr in Hd.
  rewrite Hd. unfold toHex. cbn [flat_map app]. rewrite Hq, Hr. reflexivity.
Qed.

Lemma toHex_cons c data :
  toHex (c :: data) =
  hex_digit (byte_val c / 16) :: hex_digit (byte_val c mod 16) :: toHex data.
Proof. reflexivity. Qed.

Lemma toHex_fromHex_pairs n : forall h,
  length h = (2 * n)%nat ->
  Forall (fun c => is_lower_hex c = true) h ->
  toHex (fromHex h) = h /\ length (fromHex h) = n.
Proof.
  induction n as [|n IH]; intros h Hlen Hh.
  - destruct h; [split; reflexivity|discriminate].
  - destruct h as [|a [|b h]]; try (cbn in Hlen; lia).
    pose proof (Forall_inv Hh) as Ha.
    pose proof (Forall_inv (Forall_inv_tail Hh)) as Hb.
    pose proof (Forall_inv_tail (Forall_inv_tail Hh)) as Ht.
    destruct (IH h) as [IH1 IH2]; [cbn in Hlen; lia|exact Ht|].
    cbn [fromHex]. rewrite toHex_cons.
    pose proof (hex_pair_encodes a b Ha Hb) as Hp.
    rewrite toHex_cons in Hp. cbn [toHex flat_map app] in Hp.
    injection Hp as -> ->. rewrite IH1. cbn [length]. rewrite IH2.
    split; reflexivity.
Qed.

Lemma fromHex_length_pairs n : forall h,
  (length h <= 2 * n)%nat -> length (fromHex h) = Nat.div2 (S (length h)).
Proof.
  induction n as [|n IH]; intros h Hlen.
  - destruct h; [reflexivity|cbn in Hlen; lia].
  - destruct h as [|a [|b h]]; try reflexivity.
    cbn [fromHex length]. rewrite IH by (cbn in Hlen; lia). reflexivity.
Qed.

Lemma decrypt_make mp h :
  decrypt (make mp) h = Ok (imap (xor_at (hashPassword mp)) (fromHex h)).
Proof.
  unfold decrypt, xorDecrypt. cbn [key make].
  apply xor_loop_nonempty_key, hashPassword_nonempty.
Qed.

Lemma hash_step_range h c : 0 <= hash_step h c < 2 ^ 64.
Proof. unfold hash_step. apply Z.mod_pos_bound. lia. Qed.

Lemma hash_fold_range p : forall h,
  0 <= h < 2 ^ 64 -> 0 <= fold_left hash_step p h < 2 ^ 64.
Proof.
  induction p as [|c p IH]; intros h Hh; [exact Hh|].
  cbn [fold_left]. apply IH, hash_step_range.
Qed.

Lemma hash_step_arith h c : hash_step h c = (33 * h + char_val c) mod 2 ^ 64.
Proof. unfold hash_step. rewrite Z.shiftl_mul_pow2 by lia. f_equal. lia. Qed.

Lemma hash_two_steps h c1 c2 :
  hash_step (hash_step h c1) c2
  = (33 * (33 * h) + (33 * char_val c1 + char_val c2)) mod 2 ^ 64.
Proof.
  rewrite (hash_step_arith _ c2), (hash_step_arith h c1).
  rewrite <- Zplus_mod_idemp_l, Zmult_mod_idemp_r, Zplus_mod_idemp_l.
  f_equal. lia.
Qed.

Lemma dec_digits_size fuel : forall n acc,
  0 <= n < 2 ^ Z.of_nat (S fuel) ->
  exists ds, dec_digits (S fuel) n acc = ds ++ acc
    /\ (1 <= length ds)%nat
    /\ (length ds = 1%nat \/ 10 ^ (Z.of_nat (length ds) - 1) <= n).
Proof.
  induction fuel as [|fuel IH]; intros n acc Hn.
  - change (2 ^ Z.of_nat 1) with 2 in Hn. rewrite dec_digits_S.
    rewrite (proj2 (Z.ltb_lt n 10)) by lia.
    exists [digit_char (n mod 10)].
    split; [reflexivity|]. split; [reflexivity|left; reflexivity].
  - rewrite dec_digits_S. destruct (n <? 10) eqn:E.
    + exists [digit_char (n mod 10)].
      split; [reflexivity|]. split; [reflexivity|left; reflexivity].
    + apply Z.ltb_ge in E.
      assert (Hdiv : 0 <= n / 10 < 2 ^ Z.of_nat (S fuel)).
      { split; [apply Z.div_pos; lia|].
        apply Z.div_lt_upper_bound; [lia|].
        rewrite (Nat2Z.inj_succ (S fuel)), Z.pow_succ_r in Hn by lia. lia. }
      destruct (IH (n / 10) (digit_char (n mod 10) :: acc) Hdiv)
        as (ds & Heq & Hpos & Hsz).
      exists (ds ++ [digit_char (n mod 10)]).
      split; [rewrite Heq, <- app_assoc; reflexivity|].
      rewrite length_app. cbn [length]. split; [lia|]. right.
      replace (Z.of_nat (length ds + 1) - 1) with (Z.of_nat (length ds)) by lia.
      pose proof (Z.div_mod n 10 ltac:(lia)) as Hdm.
      pose proof (Z.mod_pos_bound n 10 ltac:(lia)) as Hm.
      destruct Hsz as [H1 | Hge].
      * rewrite H1. change (10 ^ Z.of_nat 1) with 10. lia.
      * replace (Z.of_nat (length ds)) with (Z.succ (Z.of_nat (length ds) - 1)) by lia.
        rewrite Z.pow_succ_r by lia. lia.
Qed.

Lemma to_string_unsigned_size n :
  0 <= n < 2 ^ 64 -> (1 <= length (to_string_unsigned n) <= 20)%nat.
Proof.
  intros Hn. unfold to_string_unsigned.
  assert (Hf : 0 <= n < 2 ^ Z.of_nat (S (Z.to_nat (Z.log2 n)))).
  { split; [lia|]. rewrite Nat2Z.inj_succ, Z2Nat.id by apply Z.log2_nonneg.
    destruct (Z.eq_dec n 0) as [->|Hz]; [reflexivity|]. apply Z.log2_spec. lia. }
  destruct (dec_digits_size _ n [] Hf) as (ds & -> & Hpos & Hsz). rewrite app_nil_r.
  split; [exact Hpos|].
  destruct Hsz as [-> | Hge]; [lia|].
  destruct (le_lt_dec (length ds) 20) as [|Hbig]; [assumption|exfalso].
  assert (10 ^ 20 <= 10 ^ (Z.of_nat (length ds) - 1))
    by (apply Z.pow_le_mono_r; lia).
  assert (2 ^ 64 < 10 ^ 20) by reflexivity. lia.
Qed.

End CodecMore.

(** X1. Under a derived key, a ciphertext of even length over [0-9a-f]
    is the ciphertext of exactly one plaintext: [decrypt] returns a text
    half as long and [encrypt] maps that text back to the same characters. *)
Theorem X1_decrypt_then_encrypt (masterPassword h : bytes) :
  Nat.Even (length h) ->
  Forall (fun c => is_lower_hex c = true) h ->
  let sm := SecurityManager.make masterPassword in
  exists text,
    SecurityManager.decrypt sm h = Ok text
    /\ SecurityManager.encrypt sm text = Ok h
    /\ (2 * length text)%nat = length h.
Proof.
  intros [n Hn] Hh sm. subst sm.
  destruct (toHex_fromHex_pairs n h Hn Hh) as [Hth Hl].
  eexists. split; [apply decrypt_make|].
  rewrite encrypt_make, imap_involutive by apply xor_at_involutive.
  rewrite Hth, length_imap, Hl. split; [reflexivity|lia].
Qed.

Lemma X1_decrypt_then_encrypt_witness :
  Nat.Even (length (str "5e50"))
  /\ Forall (fun c => is_lower_hex c = true) (str "5e50")
  /\ exists text,
       SecurityManager.decrypt (SecurityManager.make (str "secret")) (str "5e50") = Ok text
       /\ SecurityManager.encrypt (SecurityManager.make (str "secret")) text = Ok (str "5e50")
       /\ (2 * length text)%nat = length (str "5e50").
Proof.
  assert (H1 : Nat.Even (length (str "5e50"))) by (exists 2%nat; reflexivity).
  assert (H2 : Forall (fun c => is_lower_hex c = true) (str "5e50"))
    by (repeat constructor).
  split; [exact H1|]. split; [exact H2|].
  exact (X1_decrypt_then_encrypt (str "secret") (str "5e50") H1 H2).
Defined.

(** X2. Under a derived key [decrypt] accepts every string, well formed
    or not: it never fails and returns one byte for every two characters,
    plus one for an odd last character. *)
Theorem X2_decrypt_accepts_everything (masterPassword h : bytes) :
  exists text,
    SecurityManager.decrypt (SecurityManager.make masterPassword) h = Ok text
    /\ length text = Nat.div2 (S (length h)).
Proof.
  eexists. split; [apply decrypt_make|].
  rewrite length_imap. apply (fromHex_length_pairs (length h)). lia.
Qed.

(** X3. The key derived from any passphrase is a string of decimal
    digits, at least one and at most twenty of them. *)
Theorem X3_key_is_short_decimal (masterPassword : bytes) :
  let k := SecurityManager.key (SecurityManager.make masterPassword) in
  Forall (fun c => isdigit c = true) k /\ (1 <= length k <= 20)%nat.
Proof.
  intros k. subst k. cbn [SecurityManager.key SecurityManager.make].
  unfold SecurityManager.hashPassword.
  pose proof (hash_fold_range masterPassword 5381 ltac:(lia)) as Hr.
  split.
  - destruct (to_string_unsigned_spec _ (proj1 Hr)) as (ds & -> & _ & Hds & _).
    exact Hds.
  - apply to_string_unsigned_size, Hr.
Qed.

(** X4. Key derivation is not injective: raising one character by one and
    lowering the next by 33, anywhere in a passphrase of 7-bit characters,
    gives a different passphrase with the same key. *)
Theorem X4_passphrases_sharing_a_key (pre post : bytes) (c1 c2 : ascii) :
  byte_val c1 < 127 ->
  33 <= byte_val c2 <= 127 ->
  let c1' := to_char (byte_val c1 + 1) in
  let c2' := to_char (byte_val c2 - 33) in
  pre ++ [c1; c2] ++ post <> pre ++ [c1'; c2'] ++ post
  /\ SecurityManager.make (pre ++ [c1; c2] ++ post)
     = SecurityManager.make (pre ++ [c1'; c2'] ++ post).
Proof.
  intros H1 H2 c1' c2'.
  pose proof (byte_val_range c1) as R1.
  assert (B1 : byte_val c1' = byte_val c1 + 1)
    by (unfold c1'; rewrite byte_val_to_char; apply Z.mod_small; lia).
  assert (B2 : byte_val c2' = byte_val c2 - 33)
    by (unfold c2'; rewrite byte_val_to_char; apply Z.mod_small; lia).
  split.
  - intros E. apply app_inv_head in E. injection E as E _.
    rewrite E in B1 at 1. lia.
  - unfold SecurityManager.make, SecurityManager.hashPassword. do 2 f_equal.
    rewrite !fold_left_app. cbn [fold_left]. f_equal.
    rewrite !hash_two_steps. f_equal.
    unfold char_val. rewrite B1, B2.
    rewrite !(proj2 (Z.leb_gt _ _)) by lia. lia.
Qed.

Lemma X4_passphrases_sharing_a_key_witness :
  byte_val "a" < 127
  /\ 33 <= byte_val "a" <= 127
  /\ str "hunter" ++ [ "a"%char; "a"%char ] ++ []
       <> str "hunter" ++ [ to_char (byte_val "a" + 1); to_char (byte_val "a" - 33) ] ++ []
  /\ SecurityManager.make (str "hunter" ++ [ "a"%char; "a"%char ] ++ [])
     = SecurityManager.make
         (str "hunter" ++ [ to_char (byte_val "a" + 1); to_char (byte_val "a" - 33) ] ++ []).
Proof.
  assert (H1 : byte_val "a" < 127) by reflexivity.
  assert (H2 : 33 <= byte_val "a" <= 127) by (split; discriminate).
  split; [exact H1|]. split; [exact H2|].
  exact (X4_passphrases_sharing_a_key (str "hunter") [] "a" "a" H1 H2).
Defined.

(** X5. The cipher works position by position: the ciphertext of a text
    is a prefix of the ciphertext of every extension of that text. *)
Theorem X5_ciphertext_of_prefix_is_prefix (masterPassword a b : bytes) :
  let sm := SecurityManager.make masterPassword in
  exists ha t,
    SecurityManager.encrypt sm a = Ok ha
    /\ SecurityManager.encrypt sm (a ++ b) = Ok (ha ++ t)
    /\ length t = (2 * length b)%nat.
Proof.
  intros sm. subst sm. eexists _, _.
  split; [apply encrypt_make|]. rewrite encrypt_make, imap_app.
  unfold SecurityManager.toHex at 1. rewrite flat_map_app.
  split; [reflexivity|].
  fold (SecurityManager.toHex (imap (SecurityManager.xor_at
    (SecurityManager.hashPassword masterPassword) ∘ Nat.add (length a)) b)).
  rewrite toHex_length, length_imap. reflexivity.
Qed.

(** ** The analyzer and the generator *)

Section AnalyzerMore.
Import PasswordAnalyzer.

Lemma score_unfold pw :
  score (analyzePassword pw) =
  add_if (existsb ispunct pw) 10
    (add_if (existsb isdigit pw) 10
      (add_if (existsb islower pw) 15
        (add_if (existsb isupper pw) 15
          (add_if (16 <=? Z.of_nat (length pw)) 15
            (add_if (12 <=? Z.of_nat (length pw)) 15
              (add_if (8 <=? Z.of_nat (length pw)) 20 0)))))).
Proof.
  unfold analyzePassword. rewrite scan_classes. reflexivity.
Qed.

Lemma existsb_classified pw :
  pw <> [] -> Forall (fun c => classified c = true) pw ->
  existsb isupper pw || existsb islower pw || existsb isdigit pw
  || existsb ispunct pw = true.
Proof.
  intros Hne H. destruct H as [|c pw Hc _]; [congruence|].
  cbn [existsb]. unfold classified in Hc.
  destruct (isupper c), (islower c), (isdigit c), (ispunct c);
    try discriminate Hc; cbn; rewrite ?orb_true_r; reflexivity.
Qed.

Lemma score_split pw :
  score (analyzePassword pw) =
  add_if (16 <=? Z.of_nat (length pw)) 15
    (add_if (12 <=? Z.of_nat (length pw)) 15
      (add_if (8 <=? Z.of_nat (length pw)) 20 0))
  + (add_if (existsb isupper pw) 15 0 + add_if (existsb islower pw) 15 0
     + add_if (existsb isdigit pw) 10 0 + add_if (existsb ispunct pw) 10 0).
Proof.
  rewrite score_unfold. unfold add_if.
  destruct (existsb isupper pw), (existsb islower pw), (existsb isdigit pw),
    (existsb ispunct pw); lia.
Qed.

Lemma length_points_mono a b :
  a <= b ->
  add_if (16 <=? a) 15 (add_if (12 <=? a) 15 (add_if (8 <=? a) 20 0))
  <= add_if (16 <=? b) 15 (add_if (12 <=? b) 15 (add_if (8 <=? b) 20 0)).
Proof.
  intros H. unfold add_if.
  destruct (Z.leb_spec 8 a), (Z.leb_spec 12 a), (Z.leb_spec 16 a),
    (Z.leb_spec 8 b), (Z.leb_spec 12 b), (Z.leb_spec 16 b); lia.
Qed.

Lemma class_points_mono (b c : bool) n :
  0 <= n -> add_if b n 0 <= add_if (b || c) n 0 /\ add_if c n 0 <= add_if (b || c) n 0.
Proof. intros H. unfold add_if. destruct b, c; cbn; lia. Qed.

End AnalyzerMore.

(** X6. The score of [analyzePassword] lies between 0 and 100 and is a
    multiple of 5; it is 100 exactly for passwords of 16 characters or
    more that show all four classes; a password shorter than 8 characters
    never scores more than 50. *)
Theorem X6_score_range (pw : bytes) :
  let r := PasswordAnalyzer.analyzePassword pw in
  let len := Z.of_nat (length pw) in
  0 <= PasswordAnalyzer.score r <= 100
  /\ PasswordAnalyzer.score r mod 5 = 0
  /\ (PasswordAnalyzer.score r = 100 <->
        16 <= len /\ existsb isupper pw = true /\ existsb islower pw = true
        /\ existsb isdigit pw = true /\ existsb ispunct pw = true)
  /\ (len < 8 -> PasswordAnalyzer.score r <= 50).
Proof.
  intros r len. subst r. rewrite score_unfold. fold len.
  unfold PasswordAnalyzer.add_if.
  destruct (Z.leb_spec 8 len), (Z.leb_spec 12 len), (Z.leb_spec 16 len); try lia;
    destruct (existsb isupper pw), (existsb islower pw), (existsb isdigit pw),
      (existsb ispunct pw);
    (split; [lia|]); (split; [reflexivity|]); (split; [|lia]);
    (split; [intros X; first [discriminate X | repeat split; lia]
            | intros (? & ? & ? & ? & ?); first [reflexivity | discriminate | lia]]).
Qed.

(** X7. Adding characters never lowers the score: a password scores at
    least as much as each of its two parts. *)
Theorem X7_score_grows_with_the_password (p q : bytes) :
  let score x := PasswordAnalyzer.score (PasswordAnalyzer.analyzePassword x) in
  score p <= score (p ++ q) /\ score q <= score (p ++ q).
Proof.
  intros score. subst score. cbv beta. rewrite !score_split.
  rewrite !existsb_app, length_app, Nat2Z.inj_add.
  pose proof (length_points_mono (Z.of_nat (length p))
    (Z.of_nat (length p) + Z.of_nat (length q)) ltac:(lia)) as Lp.
  pose proof (length_points_mono (Z.of_nat (length q))
    (Z.of_nat (length p) + Z.of_nat (length q)) ltac:(lia)) as Lq.
  pose proof (class_points_mono (existsb isupper p) (existsb isupper q) 15 ltac:(lia)).
  pose proof (class_points_mono (existsb islower p) (existsb islower q) 15 ltac:(lia)).
  pose proof (class_points_mono (existsb isdigit p) (existsb isdigit q) 10 ltac:(lia)).
  pose proof (class_points_mono (existsb ispunct p) (existsb ispunct q) 10 ltac:(lia)).
  lia.
Qed.

(** X8. The feedback of [analyzePassword] is the single affirmative
    message exactly when the password has 12 characters or more and shows
    all four classes; otherwise it holds between one and six suggestions
    and the affirmative message is not among them. *)
Theorem X8_feedback (pw : bytes) :
  let r := PasswordAnalyzer.analyzePassword pw in
  let complete :=
    (12 <=? Z.of_nat (length pw)) && existsb isupper pw && existsb islower pw
    && existsb isdigit pw && existsb ispunct pw in
  let excellent := str "✓ Excellent password!" in
  if complete then PasswordAnalyzer.feedback r = [excellent]
  else ~ In excellent (PasswordAnalyzer.feedback r)
       /\ (1 <= length (PasswordAnalyzer.feedback r) <= 6)%nat.
Proof.
  intros r complete excellent. subst r complete excellent.
  unfold PasswordAnalyzer.analyzePassword. rewrite scan_classes.
  cbn [PasswordAnalyzer.feedback PasswordAnalyzer.hasUpper PasswordAnalyzer.hasLower
       PasswordAnalyzer.hasDigit PasswordAnalyzer.hasSpecial].
  set (len := Z.of_nat (length pw)).
  destruct (Z.leb_spec 12 len), (Z.ltb_spec len 12), (Z.ltb_spec len 8); try lia;
    destruct (existsb isupper pw), (existsb islower pw), (existsb isdigit pw),
      (existsb ispunct pw); cbn [andb negb PasswordAnalyzer.push_if app];
    first [ reflexivity
          | split; [|cbn [length]; lia];
            intros X; cbn [In] in X;
            repeat (destruct X as [X|X]; [vm_compute in X; discriminate X|]);
            exact X ].
Qed.

Section GeneratorMore.
Import PasswordGenerator.

Lemma charset_pools u l d s :
  charset u l d s =
  if u || l || d || s
  then (if u then upper_pool else []) ++ (if l then lower_pool else [])
       ++ (if d then digit_pool else []) ++ (if s then special_pool else [])
  else lower_pool.
Proof. destruct u, l, d, s; reflexivity. Qed.

Lemma charset_classified u l d s :
  Forall (fun c => classified c = true) (charset u l d s).
Proof.
  apply List.Forall_forall, forallb_forall.
  destruct u, l, d, s; reflexivity.
Qed.

Lemma charset_nonempty u l d s : (10 <= length (charset u l d s))%nat.
Proof. apply Nat.leb_le. destruct u, l, d, s; reflexivity. Qed.

Lemma generate_length dis n u l d s :
  length (generate dis n u l d s) = Z.to_nat n.
Proof. unfold generate. rewrite length_map, length_seq. reflexivity. Qed.

Lemma generate_chars dis n u l d s :
  in_bounds dis (charset u l d s) ->
  Forall (fun c => In c (charset u l d s)) (generate dis n u l d s).
Proof.
  intros Hb. unfold generate. apply List.Forall_forall. intros c Hc.
  apply in_map_iff in Hc as (i & <- & _).
  apply nth_In. specialize (Hb i). lia.
Qed.

End GeneratorMore.

(** X9. [generate] returns as many characters as asked for, none for a
    length of zero or less; when the draws stay within the bounds the
    distribution was built with, every character comes from the pool of a
    selected class, and from the lowercase pool when no class is selected. *)
Theorem X9_generate_alphabet (dis : nat -> Z) (n : Z) (u l d s : bool) :
  PasswordGenerator.in_bounds dis (PasswordGenerator.charset u l d s) ->
  let pw := PasswordGenerator.generate dis n u l d s in
  length pw = Z.to_nat n
  /\ Forall (fun c =>
       (u = true /\ In c PasswordGenerator.upper_pool)
       \/ (l = true /\ In c PasswordGenerator.lower_pool)
       \/ (d = true /\ In c PasswordGenerator.digit_pool)
       \/ (s = true /\ In c PasswordGenerator.special_pool)
       \/ (u || l || d || s = false /\ In c PasswordGenerator.lower_pool)) pw.
Proof.
  intros Hb pw. split; [apply generate_length|].
  pose proof (generate_chars dis n u l d s Hb) as Hc.
  eapply Forall_impl; [exact Hc|]. intros c Hin. cbv beta in Hin.
  rewrite charset_pools in Hin.
  destruct (u || l || d || s) eqn:E; [|do 4 right; split; [reflexivity|exact Hin]].
  rewrite !in_app_iff in Hin.
  destruct Hin as [H|[H|[H|H]]].
  - destruct u; [left; split; [reflexivity|exact H]|destruct H].
  - destruct l; [right; left; split; [reflexivity|exact H]|destruct H].
  - destruct d; [do 2 right; left; split; [reflexivity|exact H]|destruct H].
  - destruct s; [do 3 right; left; split; [reflexivity|exact H]|destruct H].
Qed.

Lemma X9_generate_alphabet_witness :
  PasswordGenerator.in_bounds (fun _ => 3) (PasswordGenerator.charset false false true false)
  /\ length (PasswordGenerator.generate (fun _ => 3) 8 false false true false) = 8%nat.
Proof.
  assert (H : PasswordGenerator.in_bounds (fun _ => 3)
                (PasswordGenerator.charset false false true false))
    by (intros i; vm_compute; split; discriminate).
  split; [exact H|].
  exact (proj1 (X9_generate_alphabet (fun _ => 3) 8 false false true false H)).
Defined.

(** X10. A generated password is rewarded for its length and for at least
    one class: with in-bounds draws, 8 characters or more score at least
    30, and 16 or more at least 60, so that the health report never counts
    such a password as weak; the length menu option 4 passes on lies
    between 8 and 32. *)
Theorem X10_generated_password_score (dis : nat -> Z) (n : Z) (u l d s : bool) :
  PasswordGenerator.in_bounds dis (PasswordGenerator.charset u l d s) ->
  let score len := PasswordAnalyzer.score (PasswordAnalyzer.analyzePassword
                     (PasswordGenerator.generate dis len u l d s)) in
  (8 <= n -> 30 <= score n)
  /\ (16 <= n -> 60 <= score n)
  /\ 8 <= Dashboard.clamp_length n <= 32
  /\ 30 <= score (Dashboard.clamp_length n).
Proof.
  intros Hb score.
  assert (Hgen : forall len, 8 <= len ->
            30 <= score len /\ (16 <= len -> 60 <= score len)).
  { intros len Hlen. subst score. cbv beta. rewrite score_split.
    rewrite generate_length, Z2Nat.id by lia.
    assert (Hcls : Forall (fun c => classified c = true)
                     (PasswordGenerator.generate dis len u l d s)).
    { eapply Forall_impl; [apply generate_chars, Hb|]. intros c Hin.
      pose proof (charset_classified u l d s) as Hall.
      rewrite List.Forall_forall in Hall. apply Hall, Hin. }
    assert (Hne : PasswordGenerator.generate dis len u l d s <> []).
    { intros E. apply (f_equal length) in E. rewrite generate_length in E.
      cbn in E. lia. }
    pose proof (existsb_classified _ Hne Hcls) as Hsome.
    unfold PasswordAnalyzer.add_if.
    destruct (existsb isupper _), (existsb islower _), (existsb isdigit _),
      (existsb ispunct _); try discriminate Hsome;
      destruct (Z.leb_spec 8 len), (Z.leb_spec 12 len), (Z.leb_spec 16 len); lia. }
  assert (Hclamp : 8 <= Dashboard.clamp_length n <= 32)
    by (unfold Dashboard.clamp_length; lia).
  split; [intros H; apply (Hgen n H)|].
  split; [intros H; apply (Hgen n); lia|].
  split; [exact Hclamp|]. apply (Hgen _ (proj1 Hclamp)).
Qed.

Lemma X10_generated_password_score_witness :
  PasswordGenerator.in_bounds (fun i => Z.of_nat i mod 10)
    (PasswordGenerator.charset false false true false)
  /\ 60 <= PasswordAnalyzer.score (PasswordAnalyzer.analyzePassword
             (PasswordGenerator.generate (fun i => Z.of_nat i mod 10) 16
                false false true false)).
Proof.
  assert (H : PasswordGenerator.in_bounds (fun i => Z.of_nat i mod 10)
                (PasswordGenerator.charset false false true false)).
  { intros i. change (Z.of_nat (length (PasswordGenerator.charset false false true false)))
      with 10. pose proof (Z.mod_pos_bound (Z.of_nat i) 10 ltac:(lia)). lia. }
  split; [exact H|].
  refine (proj1 (proj2 (X10_generated_password_score _ 16 false false true false H)) _).
  lia.
Defined.

(** ** The vault: entries *)

Section VaultMore.
Import PassVault.
Local Open Scope vault_scope.

Lemma bind_inv {A B} (m : M A) (k : A -> M B) s b s' :
  bind m k s = Ok (b, s') ->
  exists a s1, m s = Ok (a, s1) /\ k a s1 = Ok (b, s').
Proof.
  unfold bind. destruct (m s) as [[a s1]|]; [|discriminate].
  intros H. exists a, s1. split; [reflexivity|exact H].
Qed.

Lemma updateActivity_touched s : updateActivity s = Ok (tt, touched s).
Proof. reflexivity. Qed.

(** The guard, when it lets a call through, has at most read the clock. *)
Lemma locked_now_passes s s1 :
  locked_now s = Ok (false, s1) ->
  vault s1 = vault s
  /\ isLocked (vault s) = false
  /\ (world s1 = world s \/ world s1 = set_ticks (S (ticks (world s))) (world s)).
Proof.
  unfold locked_now, checkAutoLock, bind, get_vault, time0, get_world, update_world,
    update_vault, ret. cbn.
  destruct (0 <? autoLockMinutes (vault s)); cbn.
  - destruct (_ <? _); cbn; [discriminate|].
    intros [= Hl <-]. cbn. split; [reflexivity|]. split; [first [exact Hl | exact (eq_sym Hl)]|].
    right. reflexivity.
  - intros [= Hl <-]. split; [reflexivity|]. split; [first [exact Hl | exact (eq_sym Hl)]|].
    left. destruct s as [v w]; reflexivity.
Qed.

Lemma locked_now_world s s1 :
  locked_now s = Ok (false, s1) ->
  disk (world s1) = disk (world s) /\ writable (world s1) = writable (world s).
Proof.
  intros H. destruct (locked_now_passes s s1 H) as (_ & _ & [-> | ->]);
    split; reflexivity.
Qed.

Lemma encrypt_with_ready mp data :
  exists h, encrypt_with (Some (SecurityManager.make mp)) data = Ok h.
Proof. eexists. apply encrypt_make. Qed.

Lemma write_entry_ready mp e :
  exists l, write_entry (Some (SecurityManager.make mp)) e = Ok l.
Proof.
  unfold write_entry.
  destruct (encrypt_with_ready mp (id e)) as [f1 ->].
  destruct (encrypt_with_ready mp (website e)) as [f2 ->].
  destruct (encrypt_with_ready mp (username e)) as [f3 ->].
  destruct (encrypt_with_ready mp (password e)) as [f4 ->].
  destruct (encrypt_with_ready mp (category e)) as [f5 ->].
  destruct (encrypt_with_ready mp (notes e)) as [f6 ->].
  eexists. reflexivity.
Qed.

Lemma write_entries_ready mp es :
  exists data, write_entries (Some (SecurityManager.make mp)) es = Ok data.
Proof.
  induction es as [|e es [r IH]]; [eexists; reflexivity|].
  destruct (write_entry_ready mp e) as [l Hl].
  cbn [write_entries]. rewrite Hl, IH. eexists. reflexivity.
Qed.

(** [saveToFile] leaves the vault alone and reports whether the file
    could be opened; when it could, the file holds the snapshot. *)
Lemma saveToFile_ready s :
  key_ready s ->
  exists s', saveToFile s = Ok (writable (world s), s')
    /\ vault s' = vault s
    /\ (writable (world s) = true -> in_sync s')
    /\ (writable (world s) = false -> s' = s).
Proof.
  intros [mp Hk]. unfold saveToFile, bind, get_world, get_vault, lift, update_world, ret.
  destruct (writable (world s)) eqn:Hw.
  - rewrite Hk. destruct (write_entries_ready mp (entries (vault s))) as [data Hd].
    rewrite Hd. eexists. split; [reflexivity|]. split; [reflexivity|].
    split; [|discriminate]. intros _. exists data. cbn. rewrite Hk. split; [reflexivity|exact Hd].
  - eexists. split; [reflexivity|]. split; [reflexivity|]. split; [discriminate|reflexivity].
Qed.

Lemma saveToFile_true_in_sync s s' :
  saveToFile s = Ok (true, s') -> in_sync s'.
Proof.
  unfold saveToFile, bind, get_world, get_vault, lift, update_world, ret.
  destruct (writable (world s)); [|discriminate].
  destruct (write_entries _ _) as [data|] eqn:E; [|discriminate].
  intros [= <-]. exists data. split; [reflexivity|exact E].
Qed.

Lemma update_first_ids eid draft now es :
  map id (update_first eid draft now es) = map id es
  /\ map createdAt (update_first eid draft now es) = map createdAt es.
Proof.
  induction es as [|e es [IH1 IH2]]; [split; reflexivity|].
  cbn [update_first]. destruct (has_id eid e); cbn [map id createdAt].
  - split; reflexivity.
  - rewrite IH1, IH2. split; reflexivity.
Qed.

Lemma update_first_find eid draft now es :
  List.find (has_id eid) (update_first eid draft now es)
  = option_map (overwritten draft now) (List.find (has_id eid) es).
Proof.
  induction es as [|e es IH]; [reflexivity|].
  cbn [update_first List.find]. destruct (has_id eid e) eqn:E.
  - cbn [List.find]. unfold has_id in *. cbn [id]. rewrite E. reflexivity.
  - cbn [List.find]. rewrite E. exact IH.
Qed.

Lemma update_first_others eid draft now es :
  List.filter (fun e => negb (has_id eid e)) (update_first eid draft now es)
  = List.filter (fun e => negb (has_id eid e)) es.
Proof.
  induction es as [|e es IH]; [reflexivity|].
  cbn [update_first]. destruct (has_id eid e) eqn:E.
  - cbn [List.filter]. unfold has_id in *. cbn [id]. rewrite E. reflexivity.
  - cbn [List.filter]. rewrite E, IH. reflexivity.
Qed.

Lemma key_ready_vault s s' : vault s' = vault s -> key_ready s -> key_ready s'.
Proof. intros E [mp H]. exists mp. rewrite E. exact H. Qed.

(** What [addEntry] does once the guard has let it through, up to the
    call of [saveToFile]. *)
Lemma addEntry_passes s s1 draft :
  locked_now s = Ok (false, s1) ->
  exists e s2,
    addEntry draft s = saveToFile s2
    /\ vault s2 = set_entries (entries (vault s) ++ [e])
                   (set_lastActivity (clock (world s1) (ticks (world s1))) (vault s))
    /\ disk (world s2) = disk (world s)
    /\ writable (world s2) = writable (world s)
    /\ website e = website draft /\ username e = username draft
    /\ password e = password draft /\ category e = category draft
    /\ notes e = notes draft
    /\ id e = to_string (clock (world s1) (S (ticks (world s1))))
               ++ to_string (Z.rem (rng (world s1) (draws (world s1))) 10000)
    /\ createdAt e = clock (world s1) (S (S (ticks (world s1))))
    /\ lastModified e = clock (world s1) (S (S (S (ticks (world s1))))).
Proof.
  intros H. destruct (locked_now_passes s s1 H) as (Hv & _ & _).
  destruct (locked_now_world s s1 H) as (Hd & Hw).
  unfold addEntry. rewrite (bind_ok locked_now _ s false s1 H).
  eexists _, _. split; [reflexivity|]. cbn. rewrite Hv, Hd, Hw.
  repeat split.
Qed.

Lemma update_first_split eid draft now before e after :
  Forall (fun x => id x <> eid) before ->
  id e = eid ->
  update_first eid draft now (before ++ e :: after)
  = before ++ overwritten draft now e :: after.
Proof.
  intros Hb He. induction Hb as [|x before Hx _ IH]; cbn [app update_first].
  - unfold has_id. rewrite bool_decide_eq_true_2 by exact He. reflexivity.
  - unfold has_id at 1. rewrite bool_decide_eq_false_2 by exact Hx.
    rewrite IH. reflexivity.
Qed.

Lemma existsb_split eid before e after :
  id e = eid -> existsb (has_id eid) (before ++ e :: after) = true.
Proof.
  intros He. rewrite existsb_app. cbn [existsb]. unfold has_id at 2.
  rewrite bool_decide_eq_true_2 by exact He. rewrite orb_true_r. reflexivity.
Qed.

Lemma update_first_absent eid draft now es :
  existsb (has_id eid) es = false -> update_first eid draft now es = es.
Proof.
  induction es as [|e es IH]; [reflexivity|].
  cbn [existsb update_first]. intros H. apply orb_false_iff in H as [He Hes].
  rewrite He, (IH Hes). reflexivity.
Qed.

Lemma filter_absent eid es :
  existsb (has_id eid) es = false ->
  List.filter (fun e => negb (has_id eid e)) es = es.
Proof.
  induction es as [|e es IH]; [reflexivity|].
  cbn [existsb List.filter]. intros H. apply orb_false_iff in H as [He Hes].
  rewrite He, (IH Hes). reflexivity.
Qed.

Lemma filter_no_id eid es :
  Forall (fun e => id e <> eid) (List.filter (fun e => negb (has_id eid e)) es).
Proof.
  apply List.Forall_forall. intros e He. apply filter_In in He as [_ He].
  apply negb_true_iff in He. unfold has_id in He.
  apply bool_decide_eq_false in He. exact He.
Qed.

Lemma updateEntry_passes s s1 eid draft :
  locked_now s = Ok (false, s1) ->
  let now := clock (world s1) (S (ticks (world s1))) in
  if existsb (has_id eid) (entries (vault s)) then
    exists s2,
      updateEntry eid draft s = saveToFile s2
      /\ entries (vault s2) = update_first eid draft now (entries (vault s))
      /\ security (vault s2) = security (vault s)
      /\ writable (world s2) = writable (world s)
  else
    exists s2,
      updateEntry eid draft s = Ok (false, s2)
      /\ entries (vault s2) = entries (vault s)
      /\ disk (world s2) = disk (world s).
Proof.
  intros H now. destruct (locked_now_passes s s1 H) as (Hv & _ & _).
  destruct (locked_now_world s s1 H) as (Hd & Hw).
  assert (Hstep : updateEntry eid draft s
    = bind get_vault (fun v =>
        if existsb (has_id eid) (entries v) then 
          bind time0 (fun now =>
            bind (update_vault (set_entries (update_first eid draft now (entries v))))
              (fun _ => saveToFile))
        else ret false) (touched s1)).
  { unfold updateEntry. rewrite (bind_ok locked_now _ s false s1 H). reflexivity. }
  destruct (existsb (has_id eid) (entries (vault s))) eqn:E;
    rewrite Hstep; unfold bind at 1, get_vault at 1;
    cbn [vault touched set_lastActivity entries]; rewrite Hv, E.
  - eexists. split; [reflexivity|]. cbn. rewrite Hv, Hw. repeat split.
  - eexists. split; [reflexivity|]. cbn. rewrite Hv, Hd. split; reflexivity.
Qed.

Lemma deleteEntry_passes s s1 eid :
  locked_now s = Ok (false, s1) ->
  if existsb (has_id eid) (entries (vault s)) then
    exists s2,
      deleteEntry eid s = saveToFile s2
      /\ entries (vault s2)
         = List.filter (fun e => negb (has_id eid e)) (entries (vault s))
      /\ security (vault s2) = security (vault s)
      /\ writable (world s2) = writable (world s)
  else
    exists s2,
      deleteEntry eid s = Ok (false, s2)
      /\ entries (vault s2) = entries (vault s)
      /\ disk (world s2) = disk (world s).
Proof.
  intros H. destruct (locked_now_passes s s1 H) as (Hv & _ & _).
  destruct (locked_now_world s s1 H) as (Hd & Hw).
  assert (Hstep : deleteEntry eid s
    = bind get_vault (fun v =>
        if existsb (has_id eid) (entries v) then 
          bind (update_vault
                  (set_entries (List.filter (fun e => negb (has_id eid e)) (entries v))))
            (fun _ => saveToFile)
        else ret false) (touched s1)).
  { unfold deleteEntry. rewrite (bind_ok locked_now _ s false s1 H). reflexivity. }
  destruct (existsb (has_id eid) (entries (vault s))) eqn:E;
    rewrite Hstep; unfold bind at 1, get_vault at 1;
    cbn [vault touched set_lastActivity entries]; rewrite Hv, E.
  - eexists. split; [reflexivity|]. cbn. rewrite Hv, Hw. repeat split.
  - eexists. split; [reflexivity|]. cbn. rewrite Hv, Hd. split; reflexivity.
Qed.

Lemma saveToFile_keeps s b s' :
  saveToFile s = Ok (b, s') -> vault s' = vault s /\ b = writable (world s).
Proof.
  unfold saveToFile, bind, get_world, get_vault, lift, update_world, ret.
  destruct (writable (world s)).
  - destruct (write_entries _ _); [|discriminate]. intros [= <- <-]. split; reflexivity.
  - intros [= <- <-]. split; reflexivity.
Qed.

End VaultMore.

(** X11. On an initialised, Unlocked vault whose file can be written,
    [addEntry] returns true, appends one entry that carries the five text
    fields of the draft and the id made of the clock and [rand() % 10000],
    and leaves the file holding the snapshot of the new entry set. *)
Theorem X11_addEntry_appends_and_persists
    (s s1 : PassVault.State) (draft : PasswordEntry) :
  PassVault.locked_now s = Ok (false, s1) ->
  key_ready s ->
  PassVault.writable (PassVault.world s) = true ->
  exists s' e,
    PassVault.addEntry draft s = Ok (true, s')
    /\ PassVault.entries (PassVault.vault s') = PassVault.entries (PassVault.vault s) ++ [e]
    /\ website e = website draft /\ username e = username draft
    /\ password e = password draft /\ category e = category draft
    /\ notes e = notes draft
    /\ id e = to_string (PassVault.clock (PassVault.world s1)
                           (S (PassVault.ticks (PassVault.world s1))))
               ++ to_string (Z.rem (PassVault.rng (PassVault.world s1)
                                      (PassVault.draws (PassVault.world s1))) 10000)
    /\ in_sync s'.
Proof.
  intros Hg Hk Hw.
  destruct (addEntry_passes s s1 draft Hg)
    as (e & s2 & Ha & Hv & _ & Hw2 & F1 & F2 & F3 & F4 & F5 & F6 & _).
  assert (Hk2 : key_ready s2).
  { destruct Hk as [mp Hk]. exists mp. rewrite Hv. exact Hk. }
  destruct (saveToFile_ready s2 Hk2) as (s' & Hs & Hvs & Hsync & _).
  rewrite Hw2, Hw in Hs, Hsync.
  exists s', e. rewrite Ha, Hs, Hvs, Hv.
  repeat (split; [first [reflexivity | assumption]|]). apply Hsync. reflexivity.
Qed.

Lemma X11_addEntry_appends_and_persists_witness :
  let s := Sample.open_state Sample.still_world in
  let s1 := {| PassVault.vault := PassVault.vault s;
               PassVault.world := PassVault.set_ticks 1 (PassVault.world s) |} in
  PassVault.locked_now s = Ok (false, s1)
  /\ key_ready s
  /\ PassVault.writable (PassVault.world s) = true
  /\ exists s' e,
       PassVault.addEntry Sample.mail s = Ok (true, s')
       /\ PassVault.entries (PassVault.vault s')
          = PassVault.entries (PassVault.vault s) ++ [e].
Proof.
  intros s s1.
  assert (H1 : PassVault.locked_now s = Ok (false, s1)) by reflexivity.
  assert (H2 : key_ready s) by (exists (str "hunter22"); reflexivity).
  assert (H3 : PassVault.writable (PassVault.world s) = true) by reflexivity.
  split; [exact H1|]. split; [exact H2|]. split; [exact H3|].
  destruct (X11_addEntry_appends_and_persists s s1 Sample.mail H1 H2 H3)
    as (s' & e & Ha & He & _).
  exists s', e. split; [exact Ha|exact He].
Defined.

(** X12. When the file cannot be opened for writing, [addEntry] on an
    Unlocked vault returns false and yet keeps the new entry in memory:
    the entry set has grown by one and the file is unchanged. *)
Theorem X12_addEntry_keeps_entry_when_save_fails
    (s s1 : PassVault.State) (draft : PasswordEntry) :
  PassVault.locked_now s = Ok (false, s1) ->
  PassVault.writable (PassVault.world s) = false ->
  exists s' e,
    PassVault.addEntry draft s = Ok (false, s')
    /\ PassVault.entries (PassVault.vault s') = PassVault.entries (PassVault.vault s) ++ [e]
    /\ password e = password draft
    /\ PassVault.disk (PassVault.world s') = PassVault.disk (PassVault.world s).
Proof.
  intros Hg Hw.
  destruct (addEntry_passes s s1 draft Hg)
    as (e & s2 & Ha & Hv & Hd & Hw2 & _ & _ & F3 & _).
  exists s2, e. rewrite Ha.
  unfold PassVault.saveToFile, PassVault.bind, PassVault.get_world, PassVault.ret.
  rewrite Hw2, Hw, Hv. repeat split; assumption.
Qed.

Lemma X12_addEntry_keeps_entry_when_save_fails_witness :
  let w := PassVault.set_disk None
             {| PassVault.clock := PassVault.clock Sample.still_world;
                PassVault.ticks := 0; PassVault.rng := PassVault.rng Sample.still_world;
                PassVault.draws := 0; PassVault.disk := None;
                PassVault.writable := false |} in
  let s := Sample.open_state w in
  let s1 := {| PassVault.vault := PassVault.vault s;
               PassVault.world := PassVault.set_ticks 1 (PassVault.world s) |} in
  PassVault.locked_now s = Ok (false, s1)
  /\ PassVault.writable (PassVault.world s) = false
  /\ exists s' e,
       PassVault.addEntry Sample.mail s = Ok (false, s')
       /\ PassVault.entries (PassVault.vault s')
          = PassVault.entries (PassVault.vault s) ++ [e].
Proof.
  intros w s s1.
  assert (H1 : PassVault.locked_now s = Ok (false, s1)) by reflexivity.
  assert (H2 : PassVault.writable (PassVault.world s) = false) by reflexivity.
  split; [exact H1|]. split; [exact H2|].
  destruct (X12_addEntry_keeps_entry_when_save_fails s s1 Sample.mail H1 H2)
    as (s' & e & Ha & He & _).
  exists s', e. split; [exact Ha|exact He].
Defined.

(** X13. On an initialised, Unlocked vault [updateEntry] returns true
    exactly when some entry carries the id and the file can be written.
    It overwrites the text fields and [lastModified] of the first entry
    with that id and nothing else: the entries before it and all the
    entries after it, those with the same id included, stay exactly as
    they were.  Ids and creation times keep their values and order.
    With no such entry neither the entries nor the file change. *)
Theorem X13_updateEntry_overwrites_first_match
    (s s1 : PassVault.State) (eid : bytes) (draft : PasswordEntry) :
  PassVault.locked_now s = Ok (false, s1) ->
  key_ready s ->
  let es := PassVault.entries (PassVault.vault s) in
  let now := PassVault.clock (PassVault.world s1) (S (PassVault.ticks (PassVault.world s1))) in
  let keep := fun e => negb (PassVault.has_id eid e) in
  exists s',
    PassVault.updateEntry eid draft s
      = Ok (existsb (PassVault.has_id eid) es && PassVault.writable (PassVault.world s), s')
    /\ map id (PassVault.entries (PassVault.vault s')) = map id es
    /\ map createdAt (PassVault.entries (PassVault.vault s')) = map createdAt es
    /\ List.find (PassVault.has_id eid) (PassVault.entries (PassVault.vault s'))
       = option_map (overwritten draft now) (List.find (PassVault.has_id eid) es)
    /\ List.filter keep (PassVault.entries (PassVault.vault s')) = List.filter keep es
    /\ (existsb (PassVault.has_id eid) es = false ->
          PassVault.entries (PassVault.vault s') = es
          /\ PassVault.disk (PassVault.world s') = PassVault.disk (PassVault.world s))
    /\ (forall before e after,
          es = before ++ e :: after ->
          Forall (fun x => id x <> eid) before ->
          id e = eid ->
          PassVault.entries (PassVault.vault s')
          = before ++ overwritten draft now e :: after).
Proof.
  intros Hg Hk es now keep. subst es now keep.
  pose proof (updateEntry_passes s s1 eid draft Hg) as Hp. cbv zeta in Hp.
  destruct (existsb (PassVault.has_id eid) (PassVault.entries (PassVault.vault s))) eqn:E.
  - destruct Hp as (s2 & Hu & He & Hs & Hw).
    assert (Hk2 : key_ready s2).
    { destruct Hk as [mp Hk]. exists mp. rewrite Hs. exact Hk. }
    destruct (saveToFile_ready s2 Hk2) as (s' & Hsave & Hvs & _).
    exists s'. rewrite Hu, Hsave, Hw, Hvs, He. cbn [andb].
    destruct (update_first_ids eid draft
      (PassVault.clock (PassVault.world s1) (S (PassVault.ticks (PassVault.world s1))))
      (PassVault.entries (PassVault.vault s))) as [I1 I2].
    split; [reflexivity|]. split; [exact I1|]. split; [exact I2|].
    split; [apply update_first_find|]. split; [apply update_first_others|].
    split; [discriminate|].
    intros before e after Hes Hb Hid. rewrite Hes.
    apply update_first_split; assumption.
  - destruct Hp as (s2 & Hu & He & Hd).
    exists s2. rewrite Hu, He. cbn [andb].
    split; [reflexivity|]. split; [reflexivity|]. split; [reflexivity|].
    split.
    + rewrite <- (update_first_absent eid draft
        (PassVault.clock (PassVault.world s1) (S (PassVault.ticks (PassVault.world s1))))
        _ E) at 1.
      apply update_first_find.
    + split; [reflexivity|]. split; [intros _; split; [reflexivity|exact Hd]|].
      intros before e after Hes Hb Hid. exfalso.
      rewrite Hes, (existsb_split eid before e after Hid) in E. discriminate E.
Qed.

Lemma X13_updateEntry_overwrites_first_match_witness :
  let s0 := Sample.open_state Sample.still_world in
  let twin := Sample.stored 2 Sample.mail in
  let s := {| PassVault.vault :=
                PassVault.set_entries
                  (PassVault.entries (PassVault.vault s0) ++ [twin]) (PassVault.vault s0);
              PassVault.world := PassVault.world s0 |} in
  let s1 := {| PassVault.vault := PassVault.vault s;
               PassVault.world := PassVault.set_ticks 1 (PassVault.world s) |} in
  PassVault.locked_now s = Ok (false, s1)
  /\ key_ready s
  /\ exists s',
       PassVault.updateEntry (str "2") Sample.github s = Ok (true, s')
       /\ PassVault.entries (PassVault.vault s')
          = [Sample.stored 1 Sample.github;
             overwritten Sample.github 1700000000 (Sample.stored 2 Sample.bank);
             Sample.stored 3 Sample.mail; twin].
Proof.
  intros s0 twin s s1.
  assert (H1 : PassVault.locked_now s = Ok (false, s1)) by reflexivity.
  assert (H2 : key_ready s) by (exists (str "hunter22"); reflexivity).
  split; [exact H1|]. split; [exact H2|].
  destruct (X13_updateEntry_overwrites_first_match s s1 (str "2") Sample.github H1 H2)
    as (s' & Hu & _ & _ & _ & _ & _ & Hsplit).
  exists s'. split; [exact Hu|].
  apply (Hsplit [Sample.stored 1 Sample.github] (Sample.stored 2 Sample.bank)
           [Sample.stored 3 Sample.mail; twin]).
  - reflexivity.
  - constructor; [|constructor]. vm_compute. discriminate.
  - reflexivity.
Defined.

(** X14. On an initialised, Unlocked vault [deleteEntry] returns true
    exactly when some entry carries the id and the file can be written.
    It removes every entry with that id and keeps the others in their
    order; with no such entry it returns false and neither the entries
    nor the file change. *)
Theorem X14_deleteEntry_removes_every_match
    (s s1 : PassVault.State) (eid : bytes) :
  PassVault.locked_now s = Ok (false, s1) ->
  key_ready s ->
  let es := PassVault.entries (PassVault.vault s) in
  exists s',
    PassVault.deleteEntry eid s
      = Ok (existsb (PassVault.has_id eid) es && PassVault.writable (PassVault.world s), s')
    /\ PassVault.entries (PassVault.vault s')
       = List.filter (fun e => negb (PassVault.has_id eid e)) es
    /\ Forall (fun e => id e <> eid) (PassVault.entries (PassVault.vault s'))
    /\ (existsb (PassVault.has_id eid) es = false ->
          PassVault.entries (PassVault.vault s') = es
          /\ PassVault.disk (PassVault.world s') = PassVault.disk (PassVault.world s)).
Proof.
  intros Hg Hk es. subst es.
  pose proof (deleteEntry_passes s s1 eid Hg) as Hp.
  destruct (existsb (PassVault.has_id eid) (PassVault.entries (PassVault.vault s))) eqn:E.
  - destruct Hp as (s2 & Hu & He & Hs & Hw).
    assert (Hk2 : key_ready s2).
    { destruct Hk as [mp Hk]. exists mp. rewrite Hs. exact Hk. }
    destruct (saveToFile_ready s2 Hk2) as (s' & Hsave & Hvs & _).
    exists s'. rewrite Hu, Hsave, Hw, Hvs, He. cbn [andb].
    split; [reflexivity|]. split; [reflexivity|]. split; [apply filter_no_id|].
    discriminate.
  - destruct Hp as (s2 & Hu & He & Hd).
    exists s2. rewrite Hu, He. cbn [andb].
    split; [reflexivity|]. split; [symmetry; apply filter_absent, E|].
    split.
    + rewrite <- (filter_absent eid _ E). apply filter_no_id.
    + intros _. split; [reflexivity|exact Hd].
Qed.

Lemma X14_deleteEntry_removes_every_match_witness :
  let s := Sample.open_state Sample.still_world in
  let s1 := {| PassVault.vault := PassVault.vault s;
               PassVault.world := PassVault.set_ticks 1 (PassVault.world s) |} in
  PassVault.locked_now s = Ok (false, s1)
  /\ key_ready s
  /\ exists s',
       PassVault.deleteEntry (str "2") s = Ok (true, s')
       /\ Forall (fun e => id e <> str "2") (PassVault.entries (PassVault.vault s')).
Proof.
  intros s s1.
  assert (H1 : PassVault.locked_now s = Ok (false, s1)) by reflexivity.
  assert (H2 : key_ready s) by (exists (str "hunter22"); reflexivity).
  split; [exact H1|]. split; [exact H2|].
  destruct (X14_deleteEntry_removes_every_match s s1 (str "2") H1 H2)
    as (s' & Hu & _ & Hf & _).
  exists s'. split; [exact Hu|exact Hf].
Defined.

(** X15. On an Unlocked vault [getEntry] returns the first entry that
    carries the id: an entry it returns has that id and is stored in the
    vault, and it returns none exactly when no stored entry has the id;
    the entry set is left as it was. *)
Theorem X15_getEntry_finds_first_match
    (s s1 : PassVault.State) (eid : bytes) :
  PassVault.locked_now s = Ok (false, s1) ->
  let es := PassVault.entries (PassVault.vault s) in
  exists r s',
    PassVault.getEntry eid s = Ok (r, s')
    /\ PassVault.entries (PassVault.vault s') = es
    /\ (forall e, r = Some e ->
          id e = eid /\ exists before after,
            es = before ++ e :: after /\ Forall (fun x => id x <> eid) before)
    /\ (r = None <-> Forall (fun e => id e <> eid) es).
Proof.
  intros Hg es. subst es.
  destruct (locked_now_passes s s1 Hg) as (Hv & _ & _).
  unfold PassVault.getEntry. rewrite (bind_ok PassVault.locked_now _ s false s1 Hg).
  eexists _, _. split; [reflexivity|]. cbn. rewrite Hv.
  split; [reflexivity|].
  generalize (PassVault.entries (PassVault.vault s)). intros es.
  induction es as [|x es [IH1 IH2]].
  - split; [discriminate|]. split; [constructor|reflexivity].
  - cbn [List.find]. unfold PassVault.has_id at 1 3.
    destruct (bool_decide (id x = eid)) eqn:E.
    + apply bool_decide_eq_true in E. split.
      * intros e [= <-]. split; [exact E|]. exists [], es. split; [reflexivity|constructor].
      * split; [discriminate|]. intros H. apply Forall_inv in H. contradiction.
    + apply bool_decide_eq_false in E. split.
      * intros e He. destruct (IH1 e He) as (Hid & before & after & -> & Hb).
        split; [exact Hid|]. exists (x :: before), after.
        split; [reflexivity|constructor; assumption].
      * rewrite IH2. split.
        -- intros H. constructor; assumption.
        -- intros H. exact (Forall_inv_tail H).
Qed.

Lemma X15_getEntry_finds_first_match_witness :
  let s := Sample.open_state Sample.still_world in
  let s1 := {| PassVault.vault := PassVault.vault s;
               PassVault.world := PassVault.set_ticks 1 (PassVault.world s) |} in
  PassVault.locked_now s = Ok (false, s1)
  /\ exists r s',
       PassVault.getEntry (str "3") s = Ok (r, s')
       /\ PassVault.entries (PassVault.vault s') = PassVault.entries (PassVault.vault s).
Proof.
  intros s s1.
  assert (H1 : PassVault.locked_now s = Ok (false, s1)) by reflexivity.
  split; [exact H1|].
  destruct (X15_getEntry_finds_first_match s s1 (str "3") H1) as (r & s' & Hu & He & _).
  exists r, s'. split; [exact Hu|exact He].
Defined.

(** ** The vault: the lock over time *)

(** X16. With the threshold of ten minutes the constructor sets, a gated
    call on an Unlocked vault goes through when at most 600 seconds have
    passed since the last activity, and then moves the last activity to
    the present; after more than 600 seconds it locks the vault, returns
    nothing and leaves the last activity where it was. *)
Theorem X16_auto_lock_threshold (s : PassVault.State) :
  PassVault.isLocked (PassVault.vault s) = false ->
  PassVault.autoLockMinutes (PassVault.vault s) = 10 ->
  let w := PassVault.world s in
  let idle := PassVault.clock w (PassVault.ticks w)
              - PassVault.lastActivity (PassVault.vault s) in
  (idle <= 600 ->
     exists s', PassVault.getAllEntries s = Ok (PassVault.entries (PassVault.vault s), s')
       /\ PassVault.isLocked (PassVault.vault s') = false
       /\ PassVault.lastActivity (PassVault.vault s')
          = PassVault.clock w (S (PassVault.ticks w)))
  /\ (600 < idle ->
        exists s', PassVault.getAllEntries s = Ok ([], s')
          /\ PassVault.isLocked (PassVault.vault s') = true
          /\ PassVault.lastActivity (PassVault.vault s')
             = PassVault.lastActivity (PassVault.vault s)
          /\ PassVault.entries (PassVault.vault s')
             = PassVault.entries (PassVault.vault s)).
Proof.
  intros Hl Hm w idle. subst w idle.
  unfold PassVault.getAllEntries, PassVault.locked_now, PassVault.checkAutoLock,
    PassVault.updateActivity, PassVault.bind, PassVault.get_vault, PassVault.time0,
    PassVault.get_world, PassVault.update_world, PassVault.update_vault, PassVault.ret.
  cbn. rewrite Hm. cbn.
  split; intros Hi.
  - rewrite (proj2 (Z.ltb_ge _ _)) by lia. cbn. rewrite Hl.
    eexists. split; [reflexivity|]. cbn. split; [exact Hl|reflexivity].
  - rewrite (proj2 (Z.ltb_lt _ _)) by lia. cbn.
    eexists. split; [reflexivity|]. cbn. repeat split.
Qed.

Lemma X16_auto_lock_threshold_witness :
  let s := Sample.open_state (PassVault.set_ticks 1 Sample.hourly_world) in
  PassVault.isLocked (PassVault.vault s) = false
  /\ PassVault.autoLockMinutes (PassVault.vault s) = 10
  /\ exists s', PassVault.getAllEntries s = Ok ([], s')
       /\ PassVault.isLocked (PassVault.vault s') = true.
Proof.
  intros s.
  assert (H1 : PassVault.isLocked (PassVault.vault s) = false) by reflexivity.
  assert (H2 : PassVault.autoLockMinutes (PassVault.vault s) = 10) by reflexivity.
  split; [exact H1|]. split; [exact H2|].
  destruct (proj2 (X16_auto_lock_threshold s H1 H2)) as (s' & Hg & Hl & _).
  - reflexivity.
  - exists s'. split; [exact Hg|exact Hl].
Defined.

Section LockMore.
Import PassVault.
Local Open Scope vault_scope.

Lemma checkAutoLock_keeps_locked s b s1 :
  checkAutoLock s = Ok (b, s1) -> isLocked (vault s) = true ->
  isLocked (vault s1) = true.
Proof.
  unfold checkAutoLock, bind, get_vault, time0, get_world, update_world,
    update_vault, ret; cbn.
  destruct (0 <? autoLockMinutes (vault s)); cbn.
  - destruct (_ <? _); cbn; intros [= _ <-]; intros H; [reflexivity|exact H].
  - intros [= _ <-]; intros H; exact H.
Qed.

Lemma locked_now_locked s :
  isLocked (vault s) = true ->
  exists s1, locked_now s = Ok (true, s1)
    /\ isLocked (vault s1) = true
    /\ entries (vault s1) = entries (vault s).
Proof.
  intros Hl. destruct (checkAutoLock_total s) as (b & s1 & Hc).
  pose proof (checkAutoLock_keeps_locked s b s1 Hc Hl) as Hl1.
  exists s1. split; [exact (locked_now_true s b s1 Hc Hl1)|].
  split; [exact Hl1|]. apply (checkAutoLock_frame s b s1 Hc).
Qed.

Lemma ignore_inv {A} (m : M A) s s' :
  ignore m s = Ok (tt, s') -> exists a, m s = Ok (a, s').
Proof.
  unfold ignore, bind, ret. destruct (m s) as [[a s1]|]; [|discriminate].
  intros [= <-]. exists a. reflexivity.
Qed.

Lemma getHealthReport_vault s r s' :
  getHealthReport s = Ok (r, s') -> vault s' = vault s.
Proof.
  unfold getHealthReport, bind, get_vault, time0, get_world, update_world, ret. cbn.
  destruct (fold_left _ _ _). intros [= _ <-]. reflexivity.
Qed.

Lemma perform_keeps_lock c s s' :
  keeps_lock c = true ->
  isLocked (vault s) = true ->
  perform c s = Ok (tt, s') ->
  isLocked (vault s') = true /\ entries (vault s') = entries (vault s).
Proof.
  intros Hc Hl Hp. destruct (locked_now_locked s Hl) as (s1 & Hg & Hl1 & He1).
  destruct c; try discriminate Hc; cbn [perform] in Hp;
    try (apply ignore_inv in Hp as [a Hp]).
  - injection Hp as <-. split; reflexivity.
  - unfold addEntry in Hp. rewrite (bind_ok locked_now _ s true s1 Hg) in Hp.
    injection Hp as _ <-. split; assumption.
  - unfold updateEntry in Hp. rewrite (bind_ok locked_now _ s true s1 Hg) in Hp.
    injection Hp as _ <-. split; assumption.
  - unfold deleteEntry in Hp. rewrite (bind_ok locked_now _ s true s1 Hg) in Hp.
    injection Hp as _ <-. split; assumption.
  - unfold searchEntries in Hp. rewrite (bind_ok locked_now _ s true s1 Hg) in Hp.
    injection Hp as _ <-. split; assumption.
  - unfold getAllEntries in Hp. rewrite (bind_ok locked_now _ s true s1 Hg) in Hp.
    injection Hp as _ <-. split; assumption.
  - unfold getEntry in Hp. rewrite (bind_ok locked_now _ s true s1 Hg) in Hp.
    injection Hp as _ <-. split; assumption.
  - apply saveToFile_keeps in Hp as [-> _]. split; [exact Hl|reflexivity].
  - apply getHealthReport_vault in Hp as ->. split; [exact Hl|reflexivity].
Qed.

End LockMore.

(** X17. A Locked vault stays Locked, with the same entries, through
    every sequence of calls that contains no [unlock], no [initialize]
    and no [loadFromFile]. *)
Theorem X17_locked_vault_stays_locked
    (cs : list PassVault.call) (s s' : PassVault.State) :
  forallb keeps_lock cs = true ->
  PassVault.isLocked (PassVault.vault s) = true ->
  PassVault.run cs s = Ok (tt, s') ->
  PassVault.isLocked (PassVault.vault s') = true
  /\ PassVault.entries (PassVault.vault s') = PassVault.entries (PassVault.vault s).
Proof.
  revert s. induction cs as [|c cs IH]; intros s Hcs Hl Hr.
  - injection Hr as <-. split; [exact Hl|reflexivity].
  - cbn [forallb] in Hcs. apply andb_true_iff in Hcs as [Hc Hcs].
    cbn [PassVault.run] in Hr. apply bind_inv in Hr as ([] & s1 & Hp & Hr).
    destruct (perform_keeps_lock c s s1 Hc Hl Hp) as [Hl1 He1].
    destruct (IH s1 Hcs Hl1 Hr) as [Hl' He']. split; [exact Hl'|congruence].
Qed.

Lemma X17_locked_vault_stays_locked_witness :
  let cs := [PassVault.AddEntry Sample.mail; PassVault.DeleteEntry (str "1");
             PassVault.GetAllEntries; PassVault.SaveToFile] in
  let s := Sample.locked_state Sample.still_world in
  forallb keeps_lock cs = true
  /\ PassVault.isLocked (PassVault.vault s) = true
  /\ PassVault.run cs s = Ok (tt, after cs s)
  /\ PassVault.entries (PassVault.vault (after cs s)) = PassVault.entries (PassVault.vault s).
Proof.
  intros cs s.
  assert (H1 : forallb keeps_lock cs = true) by reflexivity.
  assert (H2 : PassVault.isLocked (PassVault.vault s) = true) by reflexivity.
  assert (H3 : PassVault.run cs s = Ok (tt, after cs s)) by (vm_compute; reflexivity).
  split; [exact H1|]. split; [exact H2|]. split; [exact H3|].
  exact (proj2 (X17_locked_vault_stays_locked cs s (after cs s) H1 H2 H3)).
Defined.

Section SettingsMore.
Import PassVault.
Local Open Scope vault_scope.

Lemma ss_refl s : same_settings s s.
Proof. split; reflexivity. Qed.

Lemma ss_trans s1 s2 s3 :
  same_settings s1 s2 -> same_settings s2 s3 -> same_settings s1 s3.
Proof. unfold same_settings. intros [A1 B1] [A2 B2]. split; congruence. Qed.

Lemma ss_update_world f : respects same_settings (update_world f).
Proof. intros s a s' [= _ <-]. split; reflexivity. Qed.

Lemma ss_update_vault f :
  (forall v, autoLockMinutes (f v) = autoLockMinutes v /\ vaultFile (f v) = vaultFile v) ->
  respects same_settings (update_vault f).
Proof. intros Hf s a s' [= _ <-]. apply Hf. Qed.

Ltac ss :=
  repeat first
    [ apply (respects_ret same_settings ss_refl)
    | apply (respects_get_vault same_settings ss_refl)
    | apply (respects_get_world same_settings ss_refl)
    | apply (respects_lift same_settings ss_refl)
    | apply ss_update_world
    | apply ss_update_vault; intros ?; split; reflexivity
    | assumption
    | apply (respects_bind same_settings ss_trans); [|intros ?]
    | apply (respects_ignore same_settings ss_refl ss_trans)
    | match goal with
      | |- respects _ (if ?b then _ else _) => destruct b
      | |- respects _ (match ?x with Some _ => _ | None => _ end) => destruct x
      | |- respects _ (let '(_, _) := ?x in _) => destruct x
      end ].

Lemma ss_time0 : respects same_settings time0.
Proof. unfold time0. ss. Qed.

Lemma ss_locked_now : respects same_settings locked_now.
Proof. pose proof ss_time0. unfold locked_now, checkAutoLock. ss. Qed.

Lemma ss_saveToFile : respects same_settings saveToFile.
Proof. unfold saveToFile. ss. Qed.

Lemma ss_perform c : respects same_settings (perform c).
Proof.
  pose proof ss_time0. pose proof ss_locked_now. pose proof ss_saveToFile.
  destruct c; cbn [perform];
    unfold initialize, lock, unlock, addEntry, updateEntry, deleteEntry, searchEntries,
      getAllEntries, getEntry, getHealthReport, loadFromFile, generateId, rand,
      updateActivity; ss.
Qed.

Lemma ss_run cs : respects same_settings (run cs).
Proof.
  induction cs as [|c cs IH]; cbn [run].
  - apply (respects_ret same_settings ss_refl).
  - apply (respects_bind same_settings ss_trans); [apply ss_perform|].
    intros _. exact IH.
Qed.

(** Calls that keep a vault with a key running. *)

Lemma safe_ret {A} (a : A) : safe (ret a).
Proof. intros s Hk. exists a, s. split; [reflexivity|exact Hk]. Qed.

Lemma safe_bind {A B} (m : M A) (k : A -> M B) :
  safe m -> (forall a, safe (k a)) -> safe (bind m k).
Proof.
  intros Hm Hk s Hs. destruct (Hm s Hs) as (a & s1 & E & Hs1).
  destruct (Hk a s1 Hs1) as (b & s2 & E2 & Hs2).
  exists b, s2. unfold bind. rewrite E. split; [exact E2|exact Hs2].
Qed.

Lemma safe_get_vault : safe get_vault.
Proof. intros s Hk. exists (vault s), s. split; [reflexivity|exact Hk]. Qed.

Lemma safe_get_world : safe get_world.
Proof. intros s Hk. exists (world s), s. split; [reflexivity|exact Hk]. Qed.

Lemma safe_update_world f : safe (update_world f).
Proof. intros s Hk. eexists tt, _. split; [reflexivity|exact Hk]. Qed.

Lemma safe_update_vault f :
  (forall v, security (f v) = security v) -> safe (update_vault f).
Proof.
  intros Hf s [mp Hk]. eexists tt, _. split; [reflexivity|].
  exists mp. cbn. rewrite Hf. exact Hk.
Qed.

Lemma safe_saveToFile : safe saveToFile.
Proof.
  intros s Hk. destruct (saveToFile_ready s Hk) as (s' & E & Hv & _).
  exists (writable (world s)), s'. split; [exact E|].
  exact (key_ready_vault s s' Hv Hk).
Qed.

Lemma safe_ignore {A} (m : M A) : safe m -> safe (ignore m).
Proof. intros H. apply safe_bind; [exact H|]. intros _. apply safe_ret. Qed.

Ltac sf :=
  repeat first
    [ apply safe_ret
    | apply safe_get_vault
    | apply safe_get_world
    | apply safe_update_world
    | apply safe_update_vault; intros ?; reflexivity
    | apply safe_saveToFile
    | assumption
    | apply safe_bind; [|intros ?]
    | apply safe_ignore
    | match goal with
      | |- safe (if ?b then _ else _) => destruct b
      | |- safe (let '(_, _) := ?x in _) => destruct x
      end ].

Lemma safe_time0 : safe time0.
Proof. unfold time0. sf. Qed.

Lemma safe_locked_now : safe locked_now.
Proof. pose proof safe_time0. unfold locked_now, checkAutoLock. sf. Qed.

Lemma safe_perform c : is_load c = false -> safe (perform c).
Proof.
  pose proof safe_time0. pose proof safe_locked_now.
  intros Hc. destruct c; try discriminate Hc; cbn [perform];
    unfold lock, unlock, addEntry, updateEntry, deleteEntry, searchEntries,
      getAllEntries, getEntry, getHealthReport, generateId, rand, updateActivity;
    try solve [sf].
  intros s _. eexists tt, _. split; [reflexivity|].
  exists masterPass. reflexivity.
Qed.

Lemma safe_run cs : forallb (fun c => negb (is_load c)) cs = true -> safe (run cs).
Proof.
  induction cs as [|c cs IH]; cbn [run forallb]; intros H.
  - apply safe_ret.
  - apply andb_true_iff in H as [Hc Hcs]. apply negb_true_iff in Hc.
    apply safe_bind; [apply safe_perform, Hc|]. intros _. apply IH, Hcs.
Qed.

End SettingsMore.

(** X18. No call changes the auto-lock threshold or the file name: after
    any sequence of calls on a vault made by the constructor, the
    threshold is ten minutes and the file is the one given at
    construction. *)
Theorem X18_settings_are_fixed_at_construction
    (filename : bytes) (w : PassVault.World) (cs : list PassVault.call)
    (s : PassVault.State) :
  PassVault.run cs (PassVault.make filename w) = Ok (tt, s) ->
  PassVault.autoLockMinutes (PassVault.vault s) = 10
  /\ PassVault.vaultFile (PassVault.vault s) = filename.
Proof. intros H. exact (ss_run cs _ _ _ H). Qed.

Lemma X18_settings_are_fixed_at_construction_witness :
  let cs := [PassVault.Initialize (str "hunter22"); PassVault.AddEntry Sample.github;
             PassVault.Lock] in
  let s0 := PassVault.make (str "passvault.dat") Sample.still_world in
  PassVault.run cs s0 = Ok (tt, after cs s0)
  /\ PassVault.autoLockMinutes (PassVault.vault (after cs s0)) = 10.
Proof.
  intros cs s0.
  assert (H : PassVault.run cs s0 = Ok (tt, after cs s0)) by (vm_compute; reflexivity).
  split; [exact H|].
  exact (proj1 (X18_settings_are_fixed_at_construction _ _ cs _ H)).
Defined.

(** X19. Once [initialize] has run, no sequence of calls other than
    [loadFromFile] can fail to return: neither a null [SecurityManager],
    nor an empty key, nor an exception is possible, and the vault still
    holds a derived key at the end. *)
Theorem X19_initialised_vault_never_crashes
    (mp : bytes) (cs : list PassVault.call) (s0 : PassVault.State) :
  forallb (fun c => negb (is_load c)) cs = true ->
  exists s, PassVault.run (PassVault.Initialize mp :: cs) s0 = Ok (tt, s) /\ key_ready s.
Proof.
  intros Hcs. cbn [PassVault.run].
  set (s1 := after [PassVault.Initialize mp] s0).
  assert (H1 : PassVault.perform (PassVault.Initialize mp) s0 = Ok (tt, s1)) by reflexivity.
  assert (Hk : key_ready s1) by (exists mp; reflexivity).
  destruct (safe_run cs Hcs s1 Hk) as ([] & s & Hr & Hks).
  exists s. split; [|exact Hks].
  rewrite (bind_ok _ _ s0 tt s1 H1). exact Hr.
Qed.

Lemma X19_initialised_vault_never_crashes_witness :
  let cs := [PassVault.AddEntry Sample.github; PassVault.UpdateEntry (str "x") Sample.mail;
             PassVault.Lock; PassVault.SaveToFile] in
  forallb (fun c => negb (is_load c)) cs = true
  /\ exists s, PassVault.run (PassVault.Initialize (str "hunter22") :: cs)
                 (PassVault.make (str "passvault.dat") Sample.still_world) = Ok (tt, s)
       /\ key_ready s.
Proof.
  intros cs.
  assert (H : forallb (fun c => negb (is_load c)) cs = true) by reflexivity.
  split; [exact H|].
  exact (X19_initialised_vault_never_crashes (str "hunter22") cs _ H).
Defined.

(** X20. [initialize] does not look at the lock: called on any vault,
    Locked or not, with any passphrase, it returns true, keeps the
    entries in memory and unlocks; a [getAllEntries] that follows within
    the threshold hands those entries out. *)
Theorem X20_initialize_unlocks_without_the_passphrase
    (s : PassVault.State) (p : bytes) :
  let w := PassVault.world s in
  PassVault.clock w (S (PassVault.ticks w)) - PassVault.clock w (PassVault.ticks w)
    <= PassVault.autoLockMinutes (PassVault.vault s) * 60 ->
  exists s1 s2,
    PassVault.initialize p s = Ok (true, s1)
    /\ PassVault.isLocked (PassVault.vault s1) = false
    /\ PassVault.masterPassword (PassVault.vault s1) = p
    /\ PassVault.getAllEntries s1 = Ok (PassVault.entries (PassVault.vault s), s2).
Proof.
  intros w Hgap. subst w.
  set (s1 := match PassVault.initialize p s with Ok (_, x) => x | Fault _ => s end).
  assert (Hg : exists s2,
            PassVault.getAllEntries s1 = Ok (PassVault.entries (PassVault.vault s), s2)).
  { unfold PassVault.getAllEntries, PassVault.locked_now, PassVault.checkAutoLock,
      PassVault.updateActivity, PassVault.bind, PassVault.get_vault, PassVault.time0,
      PassVault.get_world, PassVault.update_world, PassVault.update_vault, PassVault.ret.
    cbn. destruct (0 <? PassVault.autoLockMinutes (PassVault.vault s)); cbn.
    - rewrite (proj2 (Z.ltb_ge _ _)) by lia. cbn. eexists. reflexivity.
    - eexists. reflexivity. }
  destruct Hg as [s2 Hg]. exists s1, s2.
  split; [reflexivity|]. split; [reflexivity|]. split; [reflexivity|exact Hg].
Qed.

Lemma X20_initialize_unlocks_without_the_passphrase_witness :
  let s := Sample.locked_state Sample.still_world in
  PassVault.clock (PassVault.world s) 1 - PassVault.clock (PassVault.world s) 0
    <= PassVault.autoLockMinutes (PassVault.vault s) * 60
  /\ PassVault.isLocked (PassVault.vault s) = true
  /\ exists s1 s2,
       PassVault.initialize (str "guess") s = Ok (true, s1)
       /\ PassVault.getAllEntries s1 = Ok (PassVault.entries (PassVault.vault s), s2).
Proof.
  intros s.
  assert (H : PassVault.clock (PassVault.world s) 1 - PassVault.clock (PassVault.world s) 0
              <= PassVault.autoLockMinutes (PassVault.vault s) * 60) by discriminate.
  split; [exact H|]. split; [reflexivity|].
  destruct (X20_initialize_unlocks_without_the_passphrase s (str "guess") H)
    as (s1 & s2 & Hi & _ & _ & Hg).
  exists s1, s2. split; [exact Hi|exact Hg].
Defined.

(** X21. A vault that was only constructed and unlocked with the empty
    passphrase has no [SecurityManager]: the first [addEntry] that passes
    the guard and opens the file goes through the null pointer instead of
    returning. *)
Theorem X21_addEntry_without_key_dereferences_null
    (filename : bytes) (w : PassVault.World) (draft : PasswordEntry) :
  PassVault.writable w = true ->
  PassVault.clock w (S (S (PassVault.ticks w))) - PassVault.clock w (S (PassVault.ticks w))
    <= 600 ->
  exists s1,
    PassVault.unlock [] (PassVault.make filename w) = Ok (true, s1)
    /\ PassVault.addEntry draft s1 = Fault NullDeref.
Proof.
  intros Hw Hgap. eexists. split; [reflexivity|].
  unfold PassVault.addEntry, PassVault.locked_now, PassVault.checkAutoLock,
    PassVault.updateActivity, PassVault.generateId, PassVault.rand, PassVault.saveToFile,
    PassVault.bind, PassVault.get_vault, PassVault.time0, PassVault.lift,
    PassVault.get_world, PassVault.update_world, PassVault.update_vault, PassVault.ret.
  cbn -[to_string Z.rem]. rewrite (proj2 (Z.ltb_ge _ _)) by lia.
  cbn -[to_string Z.rem]. rewrite Hw. reflexivity.
Qed.

Lemma X21_addEntry_without_key_dereferences_null_witness :
  PassVault.writable Sample.still_world = true
  /\ PassVault.clock Sample.still_world 2 - PassVault.clock Sample.still_world 1 <= 600
  /\ exists s1,
       PassVault.unlock [] (PassVault.make (str "passvault.dat") Sample.still_world)
         = Ok (true, s1)
       /\ PassVault.addEntry Sample.github s1 = Fault NullDeref.
Proof.
  assert (H1 : PassVault.writable Sample.still_world = true) by reflexivity.
  assert (H2 : PassVault.clock Sample.still_world 2 - PassVault.clock Sample.still_world 1
               <= 600) by discriminate.
  split; [exact H1|]. split; [exact H2|].
  exact (X21_addEntry_without_key_dereferences_null (str "passvault.dat")
           Sample.still_world Sample.github H1 H2).
Defined.

(** ** The health report and the dashboard *)

Section HealthMore.
Import PassVault.
Local Open Scope vault_scope.

Lemma key_neq (a b : String.string) :
  String.eqb a b = false -> str a <> str b.
Proof.
  intros H E. apply (f_equal String.string_of_list_ascii) in E.
  unfold str in E. rewrite !String.string_of_list_ascii_of_string in E.
  apply String.eqb_neq in H. contradiction.
Qed.

Lemma weak_count_cons e es :
  weak_count (e :: es) =
  (if PasswordAnalyzer.score (PasswordAnalyzer.analyzePassword (password e)) <? 60
   then 1 else 0) + weak_count es.
Proof.
  unfold weak_count. cbn [List.filter].
  destruct (_ <? 60); cbn [length]; lia.
Qed.

Lemma old_count_cons now e es :
  old_count now (e :: es) =
  (if 6 * (30 * 24 * 60 * 60) <? now - lastModified e then 1 else 0) + old_count now es.
Proof.
  unfold old_count. cbn [List.filter].
  destruct (_ <? _); cbn [length]; lia.
Qed.

Lemma health_fold_fields (now : Z) (es : list PasswordEntry) :
  forall (r pc : gmap bytes Z) (a b : Z),
    r !! str "weak" = Some a -> r !! str "old" = Some b ->
    let r' := fst (fold_left (health_step now) es (r, pc)) in
    r' !! str "weak" = Some (a + weak_count es)
    /\ r' !! str "old" = Some (b + old_count now es)
    /\ r' !! str "total" = r !! str "total".
Proof.
  induction es as [|e es IH]; intros r pc a b Ha Hb; cbn zeta.
  - cbn [fold_left fst]. unfold weak_count, old_count. cbn [List.filter length].
    rewrite !Z.add_0_r. repeat split; assumption.
  - cbn [fold_left].
    pose (r1 := if PasswordAnalyzer.score (PasswordAnalyzer.analyzePassword (password e))
                   <? 60
                then add_to (str "weak") 1 r else r).
    pose (r2 := if 6 * (30 * 24 * 60 * 60) <? now - lastModified e
                then add_to (str "old") 1 r1 else r1).
    change (health_step now (r, pc) e) with (r2, add_to (password e) 1 pc).
    assert (W1 : r1 !! str "weak" = Some (a +
              (if PasswordAnalyzer.score (PasswordAnalyzer.analyzePassword (password e)) <? 60
               then 1 else 0))
            /\ r1 !! str "old" = Some b /\ r1 !! str "total" = r !! str "total").
    { subst r1.
      destruct (PasswordAnalyzer.score (PasswordAnalyzer.analyzePassword (password e)) <? 60).
      - rewrite add_to_same, Ha, !add_to_other by (apply key_neq; reflexivity).
        repeat split; assumption.
      - rewrite Z.add_0_r. repeat split; assumption. }
    destruct W1 as (W1 & O1 & T1).
    assert (W2 : r2 !! str "weak" = Some (a +
              (if PasswordAnalyzer.score (PasswordAnalyzer.analyzePassword (password e)) <? 60
               then 1 else 0))
            /\ r2 !! str "old" = Some (b +
                 (if 6 * (30 * 24 * 60 * 60) <? now - lastModified e then 1 else 0))
            /\ r2 !! str "total" = r !! str "total").
    { subst r2. destruct (6 * (30 * 24 * 60 * 60) <? now - lastModified e).
      - rewrite add_to_same, O1, !add_to_other by (apply key_neq; reflexivity).
        repeat split; assumption.
      - rewrite Z.add_0_r. repeat split; assumption. }
    destruct W2 as (W2 & O2 & T2).
    destruct (IH r2 (add_to (password e) 1 pc) _ _ W2 O2) as (I1 & I2 & I3).
    cbn zeta in I1, I2, I3.
    rewrite I1, I2, I3, weak_count_cons, old_count_cons, T2.
    split; [f_equal; lia|]. split; [f_equal; lia|reflexivity].
Qed.

Lemma reused_foldr_other (l : list (bytes * Z)) (r : gmap bytes Z) (k : bytes) :
  k <> str "reused" -> foldr (uncurry reused_step) r l !! k = r !! k.
Proof.
  intros Hk. induction l as [|[p n] l IH]; [reflexivity|].
  cbn [foldr uncurry]. unfold reused_step at 1. cbn [fst snd].
  destruct (1 <? n); [rewrite add_to_other by congruence|]; exact IH.
Qed.

Lemma getHealthReport_fields s :
  exists report s',
    getHealthReport s = Ok (report, s')
    /\ vault s' = vault s
    /\ disk (world s') = disk (world s)
    /\ report !! str "total" = Some (Z.of_nat (length (entries (vault s))))
    /\ report !! str "weak" = Some (weak_count (entries (vault s)))
    /\ report !! str "old"
       = Some (old_count (clock (world s) (ticks (world s))) (entries (vault s))).
Proof.
  set (es := entries (vault s)).
  unfold getHealthReport, bind, get_vault, time0, get_world, update_world, ret.
  cbn -[str]. fold es.
  set (now := clock (world s) (ticks (world s))).
  match goal with
  | |- context [fold_left (health_step now) es (?r, _)] => set (r0 := r)
  end.
  assert (Hw : r0 !! str "weak" = Some 0).
  { subst r0. rewrite !lookup_insert_ne by (apply key_neq; reflexivity).
    apply lookup_insert_eq. }
  assert (Ho : r0 !! str "old" = Some 0) by (subst r0; apply lookup_insert_eq).
  assert (Ht : r0 !! str "total" = Some (Z.of_nat (length es))).
  { subst r0. rewrite !lookup_insert_ne by (apply key_neq; reflexivity).
    apply lookup_insert_eq. }
  destruct (health_fold_fields now es r0 ∅ 0 0 Hw Ho) as (F1 & F2 & F3).
  cbn zeta in F1, F2, F3.
  destruct (fold_left (health_step now) es (r0, ∅)) as [r pc]. cbn [fst] in F1, F2, F3.
  eexists _, _. split; [reflexivity|]. split; [reflexivity|]. split; [reflexivity|].
  rewrite map_fold_foldr, !reused_foldr_other by (apply key_neq; reflexivity).
  rewrite F1, F2, F3, Ht. repeat split.
Qed.

Lemma filter_length_le {A} (f : A -> bool) (l : list A) :
  (length (List.filter f l) <= length l)%nat.
Proof.
  induction l as [|x l IH]; [reflexivity|].
  cbn [List.filter]. destruct (f x); cbn [length]; lia.
Qed.

Lemma with_password_in_step p pws es :
  p ∉ pws ->
  with_password_in (p :: pws) es = occurrences p es + with_password_in pws es.
Proof.
  intros Hp. unfold with_password_in, occurrences.
  induction es as [|e es IH]; [reflexivity|].
  cbn [List.filter].
  destruct (bool_decide (password e = p)) eqn:E1.
  - apply bool_decide_eq_true in E1.
    rewrite (bool_decide_eq_true_2 (password e ∈ p :: pws))
      by (rewrite E1; apply list_elem_of_here).
    rewrite (bool_decide_eq_false_2 (password e ∈ pws)) by (rewrite E1; exact Hp).
    cbn [length]. lia.
  - apply bool_decide_eq_false in E1.
    destruct (bool_decide (password e ∈ pws)) eqn:E2.
    + apply bool_decide_eq_true in E2.
      rewrite (bool_decide_eq_true_2 (password e ∈ p :: pws))
        by (apply list_elem_of_further, E2).
      cbn [length]. lia.
    + apply bool_decide_eq_false in E2.
      rewrite (bool_decide_eq_false_2 (password e ∈ p :: pws))
        by (intros X; apply elem_of_cons in X as [X|X]; [congruence|contradiction]).
      exact IH.
Qed.

Lemma with_password_in_dup p pws es :
  p ∈ pws -> with_password_in (p :: pws) es = with_password_in pws es.
Proof.
  intros Hp. unfold with_password_in. do 2 f_equal.
  induction es as [|e es IH]; [reflexivity|].
  cbn [List.filter]. rewrite IH.
  destruct (bool_decide (password e ∈ pws)) eqn:E2.
  - apply bool_decide_eq_true in E2.
    rewrite (bool_decide_eq_true_2 (password e ∈ p :: pws))
      by (apply list_elem_of_further, E2).
    reflexivity.
  - apply bool_decide_eq_false in E2.
    rewrite (bool_decide_eq_false_2 (password e ∈ p :: pws)); [reflexivity|].
    intros X. apply elem_of_cons in X as [X|X]; [subst p|]; contradiction.
Qed.

Lemma occurrences_over_distinct pws es :
  sum_over (fun p => occurrences p es) (remove_dups pws) = with_password_in pws es.
Proof.
  induction pws as [|p pws IH].
  - unfold with_password_in. cbn [remove_dups sum_over foldr].
    induction es as [|e es IHe]; [reflexivity|].
    cbn [List.filter]. rewrite bool_decide_eq_false_2 by (apply not_elem_of_nil).
    exact IHe.
  - cbn [remove_dups]. destruct (decide_rel elem_of p pws) as [Hin|Hnin].
    + rewrite IH. symmetry. apply with_password_in_dup, Hin.
    + cbn [sum_over foldr]. fold (sum_over (fun p => occurrences p es) (remove_dups pws)).
      rewrite IH. symmetry. apply with_password_in_step, Hnin.
Qed.

Lemma with_password_in_all es :
  with_password_in (map password es) es = Z.of_nat (length es).
Proof.
  unfold with_password_in. do 2 f_equal.
  assert (H : forall l, (forall e, In e l -> password e ∈ map password es) ->
            List.filter (fun e => bool_decide (password e ∈ map password es)) l = l).
  { induction l as [|e l IH]; intros Hl; [reflexivity|].
    cbn [List.filter]. rewrite bool_decide_eq_true_2 by (apply Hl; left; reflexivity).
    rewrite IH; [reflexivity|]. intros x Hx. apply Hl. right. exact Hx. }
  apply H. intros e He. apply list_elem_of_In, in_map. exact He.
Qed.

Lemma sum_over_filter_le {A} (f : A -> Z) (g : A -> bool) (l : list A) :
  (forall x, 0 <= f x) ->
  0 <= sum_over f (List.filter g l) <= sum_over f l.
Proof.
  intros Hf. induction l as [|x l IH]; [cbn; lia|].
  cbn [List.filter]. destruct (g x); cbn [sum_over foldr];
    fold (sum_over f (List.filter g l)); fold (sum_over f l);
    specialize (Hf x); lia.
Qed.

Lemma sum_over_shares_not_one {A} (f : A -> Z) (l : list A) :
  sum_over f (List.filter (fun x => 1 <? f x) l) = 0
  \/ 2 <= sum_over f (List.filter (fun x => 1 <? f x) l).
Proof.
  induction l as [|x l IH]; [left; reflexivity|].
  cbn [List.filter]. destruct (Z.ltb_spec 1 (f x)); [|exact IH].
  cbn [sum_over foldr]. fold (sum_over f (List.filter (fun x => 1 <? f x) l)).
  right. destruct IH; lia.
Qed.

End HealthMore.

(** X22. [getHealthReport] makes no lock check and changes neither the
    vault nor the file: in every state, Locked or not, it returns a report
    whose [total] is the number of entries, whose [weak] counts the
    entries with a score below 60 and whose [old] counts the entries last
    modified more than 180 days before the clock reading. *)
Theorem X22_getHealthReport_counts (s : PassVault.State) :
  let es := PassVault.entries (PassVault.vault s) in
  let now := PassVault.clock (PassVault.world s) (PassVault.ticks (PassVault.world s)) in
  exists report s',
    PassVault.getHealthReport s = Ok (report, s')
    /\ PassVault.vault s' = PassVault.vault s
    /\ PassVault.disk (PassVault.world s') = PassVault.disk (PassVault.world s)
    /\ report !! str "total" = Some (Z.of_nat (length es))
    /\ report !! str "weak" = Some (weak_count es)
    /\ report !! str "old"
       = Some (Z.of_nat (length (List.filter
                 (fun e => 180 * 86400 <? now - lastModified e) es))).
Proof. intros es now. apply getHealthReport_fields. Qed.

(** X23. In every report of [getHealthReport] the counts [weak], [old]
    and [reused] lie between 0 and [total], and [reused] is never 1; the
    score the dashboard derives from the report therefore lies between 20
    and 100. *)
Theorem X23_report_bounds_and_dashboard_score (s : PassVault.State) :
  exists report s',
    PassVault.getHealthReport s = Ok (report, s')
    /\ 0 <= Dashboard.field "weak" report <= Dashboard.field "total" report
    /\ 0 <= Dashboard.field "old" report <= Dashboard.field "total" report
    /\ 0 <= Dashboard.field "reused" report <= Dashboard.field "total" report
    /\ Dashboard.field "reused" report <> 1
    /\ 20 <= Dashboard.healthScore report <= 100.
Proof.
  destruct (getHealthReport_fields s) as (r & s' & Hg & _ & _ & Ht & Hw & Ho).
  destruct (getHealthReport_reused s) as (r2 & s2 & Hg2 & Hr).
  rewrite Hg in Hg2. injection Hg2 as <- <-.
  exists r, s'. split; [exact Hg|].
  set (es := PassVault.entries (PassVault.vault s)) in *.
  unfold Dashboard.healthScore, Dashboard.field. rewrite Ht, Hw, Ho, Hr. cbn [default].
  unfold Datatypes.id.
  set (reused := sum_over _ _).
  assert (Bw : 0 <= weak_count es <= Z.of_nat (length es)).
  { unfold weak_count. pose proof (filter_length_le
      (fun e => PasswordAnalyzer.score (PasswordAnalyzer.analyzePassword (password e)) <? 60)
      es). lia. }
  set (now := PassVault.clock (PassVault.world s) (PassVault.ticks (PassVault.world s))) in *.
  assert (Bo : 0 <= old_count now es <= Z.of_nat (length es)).
  { unfold old_count. pose proof (filter_length_le
      (fun e => 6 * (30 * 24 * 60 * 60) <? now - lastModified e) es). lia. }
  assert (Br : 0 <= reused <= Z.of_nat (length es)).
  { subst reused.
    pose proof (sum_over_filter_le (fun pw => occurrences pw es)
      (fun pw => 1 <? occurrences pw es) (remove_dups (map password es))
      (fun pw => occurrences_nonneg pw es)) as H.
    rewrite occurrences_over_distinct, with_password_in_all in H. exact H. }
  assert (Bn : reused <> 1).
  { subst reused.
    destruct (sum_over_shares_not_one (fun pw => occurrences pw es)
      (remove_dups (map password es))); lia. }
  split; [exact Bw|]. split; [exact Bo|]. split; [exact Br|]. split; [exact Bn|].
  destruct (Z.ltb_spec 0 (Z.of_nat (length es))) as [Hpos|]; [|lia].
  rewrite !Z.quot_div_nonneg by lia.
  assert (Q : forall a k, 0 <= a <= Z.of_nat (length es) -> 0 <= k ->
            0 <= a * k / Z.of_nat (length es) <= k).
  { intros a k Ha Hk. split; [apply Z.div_pos; nia|].
    apply Z.div_le_upper_bound; nia. }
  pose proof (Q _ 30 Bw ltac:(lia)). pose proof (Q _ 30 Br ltac:(lia)).
  pose proof (Q _ 20 Bo ltac:(lia)). lia.
Qed.

(** ** The file *)

Section FileMore.
Import PassVault.
Local Open Scope vault_scope.

Lemma count_char_app c a b : count_char c (a ++ b) = (count_char c a + count_char c b)%nat.
Proof. unfold count_char. rewrite List.filter_app, length_app. reflexivity. Qed.

Lemma count_char_cons c x s :
  count_char c (x :: s) = ((if Ascii.eqb c x then 1 else 0) + count_char c s)%nat.
Proof. unfold count_char. cbn [List.filter]. destruct (Ascii.eqb c x); reflexivity. Qed.

Lemma count_char_plain xs :
  Forall plain xs -> count_char "|" xs = 0%nat /\ count_char newline xs = 0%nat.
Proof.
  unfold count_char. induction 1 as [|c xs [Hb Hn] _ [IH1 IH2]]; [split; reflexivity|].
  cbn [List.filter]. rewrite (Ascii.eqb_sym "|" c), Hb, (Ascii.eqb_sym newline c), Hn.
  split; assumption.
Qed.

Lemma encrypt_with_hex sec data h :
  encrypt_with sec data = Ok h -> Forall (fun c => file_char c = true) h.
Proof.
  destruct sec as [[k]|]; [|discriminate].
  unfold encrypt_with, SecurityManager.encrypt, SecurityManager.xorEncrypt.
  destruct (SecurityManager.xor_loop data _) as [r|]; [|discriminate].
  cbn [rbind]. intros [= <-].
  eapply Forall_impl; [apply toHex_alphabet|]. intros c Hc. cbv beta in Hc.
  unfold file_char. rewrite Hc. reflexivity.
Qed.

Lemma to_string_file_chars z : Forall (fun c => file_char c = true) (to_string z).
Proof.
  unfold to_string. destruct (z <? 0) eqn:E.
  - apply Z.ltb_lt in E.
    destruct (to_string_unsigned_spec (- z)) as (ds & -> & _ & Hds & _); [lia|].
    constructor; [reflexivity|].
    eapply Forall_impl; [exact Hds|]. intros c Hc. cbv beta in Hc.
    unfold file_char, is_lower_hex. rewrite Hc. reflexivity.
  - apply Z.ltb_ge in E.
    destruct (to_string_unsigned_spec z) as (ds & -> & _ & Hds & _); [lia|].
    eapply Forall_impl; [exact Hds|]. intros c Hc. cbv beta in Hc.
    unfold file_char, is_lower_hex. rewrite Hc. reflexivity.
Qed.

Lemma write_entry_shape sec e l :
  write_entry sec e = Ok l ->
  count_char newline l = 1%nat /\ count_char "|" l = 7%nat
  /\ Forall (fun c => file_char c = true) l.
Proof.
  unfold write_entry.
  destruct (encrypt_with sec (id e)) as [f1|] eqn:E1; [|discriminate].
  destruct (encrypt_with sec (website e)) as [f2|] eqn:E2; [|discriminate].
  destruct (encrypt_with sec (username e)) as [f3|] eqn:E3; [|discriminate].
  destruct (encrypt_with sec (password e)) as [f4|] eqn:E4; [|discriminate].
  destruct (encrypt_with sec (category e)) as [f5|] eqn:E5; [|discriminate].
  destruct (encrypt_with sec (notes e)) as [f6|] eqn:E6; [|discriminate].
  pose proof (encrypt_with_hex _ _ _ E1) as A1.
  pose proof (encrypt_with_hex _ _ _ E2) as A2.
  pose proof (encrypt_with_hex _ _ _ E3) as A3.
  pose proof (encrypt_with_hex _ _ _ E4) as A4.
  pose proof (encrypt_with_hex _ _ _ E5) as A5.
  pose proof (encrypt_with_hex _ _ _ E6) as A6.
  apply encrypt_with_inverse in E1 as [_ P1], E2 as [_ P2], E3 as [_ P3],
    E4 as [_ P4], E5 as [_ P5], E6 as [_ P6].
  apply count_char_plain in P1 as [B1 N1], P2 as [B2 N2], P3 as [B3 N3],
    P4 as [B4 N4], P5 as [B5 N5], P6 as [B6 N6].
  destruct (count_char_plain _ (to_string_plain (createdAt e))) as [B7 N7].
  destruct (count_char_plain _ (to_string_plain (lastModified e))) as [B8 N8].
  pose proof (to_string_file_chars (createdAt e)) as A7.
  pose proof (to_string_file_chars (lastModified e)) as A8.
  cbn [rbind]. intros [= <-].
  repeat first [rewrite count_char_app | rewrite count_char_cons].
  rewrite B1, B2, B3, B4, B5, B6, B7, B8, N1, N2, N3, N4, N5, N6, N7, N8.
  split; [reflexivity|]. split; [reflexivity|].
  repeat first [assumption | apply Forall_app; split | constructor].
Qed.

Lemma write_entries_shape sec es data :
  write_entries sec es = Ok data ->
  count_char newline data = length es
  /\ count_char "|" data = (7 * length es)%nat
  /\ Forall (fun c => file_char c = true) data.
Proof.
  revert data. induction es as [|e es IH]; intros data; cbn [write_entries].
  - intros [= <-]. repeat split. constructor.
  - destruct (write_entry sec e) as [l|] eqn:El; [|discriminate].
    destruct (write_entries sec es) as [r|] eqn:Er; [|discriminate].
    cbn [rbind]. intros [= <-].
    destruct (write_entry_shape sec e l El) as (N1 & B1 & A1).
    destruct (IH r eq_refl) as (N2 & B2 & A2).
    rewrite !count_char_app, N1, N2, B1, B2. cbn [length].
    split; [reflexivity|]. split; [lia|]. apply Forall_app. split; assumption.
Qed.

Lemma write_entries_cons sec e es :
  write_entries sec (e :: es) =
  rbind (write_entry sec e) (fun l =>
  rbind (write_entries sec es) (fun r => Ok (l ++ r))).
Proof. reflexivity. Qed.

(** The last record is read even when its newline is missing. *)
Lemma read_lines_unterminated sec e es :
  Forall time_t_entry (e :: es) ->
  forall data line acc fuel,
    write_entries sec (e :: es) = Ok data ->
    (length (e :: es) < fuel)%nat ->
    exists data', data = data' ++ [newline]
      /\ read_lines fuel sec (open_stream data') line acc = Ok (acc ++ e :: es).
Proof.
  revert e. induction es as [|e2 es IH]; intros e Hall data line acc fuel Hw Hf.
  - cbn [write_entries] in Hw.
    destruct (write_entry sec e) as [l|] eqn:El; [|discriminate].
    cbn [rbind] in Hw. injection Hw as <-. rewrite app_nil_r.
    destruct (write_entry_read_back sec e l (Forall_inv Hall) El) as (body & -> & Hb & Hp).
    exists body. split; [reflexivity|].
    destruct fuel as [|[|fuel]]; try (cbn in Hf; lia).
    assert (Hne : body <> []).
    { destruct (write_entry_shape sec e _ El) as (_ & B & _).
      intros ->. vm_compute in B. discriminate B. }
    cbn [read_lines]. unfold getline at 1. cbn [open_stream eofbit failbit buf orb].
    rewrite split_delim_end by exact Hb.
    destruct body as [|c body]; [congruence|]. cbn [failbit].
    rewrite Hp. cbn [rbind read_lines]. unfold getline. cbn. reflexivity.
  - rewrite write_entries_cons in Hw.
    destruct (write_entry sec e) as [l|] eqn:El; [|discriminate].
    destruct (write_entries sec (e2 :: es)) as [r|] eqn:Er; [|discriminate].
    cbn [rbind] in Hw. injection Hw as <-.
    destruct (write_entry_read_back sec e l (Forall_inv Hall) El) as (body & -> & Hb & Hp).
    destruct fuel as [|fuel]; [cbn in Hf; lia|].
    destruct (IH e2 (Forall_inv_tail Hall) r body (acc ++ [e]) fuel Er)
      as (r' & -> & Hr); [cbn [length] in Hf |- *; lia|].
    exists ((body ++ [newline]) ++ r'). split; [rewrite <- !app_assoc; reflexivity|].
    cbn [read_lines]. rewrite <- app_assoc. cbn [app].
    rewrite getline_record by exact Hb. cbn [failbit open_stream].
    rewrite Hp. cbn [rbind]. fold (open_stream r'). rewrite Hr.
    rewrite <- app_assoc. reflexivity.
Qed.

End FileMore.

(** X24. The file [saveToFile] writes has one line per entry and seven
    separators per line, and holds no character other than the digits
    [0-9a-f], the separator, the minus sign and the newline. *)
Theorem X24_saved_file_shape (s s' : PassVault.State) :
  PassVault.saveToFile s = Ok (true, s') ->
  exists data,
    PassVault.disk (PassVault.world s') = Some data
    /\ count_char PassVault.newline data = length (PassVault.entries (PassVault.vault s))
    /\ count_char "|" data = (7 * length (PassVault.entries (PassVault.vault s)))%nat
    /\ Forall (fun c => file_char c = true) data.
Proof.
  intros H. destruct (saveToFile_true s s' H) as (data & Hw & Hd).
  exists data. split; [exact Hd|]. apply (write_entries_shape _ _ _ Hw).
Qed.

Lemma X24_saved_file_shape_witness :
  let s := Sample.open_state Sample.still_world in
  PassVault.saveToFile s = Ok (true, after [PassVault.SaveToFile] s)
  /\ exists data,
       PassVault.disk (PassVault.world (after [PassVault.SaveToFile] s)) = Some data
       /\ count_char PassVault.newline data = 3%nat.
Proof.
  intros s.
  assert (H : PassVault.saveToFile s = Ok (true, after [PassVault.SaveToFile] s))
    by (vm_compute; reflexivity).
  split; [exact H|].
  destruct (X24_saved_file_shape s _ H) as (data & Hd & Hn & _).
  exists data. split; [exact Hd|exact Hn].
Defined.

(** X25. [loadFromFile] needs no newline after the last record: on the
    file [saveToFile] wrote for a non-empty entry set, cut short by its
    final newline, it still returns true and rebuilds every entry. *)
Theorem X25_load_without_final_newline (s s1 sL : PassVault.State) (data' : bytes) :
  Forall time_t_entry (PassVault.entries (PassVault.vault s)) ->
  PassVault.entries (PassVault.vault s) <> [] ->
  PassVault.saveToFile s = Ok (true, s1) ->
  PassVault.disk (PassVault.world s1) = Some (data' ++ [PassVault.newline]) ->
  PassVault.security (PassVault.vault sL) = PassVault.security (PassVault.vault s) ->
  PassVault.disk (PassVault.world sL) = Some data' ->
  exists s2,
    PassVault.loadFromFile sL = Ok (true, s2)
    /\ PassVault.entries (PassVault.vault s2) = PassVault.entries (PassVault.vault s).
Proof.
  intros Hes Hne Hsave Hd1 Hsec HdL.
  destruct (saveToFile_true s s1 Hsave) as (data & Hw & Hd).
  rewrite Hd in Hd1. injection Hd1 as ->.
  destruct (PassVault.entries (PassVault.vault s)) as [|e es] eqn:E; [congruence|].
  pose proof (write_entries_length _ _ _ Hw) as Hlen.
  rewrite length_app in Hlen. cbn [length] in Hlen.
  destruct (read_lines_unterminated _ e es Hes _ [] [] (length data' + 2) Hw)
    as (d2 & Hd2 & Hr); [cbn [length]; lia|].
  apply app_inj_tail in Hd2 as [<- _].
  unfold PassVault.loadFromFile, PassVault.bind, PassVault.get_world, PassVault.get_vault,
    PassVault.lift, PassVault.update_world, PassVault.update_vault, PassVault.ret.
  rewrite HdL. cbn [PassVault.vault PassVault.world PassVault.set_entries PassVault.security].
  rewrite Hsec, Hr. eexists. split; reflexivity.
Qed.

Lemma X25_load_without_final_newline_witness :
  let s := Sample.open_state Sample.still_world in
  let s1 := after [PassVault.SaveToFile] s in
  let data' := match PassVault.disk (PassVault.world s1) with
               | Some d => removelast d
               | None => []
               end in
  let sL := {| PassVault.vault := PassVault.set_entries [] (PassVault.vault s);
               PassVault.world := PassVault.set_disk (Some data') (PassVault.world s) |} in
  Forall time_t_entry (PassVault.entries (PassVault.vault s))
  /\ PassVault.entries (PassVault.vault s) <> []
  /\ PassVault.saveToFile s = Ok (true, s1)
  /\ PassVault.disk (PassVault.world s1) = Some (data' ++ [PassVault.newline])
  /\ PassVault.security (PassVault.vault sL) = PassVault.security (PassVault.vault s)
  /\ PassVault.disk (PassVault.world sL) = Some data'
  /\ exists s2,
       PassVault.loadFromFile sL = Ok (true, s2)
       /\ PassVault.entries (PassVault.vault s2) = PassVault.entries (PassVault.vault s).
Proof.
  intros s s1 data' sL.
  assert (H1 : Forall time_t_entry (PassVault.entries (PassVault.vault s)))
    by (repeat constructor).
  assert (H2 : PassVault.entries (PassVault.vault s) <> []) by discriminate.
  assert (H3 : PassVault.saveToFile s = Ok (true, s1)) by (vm_compute; reflexivity).
  assert (H4 : PassVault.disk (PassVault.world s1) = Some (data' ++ [PassVault.newline]))
    by (vm_compute; reflexivity).
  assert (H5 : PassVault.security (PassVault.vault sL)
               = PassVault.security (PassVault.vault s)) by reflexivity.
  assert (H6 : PassVault.disk (PassVault.world sL) = Some data') by reflexivity.
  split; [exact H1|]. split; [exact H2|]. split; [exact H3|]. split; [exact H4|].
  split; [exact H5|]. split; [exact H6|].
  exact (X25_load_without_final_newline s s1 sL data' H1 H2 H3 H4 H5 H6).
Defined.

(** X26. When the file cannot be opened for reading [loadFromFile]
    returns false and changes nothing, the entries in memory included;
    on an empty file it returns true and leaves the entry set empty,
    whatever it held and whether or not a key is present. *)
Theorem X26_load_missing_or_empty_file (v : PassVault.t) (w : PassVault.World) :
  let missing := {| PassVault.vault := v; PassVault.world := PassVault.set_disk None w |} in
  let empty := {| PassVault.vault := v;
                  PassVault.world := PassVault.set_disk (Some []) w |} in
  PassVault.loadFromFile missing = Ok (false, missing)
  /\ exists s', PassVault.loadFromFile empty = Ok (true, s')
       /\ PassVault.entries (PassVault.vault s') = []
       /\ PassVault.disk (PassVault.world s') = Some [].
Proof.
  intros missing empty. split; [reflexivity|].
  eexists. split; [reflexivity|]. split; reflexivity.
Qed.

Section MalformedMore.
Import PassVault.

Lemma getline_at_end (strm : istream) temp d :
  eofbit strm = true -> snd (getline strm temp d) = temp /\ eofbit (fst (getline strm temp d)) = true.
Proof. intros H. unfold getline. rewrite H. cbn. split; reflexivity. Qed.

Lemma parse_line_without_separator mp line f :
  Forall plain line ->
  stol line = Fault f ->
  parse_line (Some (SecurityManager.make mp)) line = Fault f.
Proof.
  intros Hp Hs. unfold parse_line.
  assert (Hd : decrypt_with (Some (SecurityManager.make mp)) line
               = Ok (imap (SecurityManager.xor_at (SecurityManager.hashPassword mp))
                       (SecurityManager.fromHex line))) by apply decrypt_make.
  assert (H1 : exists ss, getline (open_stream line) [] "|" = (ss, line)
                          /\ eofbit ss = true).
  { unfold getline, open_stream. cbn [eofbit failbit buf orb].
    rewrite split_delim_end.
    - eexists. split; reflexivity.
    - eapply Forall_impl; [exact Hp|]. intros c [Hc _]. exact Hc. }
  destruct H1 as (ss1 & -> & E1). rewrite Hd. cbn [rbind].
  assert (Hnext : forall ss, eofbit ss = true ->
            exists ss', getline ss line "|" = (ss', line) /\ eofbit ss' = true).
  { intros ss E. destruct (getline_at_end ss line "|" E) as [A B].
    destruct (getline ss line "|") as [ss' t]. cbn in A, B. subst t.
    exists ss'. split; [reflexivity|exact B]. }
  destruct (Hnext ss1 E1) as (ss2 & -> & E2). rewrite Hd. cbn [rbind].
  destruct (Hnext ss2 E2) as (ss3 & -> & E3). rewrite Hd. cbn [rbind].
  destruct (Hnext ss3 E3) as (ss4 & -> & E4). rewrite Hd. cbn [rbind].
  destruct (Hnext ss4 E4) as (ss5 & -> & E5). rewrite Hd. cbn [rbind].
  destruct (Hnext ss5 E5) as (ss6 & -> & E6). rewrite Hd. cbn [rbind].
  destruct (Hnext ss6 E6) as (ss7 & -> & E7). rewrite Hs. reflexivity.
Qed.

End MalformedMore.

(** X27. A first line without any separator, a blank line included, whose
    text [stol] does not accept as a number, makes [loadFromFile] on an
    initialised vault throw [std::invalid_argument] instead of returning. *)
Theorem X27_load_line_without_separator_throws
    (s : PassVault.State) (line rest : bytes) :
  key_ready s ->
  Forall plain line ->
  stol line = Fault InvalidArgument ->
  PassVault.disk (PassVault.world s) = Some (line ++ PassVault.newline :: rest) ->
  PassVault.loadFromFile s = Fault InvalidArgument.
Proof.
  intros [mp Hk] Hp Hs Hd.
  unfold PassVault.loadFromFile, PassVault.bind, PassVault.get_world, PassVault.get_vault,
    PassVault.lift, PassVault.update_world, PassVault.update_vault, PassVault.ret.
  rewrite Hd. cbn [PassVault.vault PassVault.world PassVault.set_entries PassVault.security].
  rewrite Hk, Nat.add_comm. cbn [Nat.add PassVault.read_lines].
  rewrite getline_record by (apply plain_no_newline, Hp).
  cbn [failbit open_stream].
  rewrite (parse_line_without_separator mp line _ Hp Hs). reflexivity.
Qed.

Lemma X27_load_line_without_separator_throws_witness :
  let s := {| PassVault.vault := PassVault.vault (Sample.open_state Sample.still_world);
              PassVault.world := PassVault.set_disk (Some (str "" ++ PassVault.newline :: str "5f"))
                                   Sample.still_world |} in
  key_ready s
  /\ Forall plain (str "")
  /\ stol (str "") = Fault InvalidArgument
  /\ PassVault.loadFromFile s = Fault InvalidArgument.
Proof.
  intros s.
  assert (H1 : key_ready s) by (exists (str "hunter22"); reflexivity).
  assert (H2 : Forall plain (str "")) by constructor.
  assert (H3 : stol (str "") = Fault InvalidArgument) by reflexivity.
  split; [exact H1|]. split; [exact H2|]. split; [exact H3|].
  exact (X27_load_line_without_separator_throws s (str "") (str "5f") H1 H2 H3 eq_refl).
Defined.

(** ** The progress bar *)

Section BarMore.
Import UIHelper.

Lemma concat_repeat_S (x : bytes) (n : nat) :
  List.concat (List.repeat x (S n)) = List.concat (List.repeat x n) ++ x.
Proof.
  induction n as [|n IH].
  - cbn. apply app_nil_r.
  - change (List.concat (List.repeat x (S (S n))))
      with (x ++ List.concat (List.repeat x (S n))).
    rewrite IH, app_assoc. f_equal. exact IH.
Qed.

Lemma bar_cells (b : Z) (n : nat) :
  flat_map (fun i => if Z.of_nat i <? b then full_cell else empty_cell) (seq 0 n)
  = List.concat (List.repeat full_cell (Nat.min n (Z.to_nat b)))
    ++ List.concat (List.repeat empty_cell (n - Z.to_nat b)).
Proof.
  induction n as [|n IH]; [reflexivity|].
  rewrite seq_S, flat_map_app, IH. cbn [flat_map Nat.add]. rewrite app_nil_r.
  destruct (Z.ltb_spec (Z.of_nat n) b) as [Hlt|Hge].
  - replace (Nat.min (S n) (Z.to_nat b)) with (S n) by lia.
    replace (Nat.min n (Z.to_nat b)) with n by lia.
    replace (n - Z.to_nat b)%nat with 0%nat by lia.
    replace (S n - Z.to_nat b)%nat with 0%nat by lia.
    rewrite concat_repeat_S. cbn [List.repeat List.concat]. rewrite !app_nil_r.
    reflexivity.
  - replace (Nat.min (S n) (Z.to_nat b)) with (Z.to_nat b) by lia.
    replace (Nat.min n (Z.to_nat b)) with (Z.to_nat b) by lia.
    replace (S n - Z.to_nat b)%nat with (S (n - Z.to_nat b)) by lia.
    rewrite concat_repeat_S, <- app_assoc. reflexivity.
Qed.

End BarMore.

(** X28. [printProgressBar] always draws twenty cells: a fifth of the
    percentage, rounded towards zero and kept between 0 and 20, are full
    and the others empty, also below 0 and above 100; the number printed
    after the bar is the percentage as given. *)
Theorem X28_progress_bar_has_twenty_cells (percentage : Z) :
  let full := Z.to_nat (Z.min 20 (Z.max 0 (Z.quot percentage 5))) in
  UIHelper.printProgressBar percentage
  = str "[" ++ List.concat (List.repeat UIHelper.full_cell full)
    ++ List.concat (List.repeat UIHelper.empty_cell (20 - full))
    ++ str "] " ++ to_string percentage ++ str "%".
Proof.
  intros full. unfold UIHelper.printProgressBar. rewrite bar_cells.
  replace (Nat.min 20 (Z.to_nat (Z.quot percentage 5))) with full by (unfold full; lia).
  replace (20 - Z.to_nat (Z.quot percentage 5))%nat with (20 - full)%nat
    by (unfold full; lia).
  rewrite <- !app_assoc. reflexivity.
Qed.
